(** * scripts/add-new-bcd.ts: path resolution, tree merge and support traversal

    A shallow embedding of the three pure cores of [add-new-bcd.ts]:

    - [getFilePath]      (identifier path to relative file path),
    - [recursiveAdd]     (merge of a leaf into a nested tree), once over
                         tree values and once over a store of objects,
    - [traverseFeatures] (walk of a parsed JSON document that issues a
                         [writeFile] for every supported node),

    and, over these, of [collectMissing] and [writeFile] on a disk of JSON
    files.

    JavaScript exceptions are results of the model: every function that can
    throw returns a [result]. *)

From Stdlib Require Import ZArith Ascii String List Bool Lia.
From stdpp Require Import base option list strings pretty gmap fin_maps.

Local Open Scope string_scope.
Local Open Scope list_scope.

(** ** Exceptions *)

(** A [TypeError], or an error object of another kind, by its message: the
    [Error] of the resolver, an error of the file system. *)
Inductive exn : Type :=
| TypeError
| Error (message : string).

Inductive result (A : Type) : Type :=
| Ok (a : A)
| Throw (e : exn).
Arguments Ok {A} a.
Arguments Throw {A} e.

Definition bind {A B : Type} (r : result A) (k : A -> result B) : result B :=
  match r with
  | Ok a => k a
  | Throw e => Throw e
  end.

Declare Scope js_scope.
Delimit Scope js_scope with js.
Notation "'let*' x ':=' r 'in' k" := (bind r (fun x => k))
  (at level 10, x pattern, r at level 100, k at level 200) : js_scope.
Local Open Scope js_scope.

(** ** Strings

    Segments are strings of ASCII characters, as the identifiers of the
    data are; [toLowerCase] and [toUpperCase] are
    [String.prototype.toLowerCase] and [toUpperCase] on that alphabet, where
    they fold the 26 letters and fix every other character.  (Off ASCII
    JavaScript folds further letters; the theorems that state the outcome
    of a case test assume [isAscii] of the character tested.) *)

Module JsString.

Definition code (c : ascii) : nat := nat_of_ascii c.

Definition isAscii (c : ascii) : bool := (code c <? 128)%nat.

Definition isUpperLetter (c : ascii) : bool :=
  ((65 <=? code c) && (code c <=? 90))%nat.
Definition isLowerLetter (c : ascii) : bool :=
  ((97 <=? code c) && (code c <=? 122))%nat.
Definition isLetter (c : ascii) : bool := isUpperLetter c || isLowerLetter c.

Definition lowerChar (c : ascii) : ascii :=
  if isUpperLetter c then ascii_of_nat (code c + 32) else c.
Definition upperChar (c : ascii) : ascii :=
  if isLowerLetter c then ascii_of_nat (code c - 32) else c.

Fixpoint toLowerCase (s : string) : string :=
  match s with
  | EmptyString => EmptyString
  | String c r => String (lowerChar c) (toLowerCase r)
  end.

Fixpoint toUpperCase (s : string) : string :=
  match s with
  | EmptyString => EmptyString
  | String c r => String (upperChar c) (toUpperCase r)
  end.

(** [s[0]]: the one-character string at index 0, [None] for [undefined]. *)
Definition first (s : string) : option string :=
  match s with
  | EmptyString => None
  | String c _ => Some (String c EmptyString)
  end.

(** [xs.join(sep)] *)
Fixpoint join (sep : string) (xs : list string) : string :=
  match xs with
  | [] => ""
  | [x] => x
  | x :: r => x +:+ sep +:+ join sep r
  end.

(** [xs.includes(x)] *)
Definition includes (xs : list string) (x : string) : bool :=
  existsb (String.eqb x) xs.

(** [s] occurs in [t] as a contiguous substring. *)
Definition contains (t s : string) : Prop :=
  exists pre post : string, t = pre +:+ s +:+ post.

End JsString.

(** ** Path Resolver *)

Module Resolver.
Import JsString.

(** [startsWithLowerCase]: [s[0] === s[0].toLowerCase()].  On the empty
    string [s[0]] is [undefined] and the method call throws. *)
Definition startsWithLowerCase (s : string) : result bool :=
  match first s with
  | None => Throw TypeError
  | Some c => Ok (String.eqb c (toLowerCase c))
  end.

Definition startsWithUpperCase (s : string) : result bool :=
  match first s with
  | None => Throw TypeError
  | Some c => Ok (String.eqb c (toUpperCase c))
  end.

(** [parts[i]] under a length guard; the default is never compared equal to
    a literal of the source. *)
Definition at_ (parts : list string) (i : nat) : string := nth i parts "".

(** [parts.length = n] on an array of at least [n] elements. *)
Definition truncate (n : nat) (parts : list string) : list string := firstn n parts.

(** [parts[parts.length - 1] += ".json"] *)
Fixpoint addJsonSuffix (parts : list string) : list string :=
  match parts with
  | [] => []
  | [x] => [x +:+ ".json"]
  | x :: r => x :: addJsonSuffix r
  end.

(** [path.join(...parts)] of [node:path] with the POSIX separator, on
    segments that are identifiers (no separator, no [.] or [..] segment, so
    that the normalisation done by [path.join] changes nothing).  A
    theorem that states the joined path in full assumes this of the
    segments joined: that they have no separator ([Segments.lacks]) and,
    where a segment could be empty, [.] or [..], that it is plain
    ([Segments.plain]). *)
Definition path_join (parts : list string) : string := join "/" parts.

Definition finish (parts : list string) : result string :=
  Ok (path_join (addJsonSuffix parts)).

Section WithNamespaces.

(** [namespaces] of [test-builder/javascript.js], imported as
    [jsNamespaces]. *)
Variable jsNamespaces : list string.

Definition getFilePath (ident : list string) : result string :=
  let parts := ident in
  if (2 <=? length parts)%nat && (at_ parts 0 =? "api")%string then
    let* lower := startsWithLowerCase (at_ parts 1) in
    if lower then finish [at_ parts 0; "_globals"; at_ parts 1]
    else finish (truncate 2 parts)
  else if (3 <=? length parts)%nat &&
          includes ["css"; "html"; "svg"; "mathml"] (at_ parts 0) then
    finish (truncate 3 parts)
  else if (3 <=? length parts)%nat && (at_ parts 0 =? "javascript")%string &&
          (at_ parts 1 =? "builtins")%string then
    let* lower := startsWithLowerCase (at_ parts 2) in
    if lower then Ok "javascript/builtins/globals.json"
    else
      let* member :=
        (if (4 <=? length parts)%nat &&
            negb (at_ parts 2 =? at_ parts 3)%string &&
            includes jsNamespaces (at_ parts 2)
         then startsWithUpperCase (at_ parts 3)
         else Ok false) in
      if member then finish (truncate 4 parts) else finish (truncate 3 parts)
  else if (2 <=? length parts)%nat && (at_ parts 0 =? "webassembly")%string then
    finish (truncate 2 parts)
  else
    Throw (Error ("Cannot determine file path from BCD path: " +:+ join "." ident)).

End WithNamespaces.

(** The guards of the four area rules of [getFilePath], read off the
    shape of the identifier: [api] and [webassembly] need two segments,
    the other areas three. *)
Definition areaRule (ident : list string) : bool :=
  match ident with
  | area :: second :: more =>
      (area =? "api")%string || (area =? "webassembly")%string ||
      match more with
      | [] => false
      | _ :: _ =>
          includes ["css"; "html"; "svg"; "mathml"] area ||
          ((area =? "javascript")%string && (second =? "builtins")%string)
      end
  | _ => false
  end.

End Resolver.

(** ** JSON documents

    What [fs.readJson] returns: a value whose objects list their members,
    each key once, in key enumeration order.  Numbers are only ever tested
    for truthiness, so an integer stands for them.  [option json] adds
    [undefined]. *)

Module Json.

#[local] Set Warnings "-register-all".

Inductive json : Type :=
| JNull
| JBool (b : bool)
| JNum (n : Z)
| JStr (s : string)
| JArr (items : list json)
| JObj (members : list (string * json)).

(** [!!v] *)
Definition truthy (v : option json) : bool :=
  match v with
  | None => false
  | Some JNull => false
  | Some (JBool b) => b
  | Some (JNum n) => negb (n =? 0)%Z
  | Some (JStr s) => negb (s =? "")%string
  | Some (JArr _) => true
  | Some (JObj _) => true
  end.

(** [!!v && typeof v == "object"] *)
Definition isObject (v : json) : bool :=
  match v with
  | JArr _ | JObj _ => true
  | _ => false
  end.

Fixpoint assoc (k : string) (ms : list (string * json)) : option json :=
  match ms with
  | [] => None
  | (k', v) :: rest => if (k =? k')%string then Some v else assoc k rest
  end.

(** [v.k] on a value that is neither [null] nor [undefined], for the four
    property names the script reads ([__compat], [support],
    [version_added], [version_removed]): only an object can have them. *)
Definition member (k : string) (v : json) : option json :=
  match v with
  | JObj ms => assoc k ms
  | _ => None
  end.

(** [v?.k] *)
Definition optMember (k : string) (v : option json) : option json :=
  match v with
  | None | Some JNull => None
  | Some x => member k x
  end.

(** The key of array index [n]. *)
Definition indexKey (n : nat) : string := pretty n.

Fixpoint chars (s : string) : list json :=
  match s with
  | EmptyString => []
  | String c r => JStr (String c EmptyString) :: chars r
  end.

(** [Object.values(v)] on a truthy value. *)
Definition values (v : json) : list json :=
  match v with
  | JObj ms => map snd ms
  | JArr xs => xs
  | JStr s => chars s
  | _ => []
  end.

(** [Array.isArray(statements) ? statements : [statements]] *)
Definition statementList (statements : json) : list json :=
  match statements with
  | JArr xs => xs
  | _ => [statements]
  end.

(** The callback of [some]: [s.version_added && !s.version_removed], as the
    truth value [some] makes of it. *)
Definition statementSupports (s : json) : result bool :=
  match s with
  | JNull => Throw TypeError
  | _ => Ok (truthy (member "version_added" s) &&
             negb (truthy (member "version_removed" s)))
  end.

(** [xs.some(f)] for a callback that can throw. *)
Fixpoint some (f : json -> result bool) (xs : list json) : result bool :=
  match xs with
  | [] => Ok false
  | x :: rest => let* b := f x in if b then Ok true else some f rest
  end.

Definition supported (statements : json) : result bool :=
  some statementSupports (statementList statements).

(** The members a [for (const i in obj)] loop enumerates, with their keys:
    those of an object, the indexed items of an array. *)
Fixpoint itemsFrom (n : nat) (xs : list json) : list (string * json) :=
  match xs with
  | [] => []
  | x :: rest => (indexKey n, x) :: itemsFrom (S n) rest
  end.

Definition entries (obj : json) : list (string * json) :=
  match obj with
  | JObj ms => ms
  | JArr xs => itemsFrom 0 xs
  | _ => []
  end.

(** [node?.__compat?.support] *)
Definition supportOf (node : json) : option json :=
  optMember "support" (optMember "__compat" (Some node)).

Section Traversal.

Context {World : Type}.

(** [writeFile], the read-merge-write of one target file, is an effect on
    the world outside the walk; it can throw. *)
Variable writeFile : list string -> json -> World -> result World.

(** [for (const statements of Object.values(support))] with its [break]. *)
Fixpoint forStatements (environments : list json)
         (thisIdent : list string) (node : json) (w : World) : result World :=
  match environments with
  | [] => Ok w
  | statements :: rest =>
      let* b := supported statements in
      if b then writeFile thisIdent node w
      else forStatements rest thisIdent node w
  end.

(** The part of the loop body before the recursive call. *)
Definition examine (thisIdent : list string) (node : json) (w : World)
  : result World :=
  let support := supportOf node in
  if truthy support then
    match support with
    | Some sup => forStatements (values sup) thisIdent node w
    | None => Ok w
    end
  else Ok w.

(** One iteration of [for (const i in obj)]. *)
Definition iteration (recurse : list string -> World -> result World)
           (identifier : list string) (i : string) (child : json) (w : World)
  : result World :=
  if isObject child && negb (i =? "__compat")%string then
    let thisIdent := identifier ++ [i] in
    let* w1 := examine thisIdent child w in
    recurse thisIdent w1
  else Ok w.

Fixpoint traverseFeatures (obj : json) (identifier : list string) (w : World)
         {struct obj} : result World :=
  match obj with
  | JObj members =>
      (fix each (ms : list (string * json)) (w : World) : result World :=
         match ms with
         | [] => Ok w
         | (i, child) :: rest =>
             let* w1 := iteration (traverseFeatures child)
                                  identifier i child w in
             each rest w1
         end) members w
  | JArr items =>
      (fix each (n : nat) (xs : list json) (w : World) : result World :=
         match xs with
         | [] => Ok w
         | child :: rest =>
             let* w1 := iteration (traverseFeatures child)
                                  identifier (indexKey n) child w in
             each (S n) rest w1
         end) 0%nat items w
  | _ => Ok w
  end.

(** The loop of [traverseFeatures] over enumerated members. *)
Fixpoint forIn (identifier : list string) (ms : list (string * json)) (w : World)
  : result World :=
  match ms with
  | [] => Ok w
  | (i, child) :: rest =>
      let* w1 := iteration (traverseFeatures child) identifier i child w in
      forIn identifier rest w1
  end.

End Traversal.

(** A world that only records the calls of [writeFile], in order. *)
Definition Log : Type := list (list string * json).
Definition record (thisIdent : list string) (node : json) (w : Log) : result Log :=
  Ok (w ++ [(thisIdent, node)]).

(** *** The support predicate in the words of the specification *)

(** A statement with a truthy [version_added] and a falsy
    [version_removed]. *)
Definition addedNotRemoved (s : json) : bool :=
  truthy (member "version_added" s) && negb (truthy (member "version_removed" s)).

(** An environment counts when any of its statements is one. *)
Definition environmentCounts (statements : json) : bool :=
  existsb addedNotRemoved (statementList statements).

(** A node is supported when at least one environment counts. *)
Definition nodeSupported (node : json) : bool :=
  match supportOf node with
  | Some sup => truthy (Some sup) && existsb environmentCounts (values sup)
  | None => false
  end.

(** The schema of the data: a support statement is never [null]. *)
Definition typedStatement (s : json) : bool :=
  match s with
  | JNull => false
  | _ => true
  end.

Definition statementsTyped (node : json) : bool :=
  match supportOf node with
  | Some sup =>
      forallb (fun statements => forallb typedStatement (statementList statements))
              (values sup)
  | None => true
  end.

(** *** The nodes of a document the walk is to reach

    [descends obj ks n]: [n] is the node reached from [obj] along the keys
    [ks], one at least, none of them [__compat], through objects and arrays
    only. *)
Definition visitable (m : string * json) : bool :=
  isObject m.2 && negb (m.1 =? "__compat")%string.

Inductive descends : json -> list string -> json -> Prop :=
| descends_child (obj : json) (i : string) (child : json) :
    In (i, child) (entries obj) -> visitable (i, child) = true ->
    descends obj [i] child
| descends_deeper (obj : json) (i : string) (child : json)
                  (ks : list string) (n : json) :
    In (i, child) (entries obj) -> visitable (i, child) = true ->
    descends child ks n ->
    descends obj (i :: ks) n.

(** Every node the walk is to reach has statements as the schema has
    them. *)
Definition typedBelow (obj : json) : Prop :=
  forall ks n, descends obj ks n -> statementsTyped n = true.

(** The nodes below [obj] in depth-first order, a node before the nodes
    below it, with their identifiers. *)
Fixpoint visited (obj : json) (identifier : list string) {struct obj}
  : list (list string * json) :=
  match obj with
  | JObj members =>
      (fix each (ms : list (string * json)) : list (list string * json) :=
         match ms with
         | [] => []
         | (i, child) :: rest =>
             (if visitable (i, child)
              then (identifier ++ [i], child) :: visited child (identifier ++ [i])
              else []) ++ each rest
         end) members
  | JArr items =>
      (fix each (n : nat) (xs : list json) : list (list string * json) :=
         match xs with
         | [] => []
         | child :: rest =>
             (if visitable (indexKey n, child)
              then (identifier ++ [indexKey n], child)
                     :: visited child (identifier ++ [indexKey n])
              else []) ++ each (S n) rest
         end) 0%nat items
  | _ => []
  end.

(** The same list over enumerated members. *)
Fixpoint visitedIn (identifier : list string) (ms : list (string * json))
  : list (list string * json) :=
  match ms with
  | [] => []
  | (i, child) :: rest =>
      (if visitable (i, child)
       then (identifier ++ [i], child) :: visited child (identifier ++ [i])
       else []) ++ visitedIn identifier rest
  end.

(** A node whose record has the one environment [chrome]. *)
Definition featureWith (statements : json) : json :=
  JObj [("__compat", JObj [("support", JObj [("chrome", statements)])])].

(** A document with a supported interface [A] that has a supported member,
    and an interface [B] that is not supported but has a supported member. *)
Definition sampleInterface : json :=
  JObj [("__compat",
         JObj [("support", JObj [("chrome", JObj [("version_added", JStr "1")]);
                                 ("edge", JStr "mirror")])]);
        ("m", featureWith (JObj [("version_added", JStr "1")]))].

Definition sampleDocument : json :=
  JObj [("api",
         JObj [("A", sampleInterface);
               ("B", JObj [("__compat",
                            JObj [("support",
                                   JObj [("chrome", JObj [("version_added", JNull)])])]);
                           ("n", featureWith (JObj [("version_added", JBool true)]))])])].

(** Issuing a list of writes in order; the first one that throws ends it. *)
Fixpoint writeAll {World : Type}
         (writeFile : list string -> json -> World -> result World)
         (calls : list (list string * json)) (w : World) : result World :=
  match calls with
  | [] => Ok w
  | (thisIdent, node) :: rest =>
      let* w1 := writeFile thisIdent node w in
      writeAll writeFile rest w1
  end.

(** The nodes of [calls] that are supported. *)
Definition supportedOnly (calls : list (list string * json))
  : list (list string * json) :=
  List.filter (fun call => nodeSupported call.2) calls.

End Json.

(** ** Tree Merge Engine, on tree values

    [recursiveAdd] read as a function from the tree it is given to the tree
    it returns.  A tree is a value: an atom or a plain object (one made by
    [{}], by [Object.assign({}, obj)] or read from JSON), the finite map of
    its own properties.  Two trees are equal when they are the same nested
    mapping: the order in which an object enumerates its keys is not part
    of the tree.  An array, which the data has only inside a record, where
    no merge walks, is carried as the object of its index keys.

    The model is that of a merge along own names, the segments that are no
    property names of [Object.prototype] ([Segments.ownNames]).  On such a
    segment [part in data] is membership among the own properties of [data]
    and [data[part] = v] makes or updates an own property.  On an inherited
    name, such as [toString] or [__proto__], JavaScript's [in] holds of
    every object, the script walks into the built-in value the name leads
    to, and the assignment may write that value, throw, or set a
    prototype: the model does not follow the script there.  Likewise
    [Object.assign] hands a property named [__proto__] to the setter that
    its target inherits; the model is that of the copy of a leaf with no
    such property ([ownCopy]).  The theorems that say what a merge returns
    assume both of their paths and leaves. *)

Module Tree.

#[local] Set Warnings "-register-all".

Inductive tree : Type :=
| TUndefined
| TNull
| TBool (b : bool)
| TNum (n : Z)
| TStr (s : string)
| TObj (fields : gmap string tree).

Definition emptyObject : tree := TObj ∅.

(** [ident[i]] used as a property key. *)
Definition segment (ident : list string) (i : nat) : string :=
  default "undefined" (ident !! i).

(** The own properties of [data], as [part in data] and [data[part] = v]
    need them: both throw on a value that is not an object. *)
Definition fieldsOf (data : tree) : result (gmap string tree) :=
  match data with
  | TObj m => Ok m
  | _ => Throw TypeError
  end.

Fixpoint charFields (n : nat) (s : string) : list (string * tree) :=
  match s with
  | EmptyString => []
  | String c r => (pretty n, TStr (String c EmptyString)) :: charFields (S n) r
  end.

(** The own properties [Object.assign] copies from its source. *)
Definition ownProperties (obj : tree) : gmap string tree :=
  match obj with
  | TObj m => m
  | TStr s => list_to_map (charFields 0 s)
  | _ => ∅
  end.

(** [Object.assign({}, obj)], for a source without an own property named
    [__proto__]: the new object owns every property it is given. *)
Definition objectAssign (obj : tree) : tree := TObj (ownProperties obj).

(** [obj] has no own property named [__proto__]. *)
Definition ownCopy (obj : tree) : bool :=
  match ownProperties obj !! "__proto__" with
  | Some _ => false
  | None => true
  end.

(** [part in data ? data[part] : {}], for a [part] that is an own name:
    [in] is then the lookup among the own properties [m] of [data]. *)
Definition childOrEmpty (m : gmap string tree) (part : string) : tree :=
  default emptyObject (m !! part).

(** The recursion of [recursiveAdd] runs [ident.length - (i + 1)] times;
    [n] counts the calls still to come.  [data[part] = v] is read for
    segments that are own names, where it makes or updates the own
    property [part] of [data]. *)
Fixpoint recursiveAddFrom (n : nat) (ident : list string) (i : nat)
         (data obj : tree) : result tree :=
  let part := segment ident i in
  match n with
  | S n' =>
      let* m := fieldsOf data in
      let* sub := recursiveAddFrom n' ident (i + 1) (childOrEmpty m part) obj in
      Ok (TObj (<[part := sub]> m))
  | O =>
      let copy := objectAssign obj in
      let* m := fieldsOf data in
      Ok (TObj (<[part := copy]> m))
  end.

Definition recursiveAdd (ident : list string) (i : nat) (data obj : tree)
  : result tree :=
  recursiveAddFrom (length ident - (i + 1)) ident i data obj.

(** The subtree of [t] at the end of path [p]. *)
Fixpoint descend (t : tree) (p : list string) : option tree :=
  match p with
  | [] => Some t
  | k :: rest =>
      match t with
      | TObj m => match m !! k with
                  | Some c => descend c rest
                  | None => None
                  end
      | _ => None
      end
  end.

(** The same merge by recursion on the segments still to place. *)
Fixpoint insertAt (p : list string) (data obj : tree) : result tree :=
  match p with
  | [] =>
      let* m := fieldsOf data in
      Ok (TObj (<["undefined" := objectAssign obj]> m))
  | k :: rest =>
      let* m := fieldsOf data in
      let* sub := match rest with
                  | [] => Ok (objectAssign obj)
                  | _ :: _ => insertAt rest (childOrEmpty m k) obj
                  end in
      Ok (TObj (<[k := sub]> m))
  end.

(** A leaf as [collectMissing] merges it: a node with a record. *)
Definition sampleLeaf : tree :=
  TObj {[ "__compat" := TObj {[ "status" := TBool true ]} ]}.

(** What [insertAt] stores under a key that [rest] follows. *)
Definition below (rest : list string) (child obj : tree) : result tree :=
  match rest with
  | [] => Ok (objectAssign obj)
  | _ :: _ => insertAt rest child obj
  end.

(** A reading of "the leaf merged at [p] is replaced by a subtree when the
    longer path [q] is merged": afterwards [p] holds just the subtree that
    the rest of [q] spans. *)
Definition replacedBySubtree (t : tree) (p q : list string) (a b : tree) : Prop :=
  forall t1 t2,
    recursiveAdd p 0 t a = Ok t1 -> recursiveAdd q 0 t1 b = Ok t2 ->
    exists sub,
      recursiveAdd (drop (length p) q) 0 emptyObject b = Ok sub /\
      descend t2 p = Some sub.

End Tree.

(** ** Tree Merge Engine, on a store of objects

    [recursiveAdd] with objects as the script has them: a value is an atom
    or a reference into a store of objects, [data[part] = v] writes the
    store, [{}] and [Object.assign({}, obj)] allocate.  An object is a
    plain object, the finite map of its own properties.  As on tree
    values, the model is that of a merge along own names
    ([Segments.ownNames]), where [part in data] is membership among the
    own properties of [data], and of a leaf with no own property named
    [__proto__] ([ownCopy]); the theorems about the store assume both. *)

Module Store.

Abbreviation loc := nat.

Inductive value : Type :=
| VUndefined
| VNull
| VBool (b : bool)
| VNum (n : Z)
| VStr (s : string)
| VRef (l : loc).

Abbreviation object := (gmap string value).
Abbreviation store := (list (gmap string value)).

Definition segment (ident : list string) (i : nat) : string :=
  default "undefined" (ident !! i).

(** The object [data] refers to; a value that is not an object makes
    [part in data] and [data[part] = v] throw.  (A store the script can
    build has no reference outside it.) *)
Definition deref (h : store) (data : value) : result (gmap string value) :=
  match data with
  | VRef l => match h !! l with
              | Some o => Ok o
              | None => Throw TypeError
              end
  | _ => Throw TypeError
  end.

(** A new object: it gets the next free location. *)
Definition alloc (o : gmap string value) (h : store) : value * store :=
  (VRef (length h), h ++ [o]).

(** [data[part] = v] *)
Definition assign (h : store) (data : value) (part : string) (v : value)
  : result store :=
  match data with
  | VRef l => match h !! l with
              | Some o => Ok (<[l := <[part := v]> o]> h)
              | None => Throw TypeError
              end
  | _ => Throw TypeError
  end.

Fixpoint charFields (n : nat) (s : string) : list (string * value) :=
  match s with
  | EmptyString => []
  | String c r => (pretty n, VStr (String c EmptyString)) :: charFields (S n) r
  end.

(** The own properties [Object.assign] copies from its source. *)
Definition ownProperties (h : store) (obj : value) : gmap string value :=
  match obj with
  | VRef l => default ∅ (h !! l)
  | VStr s => list_to_map (charFields 0 s)
  | _ => ∅
  end.

(** [Object.assign({}, obj)], for a source without an own property named
    [__proto__]. *)
Definition objectAssign (obj : value) (h : store) : value * store :=
  alloc (ownProperties h obj) h.

(** [obj] has no own property named [__proto__]. *)
Definition ownCopy (h : store) (obj : value) : bool :=
  match ownProperties h obj !! "__proto__" with
  | Some _ => false
  | None => true
  end.

(** [part in data ? data[part] : {}] is, for a [part] that is an own name,
    the lookup [o !! part] among the own properties of [data], with a new
    object when there is none. *)
Fixpoint recursiveAddFrom (n : nat) (ident : list string) (i : nat)
         (data obj : value) (h : store) : result (value * store) :=
  let part := segment ident i in
  match n with
  | S n' =>
      let* o := deref h data in
      let '(child, h1) := match o !! part with
                          | Some c => (c, h)
                          | None => alloc ∅ h
                          end in
      let* (sub, h2) := recursiveAddFrom n' ident (i + 1) child obj h1 in
      let* h3 := assign h2 data part sub in
      Ok (data, h3)
  | O =>
      let '(copy, h1) := objectAssign obj h in
      let* h2 := assign h1 data part copy in
      Ok (data, h2)
  end.

Definition recursiveAdd (ident : list string) (i : nat) (data obj : value)
           (h : store) : result (value * store) :=
  recursiveAddFrom (length ident - (i + 1)) ident i data obj h.

(** [t[p0][p1]...]: the value at the end of path [p] from [v]. *)
Fixpoint lookupPath (h : store) (v : value) (p : list string) : option value :=
  match p with
  | [] => Some v
  | k :: rest =>
      match v with
      | VRef l => match h !! l with
                  | Some o => match o !! k with
                              | Some c => lookupPath h c rest
                              | None => None
                              end
                  | None => None
                  end
      | _ => None
      end
  end.

(** The objects the merge at [p], a path of own names, meets from [v] in
    [h], in order: it stops at the first key that is no own property;
    [None] when it meets a value that is not an object of the store. *)
Fixpoint spine (h : store) (v : value) (p : list string) : option (list loc) :=
  match p with
  | [] => Some []
  | k :: rest =>
      match v with
      | VRef l =>
          match h !! l with
          | Some o =>
              match rest, o !! k with
              | _ :: _, Some c => cons l <$> spine h c rest
              | _, _ => Some [l]
              end
          | None => None
          end
      | _ => None
      end
  end.

(** The same merge by recursion on the segments still to place. *)
Fixpoint insertAt (p : list string) (data obj : value) (h : store)
  : result (value * store) :=
  match p with
  | [] =>
      let '(copy, h1) := objectAssign obj h in
      let* h2 := assign h1 data "undefined" copy in
      Ok (data, h2)
  | k :: rest =>
      match rest with
      | [] =>
          let '(copy, h1) := objectAssign obj h in
          let* h2 := assign h1 data k copy in
          Ok (data, h2)
      | _ :: _ =>
          let* o := deref h data in
          let '(child, h1) := match o !! k with
                              | Some c => (c, h)
                              | None => alloc ∅ h
                              end in
          let* (sub, h2) := insertAt rest child obj h1 in
          let* h3 := assign h2 data k sub in
          Ok (data, h3)
      end
  end.

(** A store with the tree [{api: {A: {__compat: {status: true}}}}] at
    location 0 and a leaf [{__compat: {status: true}}] at location 4. *)
Definition sampleStore : store :=
  [ {[ "api" := VRef 1 ]};
    {[ "A" := VRef 2 ]};
    {[ "__compat" := VRef 3 ]};
    {[ "status" := VBool true ]};
    {[ "__compat" := VRef 5 ]};
    {[ "status" := VBool true ]} ].

(** A value that is not a reference to outside the store. *)
Definition inStore (h : store) (v : value) : Prop :=
  match v with
  | VRef l => l < length h
  | _ => True
  end.

(** What the merge of [obj] at [p] from [v] makes of the store [h], where
    [ls] are the objects it meets: [h'] is the store after it and [c] the
    new object that holds the copy of [obj]. *)
Record merged (p : list string) (v obj : value) (h : store) (ls : list loc)
       (h' : store) (c : loc) : Prop := {
  merged_new : length h <= c < length h';
  merged_copy : inStore h obj -> h' !! c = Some (ownProperties h obj);
  merged_others : forall l, l < length h -> l ∉ ls -> h' !! l = h !! l;
  merged_levels :
    forall j l o, ls !! j = Some l -> h !! l = Some o ->
      exists o', h' !! l = Some o' /\
                 forall k, p !! j <> Some k -> o' !! k = o !! k;
  merged_path :
    forall h'',
      (forall l, l < length h' -> l ∈ ls \/ length h <= l -> h'' !! l = h' !! l) ->
      lookupPath h'' v p = Some (VRef c)
}.

End Store.

(** ** The tree value of a store value

    The two readings of [recursiveAdd] are related through the tree value
    that a store value stands for. *)

Module Abstraction.
Import Store.

(** [repN n h v t]: within depth [n], the value [v] of the store [h] is the
    tree value [t]: the same atom, or a reference to an object whose own
    properties are, key by key, the fields of [t]. *)
Fixpoint repN (n : nat) (h : store) (v : value) (t : Tree.tree) {struct n} : Prop :=
  match v, t with
  | VUndefined, Tree.TUndefined => True
  | VNull, Tree.TNull => True
  | VBool b, Tree.TBool b' => b = b'
  | VNum z, Tree.TNum z' => z = z'
  | VStr s, Tree.TStr s' => s = s'
  | VRef l, Tree.TObj m =>
      match n with
      | O => False
      | S n' =>
          exists o, h !! l = Some o /\
            forall k, match o !! k, m !! k with
                      | Some v', Some t' => repN n' h v' t'
                      | None, None => True
                      | _, _ => False
                      end
      end
  | _, _ => False
  end.

Definition represents (h : store) (v : value) (t : Tree.tree) : Prop :=
  exists n, repN n h v t.

(** The objects reached from a value by following references. *)
Inductive reach (h : store) : value -> loc -> Prop :=
| reach_here (l : loc) : reach h (VRef l) l
| reach_field (l : loc) (o : object) (k : string) (v : value) (l' : loc) :
    h !! l = Some o -> o !! k = Some v -> reach h v l' -> reach h (VRef l) l'.

(** No object of the store holds a reference to outside the store. *)
Definition closed (h : store) : Prop :=
  forall l o k l', h !! l = Some o -> o !! k = Some (VRef l') -> l' < length h.

(** A value held by an object of the path under a key the path does not
    follow. *)
Definition offPath (h : store) (ls : list loc) (p : list string) (v : value) : Prop :=
  exists j l o k, ls !! j = Some l /\ h !! l = Some o /\
                  p !! j <> Some k /\ o !! k = Some v.

(** A value held by a field of the leaf. *)
Definition leafField (h : store) (obj : value) (v : value) : Prop :=
  exists k, ownProperties h obj !! k = Some v.

(** The objects reached from the values off the path and from the fields
    of the leaf. *)
Definition beside (h : store) (ls : list loc) (p : list string) (obj : value)
           (l' : loc) : Prop :=
  exists v, (offPath h ls p v \/ leafField h obj v) /\ reach h v l'.

(** The fields of the leaf are, within depth [n], those of [L]. *)
Definition leafRel (n : nat) (h : store) (obj : value) (L : Tree.tree) : Prop :=
  forall k, match ownProperties h obj !! k, Tree.ownProperties L !! k with
            | Some v, Some t => repN n h v t
            | None, None => True
            | _, _ => False
            end.

End Abstraction.

(** ** Plain segments and own names

    The segments the models are made for.  [path.join] leaves a path of
    plain segments as it is.  A merge along segments that are no names of
    [Object.prototype] meets own properties only: there [part in data] is
    the lookup among the own properties of [data], and [data[part] = v]
    makes or updates an own property. *)

Module Segments.

(** The separator does not occur in [s]. *)
Fixpoint lacks (sep : ascii) (s : string) : bool :=
  match s with
  | EmptyString => true
  | String c r => negb (Ascii.eqb c sep) && lacks sep r
  end.

(** A segment that is not empty, is not [.] or [..] and has no [/]. *)
Definition plain (s : string) : bool :=
  negb (s =? "")%string && negb (s =? ".")%string &&
  negb (s =? "..")%string && lacks "/" s.

(** The property names of [Object.prototype], which every object made by
    [{}], by [Object.assign({}, obj)] or read from JSON inherits. *)
Definition inherited : list string :=
  [ "constructor"; "hasOwnProperty"; "isPrototypeOf"; "propertyIsEnumerable";
    "toLocaleString"; "toString"; "valueOf"; "__proto__";
    "__defineGetter__"; "__defineSetter__";
    "__lookupGetter__"; "__lookupSetter__" ].

(** A segment that is no inherited name. *)
Definition ownName (s : string) : bool :=
  negb (existsb (String.eqb s) inherited).

Definition ownNames (p : list string) : bool := forallb ownName p.

End Segments.

(** ** Trees the merge can walk *)

Module TreeShape.
Import Tree.

(** The merge at [p] can walk [t]: [t] is an object and so is every value
    it meets under a segment of [p] before the last; a segment that [t]
    lacks ends the walk, and the value under the last segment is not
    looked at. *)
Fixpoint walkable (t : tree) (p : list string) : bool :=
  match t with
  | TObj m =>
      match p with
      | [] => true
      | k :: rest =>
          match rest with
          | [] => true
          | _ :: _ => match m !! k with
                      | Some c => walkable c rest
                      | None => true
                      end
          end
      end
  | _ => false
  end.

End TreeShape.

(** ** The files: [collectMissing] and [writeFile]

    The disk is a map from paths to the JSON values the files hold.  The
    values are tree values: what [collectMissing] and [writeFile] write is
    the value of the merged object.  [getMissing], [path.resolve] and the
    replacer [orderFeatures] belong to other modules and are parameters.
    So is what the file system refuses: a file that is there and cannot be
    read as JSON, a file that cannot be written (as one whose directory is
    missing, which [fs.writeJSON] does not make); [fs.readJSON],
    [fs.ensureFile] and [fs.writeJSON] then reject with the error of the
    file system. *)

Module Files.
Import Json Tree Segments.

(** [s.split(sep)] for a separator of one character.  The result is never
    empty, so the first branch of the inner [match] is never taken. *)
Fixpoint split (sep : ascii) (s : string) : list string :=
  match s with
  | EmptyString => [EmptyString]
  | String c r =>
      if Ascii.eqb c sep then EmptyString :: split sep r
      else match split sep r with
           | [] => [String c EmptyString]
           | x :: xs => String c x :: xs
           end
  end.

Definition versionAdded (v : tree) : tree := TObj {[ "version_added" := v ]}.
Definition mirror : tree := TStr "mirror".

(** [template.__compat] *)
Definition templateCompat : tree :=
  TObj (list_to_map
    [ ("support",
       TObj (list_to_map
         [ ("chrome", versionAdded TNull);
           ("chrome_android", mirror);
           ("edge", mirror);
           ("firefox", versionAdded TNull);
           ("firefox_android", mirror);
           ("ie", versionAdded (TBool false));
           ("oculus", mirror);
           ("opera", mirror);
           ("opera_android", mirror);
           ("safari", versionAdded TNull);
           ("safari_ios", mirror);
           ("samsunginternet_android", mirror);
           ("webview_android", mirror) ]));
      ("status",
       TObj (list_to_map
         [ ("experimental", TBool true);
           ("standard_track", TBool true);
           ("deprecated", TBool false) ])) ]).

Definition template : tree := TObj {[ "__compat" := templateCompat ]}.

(** The loop of [collectMissing] over [missingEntries]: every merge is
    into the object the merge before has merged into.  The copies the
    merges store hold the record of the template itself, not a copy of it;
    the tree values are those of the program as long as no merge writes
    into that record, that is, on entries none of whose segments is
    [__compat] ([clean] below). *)
Fixpoint collect (missingEntries : list string) (missing : tree) : result tree :=
  match missingEntries with
  | [] => Ok missing
  | entry :: rest =>
      let* merged := recursiveAdd (split "." entry) 0 missing template in
      collect rest merged
  end.

(** The files of the disk, by path, with the JSON value each holds. *)
Abbreviation files := (gmap string tree).

(** A file system that refuses nothing: every file can be read and
    written, the directory of every path is there. *)
Definition noFailure (path : string) : option exn := None.

(** [collectMissing], on the entries [getMissing] gives: the loop, then
    [fs.ensureFile] and [fs.writeJSON], which reject with the error
    [writeFailure filepath] when the file system refuses the file. *)
Definition collectMissing (writeFailure : string -> option exn)
           (missingEntries : list string) (filepath : string)
           (fs : files) : result files :=
  let* missing := collect missingEntries emptyObject in
  match writeFailure filepath with
  | Some e => Throw e
  | None => Ok (<[filepath := missing]> fs)
  end.

(** Every node reached through keys other than [__compat] is an object. *)
Definition featureTree (t : tree) : Prop :=
  forall p c, ~ In "__compat" p -> descend t p = Some c -> exists m, c = TObj m.

(** An entry that names a feature: none of its segments is [__compat]. *)
Definition clean (entry : string) : Prop := ~ In "__compat" (split "." entry).

(** An entry whose segments are own names. *)
Definition ownEntry (entry : string) : Prop :=
  ownNames (split "." entry) = true.

(** The keys that lead to the nodes of a document are plain. *)
Definition plainKeys (doc : json) : Prop :=
  forall ks n, descends doc ks n -> Forall (fun k => plain k = true) ks.

(** A value read from JSON as a tree value.  An array is the object of its
    indexed items. *)
Fixpoint toTree (v : json) : tree :=
  match v with
  | JNull => TNull
  | JBool b => TBool b
  | JNum n => TNum n
  | JStr s => TStr s
  | JArr items =>
      TObj (list_to_map
              ((fix each (n : nat) (xs : list json) : list (string * tree) :=
                  match xs with
                  | [] => []
                  | x :: rest => (indexKey n, toTree x) :: each (S n) rest
                  end) 0%nat items))
  | JObj members =>
      TObj (list_to_map
              ((fix each (ms : list (string * json)) : list (string * tree) :=
                  match ms with
                  | [] => []
                  | (k, x) :: rest => (k, toTree x) :: each rest
                  end) members))
  end.

(** [obj.__compat] *)
Definition compatOf (obj : json) : result tree :=
  match obj with
  | JNull => Throw TypeError
  | _ => Ok (match member "__compat" obj with
             | Some v => toTree v
             | None => TUndefined
             end)
  end.

(** The record of [obj] has no member named [__proto__]. *)
Definition copiesRecord (obj : json) : bool :=
  match compatOf obj with
  | Ok leaf => ownCopy leaf
  | Throw _ => true
  end.

(** The keys that lead to the nodes of a document are own names, and no
    record of a node has a member named [__proto__]. *)
Definition ownKeys (doc : json) : Prop :=
  forall ks n, descends doc ks n ->
               ownNames ks = true /\ copiesRecord n = true.

(** The template as the JSON value [collectMissing] writes and [main]
    reads back. *)
Definition mirrorJson : json := JStr "mirror".
Definition templateCompatJson : json :=
  JObj
    [ ("support",
       JObj
         [ ("chrome", JObj [("version_added", JNull)]);
           ("chrome_android", mirrorJson);
           ("edge", mirrorJson);
           ("firefox", JObj [("version_added", JNull)]);
           ("firefox_android", mirrorJson);
           ("ie", JObj [("version_added", JBool false)]);
           ("oculus", mirrorJson);
           ("opera", mirrorJson);
           ("opera_android", mirrorJson);
           ("safari", JObj [("version_added", JNull)]);
           ("safari_ios", mirrorJson);
           ("samsunginternet_android", mirrorJson);
           ("webview_android", mirrorJson) ]);
      ("status",
       JObj
         [ ("experimental", JBool true);
           ("standard_track", JBool true);
           ("deprecated", JBool false) ]) ].

Section Disk.

Variable jsNamespaces : list string.

(** [path.resolve(BCD_DIR, rel)] *)
Variable resolve : string -> string.

(** What a file written through the replacer [orderFeatures] holds, as a
    value. *)
Variable orderFeatures : tree -> tree.

(** What the file system refuses.  [readFailure path] is the error with
    which [fs.readJSON] rejects on a file that is there and cannot be read
    as JSON; [writeFailure path] the error with which [fs.writeJSON]
    rejects on a file that cannot be written.  [writeFile] reads a file
    before it writes it, so it writes no file that cannot be read. *)
Variable readFailure : string -> option exn.
Variable writeFailure : string -> option exn.

(** The file at [path] can be read, if it is there, and written. *)
Definition usable (path : string) : Prop :=
  readFailure path = None /\ writeFailure path = None.

(** [writeFile]: the file is read if it exists, merged into, and
    written. *)
Definition writeFile (ident : list string) (obj : json) (fs : files)
  : result files :=
  let* rel := Resolver.getFilePath jsNamespaces ident in
  let filepath := resolve rel in
  let* data := match readFailure filepath with
               | Some e => Throw e
               | None => Ok (default emptyObject (fs !! filepath))
               end in
  let* leaf := compatOf obj in
  let* merged := recursiveAdd (ident ++ ["__compat"]) 0 data leaf in
  match writeFailure filepath with
  | Some e => Throw e
  | None => Ok (<[filepath := orderFeatures merged]> fs)
  end.

End Disk.

End Files.

(** ** [collectMissing] in place

    The loop over a store of objects, where the template is one object
    that every merge copies from. *)

Module InPlace.
Import Store.

(** The loop of [collectMissing] as the script runs it: [missing] and
    [template] are references, and every merge is given the same two. *)
Fixpoint collect (missingEntries : list string) (missing template : value)
         (h : store) : result store :=
  match missingEntries with
  | [] => Ok h
  | entry :: rest =>
      let* (merged, h1) :=
        recursiveAdd (Files.split "." entry) 0 missing template h in
      collect rest missing template h1
  end.

(** The stores the loop makes of a store [h0] that holds the template, the
    record of the template at [tc]: the objects of [h0] are as they were;
    a later object holds under [__compat] the record of the template, and
    under any other key a reference to a later object still, which no
    other object and no other key refers to. *)
Record shaped (h0 : store) (tc : loc) (h : store) : Prop := {
  shaped_template : forall l, l < length h0 -> h !! l = h0 !! l;
  shaped_fields :
    forall l o k v,
      length h0 <= l -> h !! l = Some o -> o !! k = Some v ->
      (k = "__compat" /\ v = VRef tc) \/
      (k <> "__compat" /\ exists l', v = VRef l' /\ l < l' < length h);
  shaped_parent :
    forall l1 o1 k1 l2 o2 k2 l',
      length h0 <= l1 -> length h0 <= l2 ->
      h !! l1 = Some o1 -> o1 !! k1 = Some (VRef l') ->
      h !! l2 = Some o2 -> o2 !! k2 = Some (VRef l') ->
      k1 <> "__compat" -> k2 <> "__compat" ->
      l1 = l2 /\ k1 = k2
}.

(** The template in a store: the four statements, the [support] and
    [status] objects, the record and, last, the template itself. *)
Definition templateStore : store :=
  [ {[ "version_added" := VNull ]};
    {[ "version_added" := VNull ]};
    {[ "version_added" := VBool false ]};
    {[ "version_added" := VNull ]};
    list_to_map
      [ ("chrome", VRef 0);
        ("chrome_android", VStr "mirror");
        ("edge", VStr "mirror");
        ("firefox", VRef 1);
        ("firefox_android", VStr "mirror");
        ("ie", VRef 2);
        ("oculus", VStr "mirror");
        ("opera", VStr "mirror");
        ("opera_android", VStr "mirror");
        ("safari", VRef 3);
        ("safari_ios", VStr "mirror");
        ("samsunginternet_android", VStr "mirror");
        ("webview_android", VStr "mirror") ];
    list_to_map
      [ ("experimental", VBool true);
        ("standard_track", VBool true);
        ("deprecated", VBool false) ];
    list_to_map [ ("support", VRef 4); ("status", VRef 5) ];
    {[ "__compat" := VRef 6 ]} ].

(** Checks of a store, by computation: no reference leads outside it, and
    a value stands, within depth [n], for a tree. *)
Definition inStoreb (h : store) (v : value) : bool :=
  match v with
  | VRef l => (l <? length h)%nat
  | _ => true
  end.

Definition closedb (h : store) : bool :=
  forallb (fun o => forallb (fun kv => inStoreb h kv.2) (map_to_list o)) h.

Fixpoint repb (n : nat) (h : store) (v : value) (t : Tree.tree) : bool :=
  match v, t with
  | VUndefined, Tree.TUndefined => true
  | VNull, Tree.TNull => true
  | VBool b, Tree.TBool b' => Bool.eqb b b'
  | VNum z, Tree.TNum z' => (z =? z')%Z
  | VStr s, Tree.TStr s' => (s =? s')%string
  | VRef l, Tree.TObj m =>
      match n with
      | O => false
      | S n' =>
          match h !! l with
          | Some o =>
              forallb (fun kv => match m !! kv.1 with
                                 | Some t' => repb n' h kv.2 t'
                                 | None => false
                                 end) (map_to_list o) &&
              forallb (fun kt => match o !! kt.1 with
                                 | Some _ => true
                                 | None => false
                                 end) (map_to_list m)
          | None => false
          end
      end
  | _, _ => false
  end.

End InPlace.

(** * Properties of the exception monad *)

Lemma bind_ext {A B : Type} (r r' : result A) (k k' : A -> result B) :
  r = r' -> (forall a, k a = k' a) -> bind r k = bind r' k'.
Proof. intros -> H. destruct r'; simpl; auto. Qed.

Lemma bind_assoc {A B C : Type} (r : result A) (k : A -> result B)
      (k' : B -> result C) :
  bind (bind r k) k' = bind r (fun a => bind (k a) k').
Proof. destruct r; reflexivity. Qed.

(** Two computations that can only throw the same exception can run in
    either order. *)
Lemma bind_swap {A B C : Type} (x : result A) (y : result B)
      (k : A -> B -> result C) (e0 : exn) :
  (forall e, x = Throw e -> e = e0) -> (forall e, y = Throw e -> e = e0) ->
  bind x (fun a => bind y (fun b => k a b)) =
  bind y (fun b => bind x (fun a => k a b)).
Proof.
  intros Hx Hy. destruct x as [a|e], y as [b|e']; simpl; try reflexivity.
  - now rewrite (Hx e eq_refl), (Hy e' eq_refl).
Qed.

(** * Properties of the Path Resolver *)

Module ResolverFacts.
Import JsString Resolver Segments.

(** A character equals its lowercase fold unless it is an uppercase letter. *)
Lemma lowerChar_fixed (c : ascii) :
  Ascii.eqb c (lowerChar c) = negb (isUpperLetter c).
Proof. destruct c as [[] [] [] [] [] [] [] []]; reflexivity. Qed.

Lemma upperChar_fixed (c : ascii) :
  Ascii.eqb c (upperChar c) = negb (isLowerLetter c).
Proof. destruct c as [[] [] [] [] [] [] [] []]; reflexivity. Qed.

Lemma startsWithLowerCase_cons (c : ascii) (r : string) :
  startsWithLowerCase (String c r) = Ok (negb (isUpperLetter c)).
Proof.
  unfold startsWithLowerCase; simpl. rewrite <- lowerChar_fixed.
  destruct (Ascii.eqb c (lowerChar c)); reflexivity.
Qed.

Lemma startsWithUpperCase_cons (c : ascii) (r : string) :
  startsWithUpperCase (String c r) = Ok (negb (isLowerLetter c)).
Proof.
  unfold startsWithUpperCase; simpl. rewrite <- upperChar_fixed.
  destruct (Ascii.eqb c (upperChar c)); reflexivity.
Qed.


Lemma contains_suffix (pre s : string) : contains (pre +:+ s) s.
Proof.
  exists pre, "". f_equal.
  induction s as [|c s IH]; [reflexivity|].
  change (String c s = String c (s +:+ "")). f_equal; exact IH.
Qed.

(** Unfolds the resolver on an identifier whose leading segments are
    known and decides the guards that are closed terms. *)
Ltac resolve_guards :=
  unfold getFilePath, at_;
  cbn -[startsWithLowerCase startsWithUpperCase finish includes String.eqb];
  repeat match goal with
         | |- context [String.eqb ?a ?b] =>
             let v := eval vm_compute in (String.eqb a b) in
             match v with
             | true => change (String.eqb a b) with true
             | false => change (String.eqb a b) with false
             end
         | |- context [includes ?l ?a] =>
             let v := eval vm_compute in (includes l a) in
             match v with
             | true => change (includes l a) with true
             | false => change (includes l a) with false
             end
         end;
  cbn [andb orb negb].







(** C4.  An identifier that meets the guard of no area rule makes the
    resolver throw an [Error] whose message contains the segments joined by
    dots. *)
Theorem getFilePath_unroutable (ns : list string) (ident : list string) :
  areaRule ident = false ->
  exists message : string,
    getFilePath ns ident = Throw (Error message) /\
    contains message (join "." ident).
Proof.
  intros H.
  exists ("Cannot determine file path from BCD path: " +:+ join "." ident).
  split; [|apply contains_suffix].
  unfold getFilePath, at_.
  destruct ident as [|a [|b more]]; try reflexivity.
  cbn [areaRule] in H.
  apply orb_false_elim in H as [H H3]. apply orb_false_elim in H as [H1 H2].
  cbn [length nth Nat.leb]. rewrite H1, H2.
  destruct more as [|c more].
  - reflexivity.
  - apply orb_false_elim in H3 as [H3 H4].
    cbn [length nth Nat.leb andb]. rewrite H3, H4. reflexivity.
Qed.

Lemma getFilePath_unroutable_witness :
  (exists message : string,
     getFilePath [] ["unknownarea"; "x"] = Throw (Error message) /\
     contains message "unknownarea.x") /\
  (exists message : string,
     getFilePath [] ["api"] = Throw (Error message) /\
     contains message "api") /\
  (exists message : string,
     getFilePath [] ["css"; "x"] = Throw (Error message) /\
     contains message "css.x").
Proof.
  split; [|split].
  - apply (getFilePath_unroutable [] ["unknownarea"; "x"]). reflexivity.
  - apply (getFilePath_unroutable [] ["api"]). reflexivity.
  - apply (getFilePath_unroutable [] ["css"; "x"]). reflexivity.
Defined.

(** The guards are exactly the rules: where one is met the resolver does
    not throw that [Error]. *)
Lemma getFilePath_routable (ns : list string) (ident : list string)
      (message : string) :
  areaRule ident = true -> getFilePath ns ident <> Throw (Error message).
Proof.
  intros H. unfold getFilePath, at_.
  destruct ident as [|a [|b more]]; try discriminate.
  cbn [areaRule] in H. cbn [length nth Nat.leb andb].
  destruct (a =? "api")%string eqn:H1.
  { destruct (startsWithLowerCase b) as [[]|[]] eqn:Hb; cbn; try discriminate.
    unfold startsWithLowerCase in Hb. destruct (first b); discriminate. }
  destruct more as [|c more].
  { cbn [length Nat.leb andb].
    destruct (a =? "webassembly")%string; [discriminate|].
    discriminate H. }
  cbn [length Nat.leb andb].
  destruct (includes ["css"; "html"; "svg"; "mathml"] a) eqn:H3; [discriminate|].
  destruct ((a =? "javascript")%string && (b =? "builtins")%string) eqn:H4.
  { cbn [nth]. destruct (startsWithLowerCase c) as [[]|[]] eqn:Hc; cbn;
      try discriminate.
    - match goal with
      | |- context [if ?g then _ else _] => destruct g
      end; cbn; [|discriminate].
      destruct (startsWithUpperCase _) as [[]|[]] eqn:Hu; cbn; try discriminate.
      unfold startsWithUpperCase in Hu. destruct (first _); discriminate.
    - unfold startsWithLowerCase in Hc. destruct (first c); discriminate. }
  destruct (a =? "webassembly")%string; [discriminate|].
  discriminate H.
Qed.

(** The scenarios of the specification, with [Intl] the one namespace. *)
Example getFilePath_scenarios :
  getFilePath ["Intl"] ["api"; "AudioContext"; "decodeAudioData"] =
    Ok "api/AudioContext.json" /\
  getFilePath ["Intl"] ["api"; "caches"] = Ok "api/_globals/caches.json" /\
  getFilePath ["Intl"] ["css"; "properties"; "color"] =
    Ok "css/properties/color.json" /\
  getFilePath ["Intl"] ["javascript"; "builtins"; "Array"; "from"] =
    Ok "javascript/builtins/Array.json" /\
  getFilePath ["Intl"] ["javascript"; "builtins"; "Intl"; "DateTimeFormat"] =
    Ok "javascript/builtins/Intl/DateTimeFormat.json" /\
  getFilePath ["Intl"] ["webassembly"; "multiMemory"; "x"] =
    Ok "webassembly/multiMemory.json" /\
  getFilePath ["Intl"] ["api"; ""] = Throw TypeError.
Proof. repeat split. Qed.

(** C10.  A segment whose first character is an ASCII character that is
    not a letter (a digit, an underscore) is fixed by both case folds, so
    both case tests hold of it; the lowercase test being made first, such a
    second segment, when it has no separator, sends an [api] path to
    [api/_globals], and such a third segment sends a [javascript.builtins]
    path to [javascript/builtins/globals.json]. *)
Theorem getFilePath_non_letter (c : ascii) (r : string) :
  isAscii c = true ->
  isLetter c = false ->
  let segment := String c r in
  lowerChar c = c /\ upperChar c = c /\
  startsWithLowerCase segment = Ok true /\
  startsWithUpperCase segment = Ok true /\
  (lacks "/" segment = true ->
   forall ns rest,
     getFilePath ns ("api" :: segment :: rest) =
       Ok ("api/_globals/" +:+ segment +:+ ".json")) /\
  (forall ns rest,
     getFilePath ns ("javascript" :: "builtins" :: segment :: rest) =
       Ok "javascript/builtins/globals.json").
Proof.
  intros _ H segment. subst segment.
  apply orb_false_elim in H as [Hu Hl].
  assert (Hlow : startsWithLowerCase (String c r) = Ok true)
    by (rewrite startsWithLowerCase_cons, Hu; reflexivity).
  assert (Hupp : startsWithUpperCase (String c r) = Ok true)
    by (rewrite startsWithUpperCase_cons, Hl; reflexivity).
  split; [unfold lowerChar; now rewrite Hu|].
  split; [unfold upperChar; now rewrite Hl|].
  split; [exact Hlow|]. split; [exact Hupp|]. split.
  - intros _ ns rest. resolve_guards. rewrite Hlow. reflexivity.
  - intros ns rest. resolve_guards. rewrite Hlow. reflexivity.
Qed.

Lemma getFilePath_non_letter_witness :
  getFilePath ["Intl"] ["api"; "_x"; "y"] = Ok "api/_globals/_x.json" /\
  getFilePath ["Intl"] ["javascript"; "builtins"; "0n"; "Intl"] =
    Ok "javascript/builtins/globals.json".
Proof.
  split.
  - apply (getFilePath_non_letter "_" "x"); reflexivity.
  - apply (getFilePath_non_letter "0" "n"); reflexivity.
Defined.

End ResolverFacts.

(** * Properties of the Support Traversal *)

Module JsonFacts.
Import Json.

Lemma json_nested_ind (P : json -> Prop) :
  P JNull -> (forall b, P (JBool b)) -> (forall n, P (JNum n)) ->
  (forall s, P (JStr s)) ->
  (forall xs, Forall P xs -> P (JArr xs)) ->
  (forall ms, Forall (fun m => P m.2) ms -> P (JObj ms)) ->
  forall j, P j.
Proof.
  intros HNull HBool HNum HStr HArr HObj.
  fix IH 1. intros [ | b | n | s | xs | ms].
  - exact HNull.
  - apply HBool.
  - apply HNum.
  - apply HStr.
  - apply HArr.
    refine ((fix go (l : list json) : Forall P l :=
               match l with
               | [] => List.Forall_nil _
               | x :: r => List.Forall_cons _ x r (IH x) (go r)
               end) xs).
  - apply HObj.
    refine ((fix go (l : list (string * json)) : Forall (fun m => P m.2) l :=
               match l with
               | [] => List.Forall_nil _
               | (k, x) :: r => List.Forall_cons _ (k, x) r (IH x) (go r)
               end) ms).
Qed.

Lemma Forall_itemsFrom (P : json -> Prop) (xs : list json) (n : nat) :
  Forall P xs -> Forall (fun m => P m.2) (itemsFrom n xs).
Proof.
  intros H. revert n. induction H as [|x xs Hx _ IH]; intros n; simpl;
    constructor; auto.
Qed.

Lemma Forall_entries (P : json -> Prop) (obj : json) :
  match obj with
  | JArr xs => Forall P xs
  | JObj ms => Forall (fun m => P m.2) ms
  | _ => True
  end -> Forall (fun m => P m.2) (entries obj).
Proof.
  destruct obj; simpl; auto using Forall_itemsFrom.
Qed.

Section Walk.

Context {World : Type}.
Variable writeFile : list string -> json -> World -> result World.

Lemma traverseFeatures_entries (obj : json) (identifier : list string) (w : World) :
  traverseFeatures writeFile obj identifier w =
  forIn writeFile identifier (entries obj) w.
Proof.
  destruct obj as [ | b | n | s | xs | ms]; try reflexivity.
  - simpl. generalize 0%nat. revert w.
    induction xs as [|x xs IH]; intros w n; simpl; [reflexivity|].
    destruct (iteration writeFile _ identifier _ x w); simpl; auto.
  - simpl. revert w.
    induction ms as [|[i child] ms IH]; intros w; simpl; [reflexivity|].
    destruct (iteration writeFile _ identifier i child w); simpl; auto.
Qed.

End Walk.

Lemma visited_entries (obj : json) (identifier : list string) :
  visited obj identifier = visitedIn identifier (entries obj).
Proof.
  destruct obj as [ | b | n | s | xs | ms]; try reflexivity.
  - simpl. generalize 0%nat.
    induction xs as [|x xs IH]; intros n; simpl; [reflexivity|].
    now rewrite IH.
  - simpl.
    induction ms as [|[i child] ms IH]; simpl; [reflexivity|].
    now rewrite IH.
Qed.

Lemma statementSupports_typed (s : json) :
  typedStatement s = true -> statementSupports s = Ok (addedNotRemoved s).
Proof. destruct s; simpl; intros H; try reflexivity; discriminate. Qed.

Lemma some_typed (xs : list json) :
  forallb typedStatement xs = true ->
  some statementSupports xs = Ok (existsb addedNotRemoved xs).
Proof.
  induction xs as [|x xs IH]; simpl; intros H; [reflexivity|].
  apply andb_true_iff in H as [Hx Hxs].
  rewrite (statementSupports_typed x Hx). simpl.
  destruct (addedNotRemoved x); simpl; auto.
Qed.

Lemma supported_typed (statements : json) :
  forallb typedStatement (statementList statements) = true ->
  supported statements = Ok (environmentCounts statements).
Proof. apply some_typed. Qed.

Lemma nodeSupported_iff (node : json) :
  nodeSupported node = true <->
  exists sup statements s,
    supportOf node = Some sup /\ truthy (Some sup) = true /\
    In statements (values sup) /\ In s (statementList statements) /\
    truthy (member "version_added" s) = true /\
    truthy (member "version_removed" s) = false.
Proof.
  unfold nodeSupported. split.
  - destruct (supportOf node) as [sup|]; [|discriminate].
    intros H. apply andb_true_iff in H as [Ht H].
    apply existsb_exists in H as (statements & Hin & H).
    apply existsb_exists in H as (s & Hs & H).
    apply andb_true_iff in H as [Ha Hr]. apply negb_true_iff in Hr.
    exists sup, statements, s. auto 10.
  - intros (sup & statements & s & -> & Ht & Hin & Hs & Ha & Hr).
    rewrite Ht. simpl. apply existsb_exists. exists statements. split; [exact Hin|].
    apply existsb_exists. exists s. split; [exact Hs|].
    unfold addedNotRemoved. now rewrite Ha, Hr.
Qed.

Section Examine.

Context {World : Type}.
Variable writeFile : list string -> json -> World -> result World.

Lemma forStatements_typed (environments : list json) (thisIdent : list string)
      (node : json) (w : World) :
  forallb (fun statements => forallb typedStatement (statementList statements))
          environments = true ->
  forStatements writeFile environments thisIdent node w =
  if existsb environmentCounts environments then writeFile thisIdent node w
  else Ok w.
Proof.
  induction environments as [|e es IH]; simpl; intros H; [reflexivity|].
  apply andb_true_iff in H as [He Hes].
  rewrite (supported_typed e He). simpl.
  destruct (environmentCounts e); simpl; auto.
Qed.

Lemma examine_typed (thisIdent : list string) (node : json) (w : World) :
  statementsTyped node = true ->
  examine writeFile thisIdent node w =
  if nodeSupported node then writeFile thisIdent node w else Ok w.
Proof.
  unfold statementsTyped, examine, nodeSupported.
  destruct (supportOf node) as [sup|]; [|reflexivity].
  intros H. destruct (truthy (Some sup)); [|reflexivity].
  simpl. now apply forStatements_typed.
Qed.

End Examine.

(** C1.  With statements as the schema has them (none is [null]), the
    loop over the environments writes the node once when it is supported
    and not at all when it is not, where a node is supported iff one of
    the environments of its [__compat.support] has, among its statements (a
    single statement taken as a list of one), a statement with a truthy
    [version_added] and a falsy [version_removed]. *)
Theorem examine_supported {World : Type}
        (writeFile : list string -> json -> World -> result World)
        (thisIdent : list string) (node : json) (w : World) :
  statementsTyped node = true ->
  examine writeFile thisIdent node w =
    (if nodeSupported node then writeFile thisIdent node w else Ok w) /\
  (nodeSupported node = true <->
   exists sup statements s,
     supportOf node = Some sup /\ truthy (Some sup) = true /\
     In statements (values sup) /\ In s (statementList statements) /\
     truthy (member "version_added" s) = true /\
     truthy (member "version_removed" s) = false) /\
  (forall statements,
     forallb typedStatement (statementList statements) = true ->
     supported statements = Ok (environmentCounts statements) /\
     (environmentCounts statements = true <->
      exists s, In s (statementList statements) /\
                truthy (member "version_added" s) = true /\
                truthy (member "version_removed" s) = false)).
Proof.
  intros H. split; [now apply examine_typed|]. split; [apply nodeSupported_iff|].
  intros statements Hs. split; [now apply supported_typed|].
  unfold environmentCounts. rewrite existsb_exists. unfold addedNotRemoved.
  split.
  - intros (s & Hin & Hb). apply andb_true_iff in Hb as [Ha Hr].
    apply negb_true_iff in Hr. eauto.
  - intros (s & Hin & Ha & Hr). exists s. now rewrite Ha, Hr.
Qed.

Lemma examine_supported_witness :
  examine record ["f"] (featureWith (JObj [("version_added", JNull)])) [] = Ok [] /\
  examine record ["f"]
          (featureWith (JObj [("version_added", JStr "15");
                              ("version_removed", JStr "20")])) [] = Ok [] /\
  examine record ["f"] (featureWith (JObj [("version_added", JBool true)])) [] =
    Ok [(["f"], featureWith (JObj [("version_added", JBool true)]))] /\
  examine record ["f"]
          (featureWith (JArr [JObj [("version_added", JStr "15");
                                    ("version_removed", JStr "20")];
                              JObj [("version_added", JStr "21")]])) [] =
    Ok [(["f"],
         featureWith (JArr [JObj [("version_added", JStr "15");
                                  ("version_removed", JStr "20")];
                            JObj [("version_added", JStr "21")]]))].
Proof.
  split; [|split; [|split]].
  - exact (proj1 (examine_supported record ["f"]
                    (featureWith (JObj [("version_added", JNull)])) [] eq_refl)).
  - exact (proj1 (examine_supported record ["f"]
                    (featureWith (JObj [("version_added", JStr "15");
                                        ("version_removed", JStr "20")]))
                    [] eq_refl)).
  - exact (proj1 (examine_supported record ["f"]
                    (featureWith (JObj [("version_added", JBool true)]))
                    [] eq_refl)).
  - exact (proj1 (examine_supported record ["f"]
                    (featureWith (JArr [JObj [("version_added", JStr "15");
                                              ("version_removed", JStr "20")];
                                        JObj [("version_added", JStr "21")]]))
                    [] eq_refl)).
Defined.

Lemma typedBelow_child (obj : json) (i : string) (child : json) :
  typedBelow obj -> In (i, child) (entries obj) -> visitable (i, child) = true ->
  statementsTyped child = true /\ typedBelow child.
Proof.
  intros H Hin Hv. split.
  - apply (H [i]). now constructor.
  - intros ks n Hd. apply (H (i :: ks)). now apply descends_deeper with child.
Qed.

Section Writes.

Context {World : Type}.
Variable writeFile : list string -> json -> World -> result World.

Lemma writeAll_app (l1 l2 : list (list string * json)) (w : World) :
  writeAll writeFile (l1 ++ l2) w =
  let* w1 := writeAll writeFile l1 w in writeAll writeFile l2 w1.
Proof.
  revert w. induction l1 as [|[thisIdent node] l1 IH]; intros w; simpl;
    [reflexivity|].
  destruct (writeFile thisIdent node w); simpl; auto.
Qed.

(** The walk is the sequence of writes of the supported nodes below the
    document, in depth-first order. *)
Lemma forIn_writes (identifier : list string) (ms : list (string * json)) :
  Forall (fun m => forall identifier w, typedBelow m.2 ->
            traverseFeatures writeFile m.2 identifier w =
            writeAll writeFile (supportedOnly (visited m.2 identifier)) w) ms ->
  (forall i child, In (i, child) ms -> visitable (i, child) = true ->
                   statementsTyped child = true /\ typedBelow child) ->
  forall w,
    forIn writeFile identifier ms w =
    writeAll writeFile (supportedOnly (visitedIn identifier ms)) w.
Proof.
  induction 1 as [|[i child] ms Hchild _ IH]; intros Htyped w; simpl;
    [reflexivity|].
  unfold supportedOnly in *. rewrite List.filter_app, writeAll_app.
  apply bind_ext;
    [|intros w1; apply IH; intros j c Hj Hc; apply (Htyped j c); simpl; auto].
  unfold iteration.
  change (isObject child && negb (i =? "__compat")%string)
    with (visitable (i, child)).
  destruct (visitable (i, child)) eqn:Hv; [|reflexivity].
  destruct (Htyped i child (or_introl eq_refl) Hv) as [Hs Hb].
  rewrite (examine_typed writeFile _ _ _ Hs). simpl in Hchild.
  simpl. destruct (nodeSupported child); simpl.
  - apply bind_ext; [reflexivity|]. intros w1. now apply Hchild.
  - now apply Hchild.
Qed.

Lemma traverseFeatures_writes (obj : json) :
  forall identifier w,
    typedBelow obj ->
    traverseFeatures writeFile obj identifier w =
    writeAll writeFile (supportedOnly (visited obj identifier)) w.
Proof.
  induction obj as [ | b | n | s | xs IH | ms IH] using json_nested_ind;
    intros identifier w Ht; try reflexivity.
  - rewrite traverseFeatures_entries, visited_entries.
    apply forIn_writes.
    + apply (Forall_itemsFrom _ xs 0) in IH. exact IH.
    + intros i child. now apply typedBelow_child.
  - rewrite traverseFeatures_entries, visited_entries.
    apply forIn_writes.
    + exact IH.
    + intros i child. now apply typedBelow_child.
Qed.

End Writes.

Lemma visitedIn_here (identifier : list string) (ms : list (string * json))
      (i : string) (child : json) :
  In (i, child) ms -> visitable (i, child) = true ->
  In (identifier ++ [i], child) (visitedIn identifier ms) /\
  (forall call, In call (visited child (identifier ++ [i])) ->
                In call (visitedIn identifier ms)).
Proof.
  induction ms as [|[j c] ms IH]; simpl; [tauto|].
  intros [Heq|Hin] Hv.
  - injection Heq as -> ->. rewrite Hv. split.
    + apply in_or_app. left. now left.
    + intros call Hc. apply in_or_app. left. now right.
  - destruct (IH Hin Hv) as [H1 H2]. split.
    + apply in_or_app. now right.
    + intros call Hc. apply in_or_app. right. auto.
Qed.

Lemma visited_complete (obj : json) (ks : list string) (n : json) :
  descends obj ks n ->
  forall identifier, In (identifier ++ ks, n) (visited obj identifier).
Proof.
  induction 1 as [obj i child Hin Hv | obj i child ks n Hin Hv _ IH];
    intros identifier; rewrite visited_entries.
  - now apply visitedIn_here.
  - apply (visitedIn_here identifier _ i child Hin Hv).
    replace (identifier ++ i :: ks) with ((identifier ++ [i]) ++ ks)
      by now rewrite <- app_assoc.
    apply IH.
Qed.

Lemma visitedIn_sound (identifier : list string) (ms : list (string * json))
      (call : list string * json) :
  In call (visitedIn identifier ms) ->
  exists i child,
    In (i, child) ms /\ visitable (i, child) = true /\
    (call = (identifier ++ [i], child) \/
     In call (visited child (identifier ++ [i]))).
Proof.
  induction ms as [|[j c] ms IH]; simpl; [tauto|].
  intros H. apply in_app_or in H as [H|H].
  - destruct (visitable (j, c)) eqn:Hv; [|destruct H].
    exists j, c. split; [now left|]. split; [exact Hv|].
    destruct H as [H|H]; [left; now symmetry | now right].
  - destruct (IH H) as (i & child & Hin & Hv & Hc).
    exists i, child. split; [now right|]. auto.
Qed.

Lemma visited_sound (obj : json) :
  forall identifier thisIdent n,
    In (thisIdent, n) (visited obj identifier) ->
    exists ks, thisIdent = identifier ++ ks /\ descends obj ks n.
Proof.
  assert (Hstep : forall obj,
             Forall (fun m => forall identifier thisIdent n,
                       In (thisIdent, n) (visited m.2 identifier) ->
                       exists ks, thisIdent = identifier ++ ks /\
                                  descends m.2 ks n) (entries obj) ->
             forall identifier thisIdent n,
               In (thisIdent, n) (visited obj identifier) ->
               exists ks, thisIdent = identifier ++ ks /\ descends obj ks n).
  { intros o HF identifier thisIdent n Hin.
    rewrite visited_entries in Hin.
    apply visitedIn_sound in Hin as (i & child & Hi & Hv & Hc).
    destruct Hc as [Heq|Hdeep].
    - injection Heq as -> ->. exists [i]. split; [reflexivity|].
      now constructor.
    - rewrite List.Forall_forall in HF. specialize (HF (i, child) Hi). simpl in HF.
      destruct (HF _ _ _ Hdeep) as (ks & -> & Hd).
      exists (i :: ks). split; [now rewrite <- app_assoc|].
      now apply descends_deeper with child. }
  induction obj as [ | b | n | s | xs IH | ms IH] using json_nested_ind;
    try (intros ? ? ? []).
  - apply Hstep. apply (Forall_itemsFrom _ xs 0) in IH. exact IH.
  - apply Hstep. exact IH.
Qed.

(** C9.  On a document with statements as the schema has them, the walk
    issues, for any [writeFile], exactly the writes of the supported nodes
    among the nodes [visited] lists, in that depth-first order and until a
    write throws; and [visited] lists, under its full identifier, every node
    reached from the document through keys other than [__compat], at every
    depth, whether or not a node above it was written. *)
Theorem traverseFeatures_visits {World : Type}
        (writeFile : list string -> json -> World -> result World)
        (obj : json) (identifier : list string) (w : World) :
  typedBelow obj ->
  traverseFeatures writeFile obj identifier w =
    writeAll writeFile (supportedOnly (visited obj identifier)) w /\
  (forall thisIdent n,
     In (thisIdent, n) (visited obj identifier) <->
     exists ks, thisIdent = identifier ++ ks /\ descends obj ks n) /\
  (forall thisIdent n,
     In (thisIdent, n) (supportedOnly (visited obj identifier)) <->
     nodeSupported n = true /\
     exists ks, thisIdent = identifier ++ ks /\ descends obj ks n).
Proof.
  intros Ht.
  assert (Hcover : forall thisIdent n,
             In (thisIdent, n) (visited obj identifier) <->
             exists ks, thisIdent = identifier ++ ks /\ descends obj ks n).
  { intros thisIdent n. split.
    - apply visited_sound.
    - intros (ks & -> & Hd). now apply visited_complete. }
  split; [now apply traverseFeatures_writes|]. split; [exact Hcover|].
  intros thisIdent n. unfold supportedOnly. rewrite List.filter_In, Hcover.
  simpl. tauto.
Qed.

Lemma typedBelow_check (obj : json) :
  forallb (fun call => statementsTyped call.2) (visited obj []) = true ->
  typedBelow obj.
Proof.
  intros H ks n Hd. rewrite forallb_forall in H.
  apply (H ([] ++ ks, n)). now apply visited_complete.
Qed.

Lemma traverseFeatures_visits_witness :
  traverseFeatures record sampleDocument [] [] =
  Ok [(["api"; "A"], sampleInterface);
      (["api"; "A"; "m"], featureWith (JObj [("version_added", JStr "1")]));
      (["api"; "B"; "n"], featureWith (JObj [("version_added", JBool true)]))].
Proof.
  exact (proj1 (traverseFeatures_visits record sampleDocument [] []
                  (typedBelow_check sampleDocument eq_refl))).
Defined.

End JsonFacts.

(** * Properties of the Tree Merge Engine, on tree values *)

Module TreeFacts.
Import Tree Segments.

Lemma insertAt_cons (k : string) (rest : list string) (data obj : tree) :
  insertAt (k :: rest) data obj =
  let* m := fieldsOf data in
  let* sub := below rest (childOrEmpty m k) obj in
  Ok (TObj (<[k := sub]> m)).
Proof. destruct rest; reflexivity. Qed.

(** [recursiveAdd] from index [i] places the segments from [i] on. *)
Lemma recursiveAddFrom_insertAt (ident : list string) (obj : tree) (n : nat) :
  forall (i : nat) (data : tree),
    n = length ident - (i + 1) ->
    recursiveAddFrom n ident i data obj = insertAt (drop i ident) data obj.
Proof.
  induction n as [|n IH]; intros i data Hn.
  - destruct (ident !! i) as [k|] eqn:Hk.
    + rewrite (drop_S _ _ _ Hk), drop_ge by lia.
      simpl. unfold segment. now rewrite Hk.
    + rewrite drop_ge by (now apply lookup_ge_None).
      simpl. unfold segment. now rewrite Hk.
  - destruct (ident !! i) as [k|] eqn:Hk;
      [|apply lookup_ge_None in Hk; lia].
    destruct (ident !! (i + 1)) as [k2|] eqn:Hk2;
      [|apply lookup_ge_None in Hk2; lia].
    rewrite (drop_S _ _ _ Hk). replace (S i) with (i + 1) by lia.
    simpl. unfold segment. rewrite Hk. simpl.
    destruct (fieldsOf data) as [m|e]; [|reflexivity]. simpl.
    rewrite IH by lia.
    replace (i + 1) with (S i) in Hk2 |- * by lia.
    rewrite (drop_S _ _ _ Hk2). reflexivity.
Qed.

Lemma recursiveAdd_insertAt (ident : list string) (data obj : tree) :
  recursiveAdd ident 0 data obj = insertAt ident data obj.
Proof. unfold recursiveAdd. now rewrite recursiveAddFrom_insertAt. Qed.

(** The equation of the source: the last index stores the copy, any other
    index recurses into the child, or into a new object. *)
Lemma recursiveAdd_unfold (ident : list string) (i : nat) (data obj : tree) :
  recursiveAdd ident i data obj =
  let part := segment ident i in
  if decide (i + 1 < length ident) then
    let* m := fieldsOf data in
    let* sub := recursiveAdd ident (i + 1) (childOrEmpty m part) obj in
    Ok (TObj (<[part := sub]> m))
  else
    let* m := fieldsOf data in
    Ok (TObj (<[part := objectAssign obj]> m)).
Proof.
  unfold recursiveAdd. case_decide as H.
  - replace (length ident - (i + 1)) with (S (length ident - (i + 1 + 1)))
      by lia.
    reflexivity.
  - replace (length ident - (i + 1)) with 0 by lia. reflexivity.
Qed.

Lemma fieldsOf_throws (data : tree) (e : exn) :
  fieldsOf data = Throw e -> e = TypeError.
Proof. destruct data; simpl; intros H; inversion H; reflexivity. Qed.

Lemma insertAt_throws (p : list string) (obj : tree) :
  forall (data : tree) (e : exn),
    insertAt p data obj = Throw e -> e = TypeError.
Proof.
  induction p as [|k rest IH]; intros data e.
  - simpl. destruct data; simpl; intros H; inversion H; reflexivity.
  - rewrite insertAt_cons. destruct (fieldsOf data) as [m|e'] eqn:Hm; simpl.
    + destruct rest as [|k2 rest]; [discriminate|].
      unfold below.
      destruct (insertAt (k2 :: rest) (childOrEmpty m k) obj) as [sub|e'] eqn:Hs;
        simpl; [discriminate|].
      intros [= <-]. eapply IH, Hs.
    + intros [= <-]. eapply fieldsOf_throws, Hm.
Qed.

Lemma below_throws (rest : list string) (child obj : tree) (e : exn) :
  below rest child obj = Throw e -> e = TypeError.
Proof.
  destruct rest; [discriminate|]. apply insertAt_throws.
Qed.

Lemma not_prefix_cons (k : string) (p q : list string) :
  ~ (k :: p) `prefix_of` (k :: q) -> ~ p `prefix_of` q.
Proof. intros H Hp. apply H. now apply prefix_cons. Qed.

Lemma below_commute_step (p q : list string) (a b : tree) :
  (forall t, p <> [] -> q <> [] ->
     ~ p `prefix_of` q -> ~ q `prefix_of` p ->
     bind (insertAt p t a) (fun t1 => insertAt q t1 b) =
     bind (insertAt q t b) (fun t2 => insertAt p t2 a)) ->
  forall c,
    ~ p `prefix_of` q -> ~ q `prefix_of` p ->
    bind (below p c a) (fun s1 => below q s1 b) =
    bind (below q c b) (fun s2 => below p s2 a).
Proof.
  intros IH c Hpq Hqp.
  destruct p as [|k p]; [destruct Hpq; apply prefix_nil|].
  destruct q as [|k' q]; [destruct Hqp; apply prefix_nil|].
  apply IH; auto; discriminate.
Qed.

(** Merges at two paths of which neither is a prefix of the other commute. *)
Lemma insertAt_commute (p : list string) :
  forall (q : list string) (t a b : tree),
    ~ p `prefix_of` q -> ~ q `prefix_of` p ->
    bind (insertAt p t a) (fun t1 => insertAt q t1 b) =
    bind (insertAt q t b) (fun t2 => insertAt p t2 a).
Proof.
  induction p as [|k p IH]; intros q t a b Hpq Hqp;
    [destruct Hpq; apply prefix_nil|].
  destruct q as [|k' q]; [destruct Hqp; apply prefix_nil|].
  rewrite !insertAt_cons.
  destruct (fieldsOf t) as [m|e] eqn:Hm; [|reflexivity].
  cbn [bind]. rewrite !bind_assoc.
  destruct (decide (k = k')) as [<-|Hne].
  - apply not_prefix_cons in Hpq, Hqp.
    transitivity
      (bind (bind (below p (childOrEmpty m k) a) (fun s1 => below q s1 b))
            (fun s2 => Ok (TObj (<[k := s2]> m)))).
    + rewrite bind_assoc. apply bind_ext; [reflexivity|]. intros s1.
      cbn [bind]. rewrite insertAt_cons. cbn [fieldsOf bind].
      unfold childOrEmpty at 1. rewrite lookup_insert_eq. cbn [default].
      apply bind_ext; [reflexivity|]. intros s2.
      now rewrite insert_insert_eq.
    + assert (Hstep := below_commute_step p q a b
                           (fun t' _ _ H1 H2 => IH q t' a b H1 H2)
                           (childOrEmpty m k) Hpq Hqp).
      rewrite Hstep. clear Hstep.
      rewrite bind_assoc. apply bind_ext; [reflexivity|]. intros s2.
      cbn [bind]. rewrite insertAt_cons. cbn [fieldsOf bind].
      unfold childOrEmpty at 1. rewrite lookup_insert_eq. cbn [default].
      apply bind_ext; [reflexivity|]. intros s1.
      now rewrite insert_insert_eq.
  - transitivity
      (bind (below p (childOrEmpty m k) a)
            (fun s1 => bind (below q (childOrEmpty m k') b)
                            (fun s2 => Ok (TObj (<[k' := s2]> (<[k := s1]> m)))))).
    + apply bind_ext; [reflexivity|]. intros s1. cbn [bind].
      rewrite insertAt_cons. cbn [fieldsOf bind].
      unfold childOrEmpty at 1. now rewrite lookup_insert_ne.
    + rewrite (bind_swap _ _ _ TypeError)
        by (intros e; apply below_throws).
      apply bind_ext; [reflexivity|]. intros s2. cbn [bind].
      rewrite insertAt_cons. cbn [fieldsOf bind].
      unfold childOrEmpty at 2. rewrite lookup_insert_ne by congruence.
      apply bind_ext; [reflexivity|]. intros s1.
      now rewrite insert_insert_ne.
Qed.

(** C5.  Merging [a] at [p] and then [b] at [q] gives the tree that merging
    [b] at [q] and then [a] at [p] gives, for any tree and any two paths of
    own names of which neither is a prefix of the other (and where one
    order throws, so does the other). *)
Theorem recursiveAdd_commute (t : tree) (p q : list string) (a b : tree) :
  ownNames p = true -> ownNames q = true ->
  ownCopy a = true -> ownCopy b = true ->
  ~ p `prefix_of` q -> ~ q `prefix_of` p ->
  (let* t1 := recursiveAdd p 0 t a in recursiveAdd q 0 t1 b) =
  (let* t2 := recursiveAdd q 0 t b in recursiveAdd p 0 t2 a).
Proof.
  intros _ _ _ _ Hpq Hqp.
  rewrite (bind_ext _ (insertAt p t a) _ (fun t1 => insertAt q t1 b))
    by (intros; apply recursiveAdd_insertAt).
  rewrite (bind_ext (recursiveAdd q 0 t b) (insertAt q t b) _
                    (fun t2 => insertAt p t2 a))
    by (intros; apply recursiveAdd_insertAt).
  now apply insertAt_commute.
Qed.

Lemma recursiveAdd_commute_witness :
  (let* t1 := recursiveAdd ["api"; "A"] 0 emptyObject (TObj {[ "x" := TNull ]}) in
   recursiveAdd ["api"; "B"; "m"] 0 t1 (TObj {[ "y" := TBool true ]})) =
  (let* t2 := recursiveAdd ["api"; "B"; "m"] 0 emptyObject
                           (TObj {[ "y" := TBool true ]}) in
   recursiveAdd ["api"; "A"] 0 t2 (TObj {[ "x" := TNull ]})).
Proof.
  apply (recursiveAdd_commute emptyObject ["api"; "A"] ["api"; "B"; "m"]);
    try reflexivity.
  - intros [k H]. discriminate H.
  - intros [k H]. discriminate H.
Defined.

(** After a merge the path leads to the copy of the leaf. *)
Lemma insertAt_descend (p : list string) (a : tree) :
  forall t t1,
    p <> [] -> insertAt p t a = Ok t1 -> descend t1 p = Some (objectAssign a).
Proof.
  induction p as [|k rest IH]; intros t t1 Hp; [congruence|].
  rewrite insertAt_cons.
  destruct (fieldsOf t) as [m|e]; [|discriminate]. cbn [bind].
  destruct (below rest (childOrEmpty m k) a) as [sub|e] eqn:Hsub;
    [|discriminate].
  cbn [bind]. intros [= <-]. cbn [descend]. rewrite lookup_insert_eq.
  destruct rest as [|k2 rest].
  - injection Hsub as <-. reflexivity.
  - eapply IH; [discriminate|exact Hsub].
Qed.

(** A merge at a path that runs through an existing node is a merge of the
    rest of the path into that node. *)
Lemma insertAt_through (p : list string) (q : list string) (b : tree) :
  forall t c,
    q <> [] -> descend t p = Some c ->
    (forall t2, insertAt (p ++ q) t b = Ok t2 ->
                exists c', insertAt q c b = Ok c' /\ descend t2 p = Some c') /\
    (forall c', insertAt q c b = Ok c' ->
                exists t2, insertAt (p ++ q) t b = Ok t2).
Proof.
  induction p as [|k p IH]; intros t c Hq Hd.
  - injection Hd as ->. simpl. split; eauto.
  - cbn [descend] in Hd.
    destruct t as [ | | | | | m]; try discriminate.
    destruct (m !! k) as [x|] eqn:Hx; [|discriminate].
    destruct (IH x c Hq Hd) as [IH1 IH2].
    change ((k :: p) ++ q) with (k :: (p ++ q)).
    rewrite insertAt_cons. cbn [fieldsOf bind].
    assert (Hbelow : below (p ++ q) (childOrEmpty m k) b = insertAt (p ++ q) x b).
    { unfold childOrEmpty. rewrite Hx. cbn [default].
      destruct (p ++ q) eqn:Hpq; [|reflexivity].
      apply app_eq_nil in Hpq as [_ ?]. congruence. }
    rewrite Hbelow. split.
    + intros t2. destruct (insertAt (p ++ q) x b) as [sub|e] eqn:Hs;
        [|discriminate].
      cbn [bind]. intros [= <-].
      destruct (IH1 sub eq_refl) as (c' & Hc' & Hdc').
      exists c'. split; [exact Hc'|]. cbn [descend].
      now rewrite lookup_insert_eq.
    + intros c' Hc'. destruct (IH2 c' Hc') as (sub & ->). cbn [bind]. eauto.
Qed.

Lemma descend_emptyObject (p : list string) :
  p <> [] -> descend emptyObject p = None.
Proof. destruct p; [congruence|reflexivity]. Qed.

Lemma insertAt_emptyObject (p : list string) (b : tree) :
  exists t, insertAt p emptyObject b = Ok t.
Proof.
  assert (H : forall c, c = emptyObject -> exists t, insertAt p c b = Ok t);
    [|eauto].
  induction p as [|k rest IH]; intros c ->; [simpl; eauto|].
  rewrite insertAt_cons. cbn [fieldsOf emptyObject bind].
  destruct rest as [|k2 rest]; [simpl; eauto|].
  unfold below, childOrEmpty. rewrite lookup_empty. cbn [default].
  destruct (IH emptyObject eq_refl) as (sub & ->). cbn [bind]. eauto.
Qed.

Lemma descend_app (p s : list string) :
  forall t, descend t (p ++ s) =
            match descend t p with
            | Some x => descend x s
            | None => None
            end.
Proof.
  induction p as [|k p IH]; intros t; [reflexivity|].
  cbn [app descend]. destruct t; try reflexivity.
  destruct (fields !! k); [apply IH|reflexivity].
Qed.

(** The merge below a key, as the source makes it: the copy of the leaf
    when the key is the last segment, else the merge of the further
    segments into the value under the key, or into a new object. *)
Lemma below_recursiveAdd (s : list string) (child obj : tree) :
  below s child obj =
  match s with
  | [] => Ok (objectAssign obj)
  | _ :: _ => recursiveAdd s 0 child obj
  end.
Proof. destruct s; [reflexivity|]. now rewrite recursiveAdd_insertAt. Qed.

(** C6, as the code has it.  When a leaf [a] has been merged at [p] and [b]
    is then merged at the longer path [p ++ k :: s] (paths of own names),
    the node at [p], which was the copy of [a], is the copy of [a] with the
    field [k] set: to the copy of [b] when [k] is the last segment, else to
    what merging [b] at [s] into the field [k] of [a] gives, or into a new
    object when [a] has no field [k].  Every other field of [a] is still
    there.  The second merge returns exactly when that merge below [k]
    does: always when [k] is the last segment or [a] has no field [k]; it
    throws a [TypeError] when the path runs into an atom of [a]. *)
Theorem recursiveAdd_below_leaf (t : tree) (p : list string) (k : string)
        (s : list string) (a b t1 : tree) :
  p <> [] ->
  ownNames (p ++ k :: s) = true ->
  ownCopy a = true -> ownCopy b = true ->
  recursiveAdd p 0 t a = Ok t1 ->
  let field :=
    match s with
    | [] => Ok (objectAssign b)
    | _ :: _ => recursiveAdd s 0 (childOrEmpty (ownProperties a) k) b
    end in
  descend t1 p = Some (objectAssign a) /\
  (forall t2, recursiveAdd (p ++ k :: s) 0 t1 b = Ok t2 ->
     exists sub,
       field = Ok sub /\
       descend t2 p = Some (TObj (<[k := sub]> (ownProperties a))) /\
       descend t2 (p ++ [k]) = Some sub /\
       forall k', k' <> k -> descend t2 (p ++ [k']) = ownProperties a !! k') /\
  (forall sub, field = Ok sub ->
     exists t2, recursiveAdd (p ++ k :: s) 0 t1 b = Ok t2) /\
  (s = [] \/ ownProperties a !! k = None -> exists sub, field = Ok sub) /\
  (forall e, recursiveAdd (p ++ k :: s) 0 t1 b = Throw e ->
     e = TypeError /\ field = Throw TypeError).
Proof.
  intros Hp _ _ _ H1 field. rewrite recursiveAdd_insertAt in H1.
  assert (Hfield : field = below s (childOrEmpty (ownProperties a) k) b)
    by (symmetry; apply below_recursiveAdd).
  clearbody field.
  assert (Hd : descend t1 p = Some (TObj (ownProperties a)))
    by (eapply insertAt_descend; eauto).
  destruct (insertAt_through p (k :: s) b t1 _ ltac:(discriminate) Hd)
    as [Hfw Hbw].
  assert (Hnode : insertAt (k :: s) (TObj (ownProperties a)) b =
                  bind field
                       (fun sub => Ok (TObj (<[k := sub]> (ownProperties a)))))
    by (rewrite insertAt_cons, Hfield; reflexivity).
  split; [exact Hd|]. split; [|split; [|split]].
  - intros t2 H2. rewrite recursiveAdd_insertAt in H2.
    destruct (Hfw t2 H2) as (c' & Hc' & Hdc').
    rewrite Hnode in Hc'. destruct field as [sub|e]; [|discriminate Hc'].
    injection Hc' as <-. exists sub. split; [reflexivity|].
    split; [exact Hdc'|]. split.
    + rewrite descend_app, Hdc'. cbn [descend]. now rewrite lookup_insert_eq.
    + intros k' Hk'. rewrite descend_app, Hdc'. cbn [descend].
      rewrite lookup_insert_ne by congruence.
      now destruct (ownProperties a !! k').
  - intros sub Hsub. rewrite Hsub in Hnode.
    destruct (Hbw _ Hnode) as (t2 & Ht2).
    exists t2. now rewrite recursiveAdd_insertAt.
  - intros Hcase. rewrite Hfield.
    destruct Hcase as [-> | Hnone]; [simpl; eauto|].
    destruct s as [|k2 s]; [simpl; eauto|].
    unfold below, childOrEmpty. rewrite Hnone. cbn [default].
    apply insertAt_emptyObject.
  - intros e He. rewrite recursiveAdd_insertAt in He.
    assert (e = TypeError) as -> by (eapply insertAt_throws; eauto).
    split; [reflexivity|].
    destruct field as [sub|e'].
    + destruct (Hbw _ Hnode) as (t2 & Ht2). congruence.
    + symmetry in Hfield. now apply below_throws in Hfield as ->.
Qed.

Lemma recursiveAdd_below_leaf_witness :
  descend (TObj {[ "api" := TObj {[ "Foo" := sampleLeaf ]} ]}) ["api"; "Foo"] =
    Some (objectAssign sampleLeaf) /\
  exists t2,
    recursiveAdd (["api"; "Foo"] ++ ["bar"]) 0
                 (TObj {[ "api" := TObj {[ "Foo" := sampleLeaf ]} ]})
                 sampleLeaf = Ok t2.
Proof.
  destruct (recursiveAdd_below_leaf emptyObject ["api"; "Foo"] "bar" []
              sampleLeaf sampleLeaf
              (TObj {[ "api" := TObj {[ "Foo" := sampleLeaf ]} ]}))
    as (H1 & _ & H3 & _).
  - discriminate.
  - reflexivity.
  - vm_compute. reflexivity.
  - vm_compute. reflexivity.
  - vm_compute. reflexivity.
  - split; [exact H1|]. now apply (H3 (objectAssign sampleLeaf)).
Defined.

(** C6 as stated fails: after [api.Foo] and then [api.Foo.bar] are merged
    into an empty tree, the record of [api.Foo] is still there, next to
    [bar]; the node is not the subtree that [bar] alone spans.  And a longer
    path that runs into an atom of the leaf makes the merge throw. *)
Lemma recursiveAdd_leaf_kept :
  (exists t1 t2,
     recursiveAdd ["api"; "Foo"] 0 emptyObject sampleLeaf = Ok t1 /\
     recursiveAdd ["api"; "Foo"; "bar"] 0 t1 sampleLeaf = Ok t2 /\
     descend t2 ["api"; "Foo"; "__compat"] =
       Some (TObj {[ "status" := TBool true ]}) /\
     descend t2 ["api"; "Foo"; "bar"] = Some sampleLeaf /\
     recursiveAdd ["api"; "Foo"; "__compat"; "status"; "x"] 0 t1 sampleLeaf =
       Throw TypeError) /\
  ~ replacedBySubtree emptyObject ["api"; "Foo"] ["api"; "Foo"; "bar"]
                      sampleLeaf sampleLeaf.
Proof.
  split.
  - eexists _, _. split; [vm_compute; reflexivity|].
    split; [vm_compute; reflexivity|].
    split; [vm_compute; reflexivity|].
    split; vm_compute; reflexivity.
  - intros H. edestruct H as (sub & Hsub & Hd).
    + vm_compute. reflexivity.
    + vm_compute. reflexivity.
    + assert (Hc : descend sub ["__compat"] = None).
      { vm_compute in Hsub. injection Hsub as <-. vm_compute. reflexivity. }
      vm_compute in Hd. injection Hd as <-. vm_compute in Hc. discriminate Hc.
Qed.

(** A merge changes, at each level of the path, only the key that the path
    follows: the subtree under any other key is what it was. *)
Lemma insertAt_frame (p : list string) (l : tree) :
  forall t t' j k,
    insertAt p t l = Ok t' -> j < length p -> p !! j <> Some k ->
    descend t' (take j p ++ [k]) = descend t (take j p ++ [k]).
Proof.
  induction p as [|k0 rest IH]; intros t t' j k H Hj Hk; [simpl in Hj; lia|].
  rewrite insertAt_cons in H.
  destruct t as [ | | | | | m]; try discriminate. cbn [fieldsOf bind] in H.
  destruct (below rest (childOrEmpty m k0) l) as [sub|e] eqn:Hsub;
    [|discriminate].
  injection H as <-.
  destruct j as [|j].
  - simpl in Hk. simpl. rewrite lookup_insert_ne by congruence. reflexivity.
  - simpl in Hj, Hk. cbn [take app descend]. rewrite lookup_insert_eq.
    destruct rest as [|k1 rest]; [simpl in Hj; lia|].
    unfold below in Hsub.
    rewrite (IH _ _ j k Hsub) by (auto; simpl in *; lia).
    unfold childOrEmpty. destruct (m !! k0) as [c|]; [reflexivity|].
    cbn [default]. apply descend_emptyObject.
    destruct (take j (k1 :: rest)); discriminate.
Qed.

End TreeFacts.

(** * Properties of the Tree Merge Engine, on a store of objects *)

Module StoreFacts.
Import Store.

Lemma insertAt_last (k : string) (data obj : value) (h : store) :
  insertAt [k] data obj h =
  let* h2 := assign (h ++ [ownProperties h obj]) data k (VRef (length h)) in
  Ok (data, h2).
Proof. reflexivity. Qed.

Lemma insertAt_inner (k k2 : string) (rest : list string) (data obj : value)
      (h : store) :
  insertAt (k :: k2 :: rest) data obj h =
  let* o := deref h data in
  let '(child, h1) := match o !! k with
                      | Some c => (c, h)
                      | None => alloc ∅ h
                      end in
  let* (sub, h2) := insertAt (k2 :: rest) child obj h1 in
  let* h3 := assign h2 data k sub in
  Ok (data, h3).
Proof. reflexivity. Qed.

(** [recursiveAdd] from index [i] places the segments from [i] on. *)
Lemma store_recursiveAddFrom_insertAt (ident : list string) (obj : value) (n : nat) :
  forall (i : nat) (data : value) (h : store),
    n = length ident - (i + 1) ->
    recursiveAddFrom n ident i data obj h = insertAt (drop i ident) data obj h.
Proof.
  induction n as [|n IH]; intros i data h Hn.
  - destruct (ident !! i) as [k|] eqn:Hk.
    + rewrite (drop_S _ _ _ Hk), drop_ge by lia.
      simpl. unfold segment. now rewrite Hk.
    + rewrite drop_ge by (now apply lookup_ge_None).
      simpl. unfold segment. now rewrite Hk.
  - destruct (ident !! i) as [k|] eqn:Hk;
      [|apply lookup_ge_None in Hk; lia].
    destruct (ident !! (S i)) as [k2|] eqn:Hk2;
      [|apply lookup_ge_None in Hk2; lia].
    assert (Hseg : segment ident i = k) by (unfold segment; now rewrite Hk).
    assert (Hnext : forall c h1,
               recursiveAddFrom n ident (i + 1) c obj h1 =
               insertAt (k2 :: drop (S (S i)) ident) c obj h1).
    { intros c h1. rewrite IH by lia. replace (i + 1) with (S i) by lia.
      now rewrite (drop_S _ _ _ Hk2). }
    rewrite (drop_S _ _ _ Hk), (drop_S _ _ _ Hk2), insertAt_inner.
    cbn [recursiveAddFrom]. rewrite Hseg.
    destruct (deref h data) as [o|e]; [|reflexivity]. cbn [bind].
    destruct (o !! k) as [c|]; cbn [alloc]; now rewrite Hnext.
Qed.

Lemma store_recursiveAdd_insertAt (ident : list string) (data obj : value) (h : store) :
  recursiveAdd ident 0 data obj h = insertAt ident data obj h.
Proof. unfold recursiveAdd. now rewrite store_recursiveAddFrom_insertAt. Qed.

Lemma spine_bound (p : list string) :
  forall h v ls l, spine h v p = Some ls -> l ∈ ls -> l < length h.
Proof.
  induction p as [|k rest IH]; intros h v ls l Hs Hl.
  - injection Hs as <-. inversion Hl.
  - cbn [spine] in Hs. destruct v as [ | | | | | l0]; try discriminate.
    destruct (h !! l0) as [o|] eqn:Ho; [|discriminate].
    apply lookup_lt_Some in Ho.
    assert (Hone : ls = [l0] -> l < length h).
    { intros ->. apply list_elem_of_singleton in Hl as ->. exact Ho. }
    destruct rest as [|k2 rest]; [apply Hone; congruence|].
    destruct (o !! k) as [c|]; [|apply Hone; congruence].
    destruct (spine h c (k2 :: rest)) as [ls'|] eqn:Hs'; [|discriminate].
    injection Hs as <-. apply elem_of_cons in Hl as [->|Hl]; [exact Ho|].
    eapply IH; eauto.
Qed.

Lemma ownProperties_grow (h : store) (o : object) (obj : value) :
  inStore h obj -> ownProperties (h ++ [o]) obj = ownProperties h obj.
Proof.
  destruct obj as [ | | | | | l]; try reflexivity.
  simpl. intros Hl. now rewrite lookup_app_l.
Qed.

(** The merge of a leaf along a path whose objects are distinct. *)
Lemma insertAt_merged (p : list string) (obj : value) :
  forall h v ls,
    p <> [] -> spine h v p = Some ls -> NoDup ls ->
    exists h' c, insertAt p v obj h = Ok (v, h') /\ merged p v obj h ls h' c.
Proof.
  induction p as [|k rest IH]; intros h v ls Hp Hs Hnd; [congruence|].
  clear Hp. cbn [spine] in Hs.
  destruct v as [ | | | | | l]; try discriminate.
  destruct (h !! l) as [o|] eqn:Ho; [|discriminate].
  assert (Hl : l < length h) by (eapply lookup_lt_Some; eauto).
  destruct rest as [|k2 rest].
  - (* the last segment: the copy is stored under [k] *)
    injection Hs as <-.
    exists (<[l := <[k := VRef (length h)]> o]> (h ++ [ownProperties h obj])),
           (length h).
    split.
    { rewrite insertAt_last. cbn [assign].
      rewrite lookup_app_l by exact Hl. now rewrite Ho. }
    split.
    + rewrite length_insert, length_app. simpl. lia.
    + intros _. rewrite list_lookup_insert_ne by lia.
      rewrite lookup_app_r by lia. now rewrite Nat.sub_diag.
    + intros l' Hl' Hnot. rewrite list_lookup_insert_ne
        by (intros <-; apply Hnot; now left).
      now rewrite lookup_app_l.
    + intros j l' o' Hj Ho'. destruct j as [|j]; [|discriminate].
      injection Hj as <-. rewrite Ho in Ho'. injection Ho' as <-.
      eexists. split.
      * apply list_lookup_insert_eq. rewrite length_app. lia.
      * intros k' Hk'. apply lookup_insert_ne. simpl in Hk'. congruence.
    + intros h'' Hagree. cbn [lookupPath].
      rewrite Hagree.
      * rewrite list_lookup_insert_eq by (rewrite length_app; lia).
        now rewrite lookup_insert_eq.
      * rewrite length_insert, length_app. lia.
      * left. now left.
  - destruct (o !! k) as [child|] eqn:Hk.
    + (* the path goes on through an existing child *)
      destruct (spine h child (k2 :: rest)) as [ls'|] eqn:Hs'; [|discriminate].
      injection Hs as <-. apply NoDup_cons in Hnd as [Hnot Hnd].
      destruct (IH h child ls' ltac:(discriminate) Hs' Hnd)
        as (h2 & c & Hrun & [Hnew Hcopy Hothers Hlevels Hpath]).
      assert (Ho2 : h2 !! l = Some o) by (rewrite Hothers; auto).
      exists (<[l := <[k := child]> o]> h2), c. split.
      { rewrite insertAt_inner. cbn [deref]. rewrite Ho. cbn [bind].
        rewrite Hk, Hrun. cbn [bind assign]. now rewrite Ho2. }
      split.
      * rewrite length_insert. exact Hnew.
      * intros Hobj. rewrite list_lookup_insert_ne by lia. auto.
      * intros l' Hl' Hnot'. rewrite list_lookup_insert_ne
          by (intros <-; apply Hnot'; now left).
        apply Hothers; [exact Hl'|]. intros ?. apply Hnot'. now right.
      * intros j l' o' Hj Ho'. destruct j as [|j].
        -- injection Hj as <-. rewrite Ho in Ho'. injection Ho' as <-.
           eexists. split.
           ++ apply list_lookup_insert_eq. lia.
           ++ intros k' Hk'. apply lookup_insert_ne. simpl in Hk'. congruence.
        -- simpl in Hj. destruct (Hlevels j l' o' Hj Ho') as (o2 & Ho2' & Hkeep).
           exists o2. split; [|exact Hkeep].
           rewrite list_lookup_insert_ne; [exact Ho2'|].
           intros <-. apply Hnot. eapply list_elem_of_lookup_2, Hj.
      * intros h'' Hagree. cbn [lookupPath].
        rewrite Hagree; [| rewrite length_insert; lia | left; now left].
        rewrite list_lookup_insert_eq by lia. rewrite lookup_insert_eq.
        apply Hpath. intros l' Hl' Hin.
        rewrite Hagree.
        -- apply list_lookup_insert_ne. intros <-.
           destruct Hin as [Hin|Hin]; [now apply Hnot|lia].
        -- now rewrite length_insert.
        -- destruct Hin as [Hin|Hin]; [left; now right|now right].
    + (* the key is absent: the path goes on through a new object *)
      injection Hs as <-.
      assert (Hs1 : spine (h ++ [∅]) (VRef (length h)) (k2 :: rest)
                    = Some [length h]).
      { cbn [spine]. rewrite lookup_app_r by lia. rewrite Nat.sub_diag.
        cbn [lookup list_lookup]. rewrite lookup_empty.
        now destruct rest. }
      destruct (IH (h ++ [∅]) (VRef (length h)) [length h]
                   ltac:(discriminate) Hs1 (NoDup_singleton _))
        as (h2 & c & Hrun & [Hnew Hcopy Hothers Hlevels Hpath]).
      rewrite length_app in Hnew, Hothers, Hpath. simpl in Hnew, Hothers, Hpath.
      assert (Hkeep : forall l', l' < length h -> h2 !! l' = h !! l').
      { intros l' Hl'. rewrite Hothers.
        - now apply lookup_app_l.
        - lia.
        - intros Hin. apply list_elem_of_singleton in Hin. lia. }
      assert (Ho2 : h2 !! l = Some o) by (rewrite Hkeep; auto).
      exists (<[l := <[k := VRef (length h)]> o]> h2), c. split.
      { rewrite insertAt_inner. cbn [deref]. rewrite Ho. cbn [bind].
        rewrite Hk. cbn [alloc]. rewrite Hrun. cbn [bind assign].
        now rewrite Ho2. }
      split.
      * rewrite length_insert. lia.
      * intros Hobj. rewrite list_lookup_insert_ne by lia.
        rewrite Hcopy, ownProperties_grow; auto.
        destruct obj; simpl in *; auto. rewrite length_app. simpl. lia.
      * intros l' Hl' Hnot'. rewrite list_lookup_insert_ne
          by (intros <-; apply Hnot'; now left).
        now apply Hkeep.
      * intros j l' o' Hj Ho'. destruct j as [|j]; [|discriminate].
        injection Hj as <-. rewrite Ho in Ho'. injection Ho' as <-.
        eexists. split.
        -- apply list_lookup_insert_eq. lia.
        -- intros k' Hk'. apply lookup_insert_ne. simpl in Hk'. congruence.
      * intros h'' Hagree. cbn [lookupPath].
        rewrite Hagree; [| rewrite length_insert; lia | left; now left].
        rewrite list_lookup_insert_eq by lia. rewrite lookup_insert_eq.
        apply Hpath. intros l' Hl' Hin.
        assert (length h <= l').
        { destruct Hin as [Hin|Hin]; [|lia].
          apply list_elem_of_singleton in Hin. lia. }
        rewrite Hagree.
        -- apply list_lookup_insert_ne. lia.
        -- now rewrite length_insert.
        -- now right.
Qed.

End StoreFacts.

(** * The merge on the store is the merge on tree values *)

Module AbstractionFacts.
Import Segments.
Import Store StoreFacts Abstraction.

Lemma repN_mono n : forall n' h v t, n <= n' -> repN n h v t -> repN n' h v t.
Proof.
  induction n as [|n IH]; intros n' h v t Hle H.
  - destruct v, t; simpl in *; try tauto; destruct n'; simpl; tauto.
  - destruct n' as [|n']; [lia|].
    destruct v, t; simpl in *; try tauto.
    destruct H as (o & Ho & Hk). exists o. split; [exact Ho|].
    intros k. specialize (Hk k).
    destruct (o !! k), (fields !! k); try tauto. apply IH; [lia|exact Hk].
Qed.

Lemma repN_frame n : forall h h' v t,
  (forall l, reach h v l -> h' !! l = h !! l) ->
  repN n h v t -> repN n h' v t.
Proof.
  induction n as [|n IH]; intros h h' v t Hag H.
  - destruct v, t; simpl in *; tauto.
  - destruct v, t; simpl in *; try tauto.
    destruct H as (o & Ho & Hk). exists o. split.
    + rewrite Hag; [exact Ho|constructor].
    + intros k. specialize (Hk k).
      destruct (o !! k) as [v'|] eqn:Hv, (fields !! k); try tauto.
      apply (IH h); [|exact Hk].
      intros l' Hr. apply Hag. eapply reach_field; eauto.
Qed.

Lemma reach_closed h v l :
  closed h -> inStore h v -> reach h v l -> l < length h.
Proof.
  intros Hc Hin Hr. induction Hr as [l | l o k v l' Ho Hk _ IH].
  - exact Hin.
  - apply IH. destruct v; simpl; auto. eapply Hc; eauto.
Qed.

Lemma closed_field h l o k v :
  closed h -> h !! l = Some o -> o !! k = Some v -> inStore h v.
Proof. intros Hc Ho Hk. destruct v; simpl; auto. eapply Hc; eauto. Qed.

Lemma reach_grow h o' v l :
  closed h -> inStore h v -> reach (h ++ [o']) v l -> reach h v l.
Proof.
  intros Hc Hin Hr. induction Hr as [l | l o k v l' Ho Hk _ IH].
  - constructor.
  - simpl in Hin. rewrite lookup_app_l in Ho by exact Hin.
    eapply reach_field; eauto. apply IH. eapply closed_field; eauto.
Qed.

Lemma closed_grow_empty h : closed h -> closed (h ++ [∅]).
Proof.
  intros Hc l o k l' Ho Hk. rewrite length_app. simpl.
  destruct (decide (l < length h)) as [Hl|Hl].
  - rewrite lookup_app_l in Ho by exact Hl. specialize (Hc l o k l' Ho Hk). lia.
  - rewrite lookup_app_r in Ho by lia.
    destruct (l - length h) as [|d]; simpl in Ho; [|destruct d; discriminate].
    injection Ho as <-. rewrite lookup_empty in Hk. discriminate.
Qed.

Lemma leafRel_frame n h h' obj L :
  (forall v l, leafField h obj v -> reach h v l -> h' !! l = h !! l) ->
  ownProperties h' obj = ownProperties h obj ->
  leafRel n h obj L -> leafRel n h' obj L.
Proof.
  intros Hag Hown H k. specialize (H k). rewrite Hown.
  destruct (ownProperties h obj !! k) as [v|] eqn:Hv,
           (Tree.ownProperties L !! k); try tauto.
  eapply repN_frame; [|exact H].
  intros l Hr. eapply Hag; eauto. now exists k.
Qed.

Lemma leafField_inStore h obj v :
  closed h -> inStore h obj -> leafField h obj v -> inStore h v.
Proof.
  intros Hc Hin [k Hk]. destruct obj as [ | | | | s | l]; simpl in Hk;
    try (rewrite lookup_empty in Hk; discriminate).
  - destruct v; simpl; auto.
    exfalso. revert Hk. generalize 0. induction s as [|a s IH]; intros n; simpl.
    + rewrite lookup_empty. discriminate.
    + rewrite lookup_insert. case_decide; [discriminate|]. now apply IH.
  - destruct (h !! l) as [o|] eqn:Ho; simpl in Hk.
    + eapply closed_field; eauto.
    + rewrite lookup_empty in Hk. discriminate.
Qed.

Lemma offPath_tail h l ls k p v :
  offPath h ls p v -> offPath h (l :: ls) (k :: p) v.
Proof. intros (j & l0 & o & k0 & H). exists (S j), l0, o, k0. exact H. Qed.

Lemma beside_tail h l ls k p obj l' :
  beside h ls p obj l' -> beside h (l :: ls) (k :: p) obj l'.
Proof.
  intros (v & [H|H] & Hr); exists v; split; auto.
  left. now apply offPath_tail.
Qed.

Lemma repN_fields n h l o m :
  h !! l = Some o -> repN n h (VRef l) (Tree.TObj m) ->
  exists n', n = S n' /\
    forall k, match o !! k, m !! k with
              | Some v', Some t' => repN n' h v' t'
              | None, None => True
              | _, _ => False
              end.
Proof.
  intros Ho H. destruct n as [|n']; [destruct H|].
  destruct H as (o' & Ho' & Hk). rewrite Ho in Ho'. injection Ho' as <-.
  eauto.
Qed.

Lemma repN_object n h l t :
  repN n h (VRef l) t -> exists m, t = Tree.TObj m.
Proof. destruct n, t; simpl; try tauto; eauto. Qed.

(** The fields of a merged node: the one under [k] is [sub], represented in
    [h''] by [vsub]; the others are as they were in [h]. *)
Lemma represents_node h h'' l o m k vsub tsub n' :
  h'' !! l = Some (<[k := vsub]> o) ->
  (forall k0, match o !! k0, m !! k0 with
              | Some v', Some t' => repN n' h v' t'
              | None, None => True
              | _, _ => False
              end) ->
  (forall k0 v l', k0 <> k -> o !! k0 = Some v -> reach h v l' ->
                   h'' !! l' = h !! l') ->
  represents h'' vsub tsub ->
  represents h'' (VRef l) (Tree.TObj (<[k := tsub]> m)).
Proof.
  intros Hl Hrel Hag [n2 Hsub]. exists (S (max n' n2)).
  exists (<[k := vsub]> o). split; [exact Hl|]. intros k0.
  destruct (decide (k0 = k)) as [->|Hne].
  - rewrite !lookup_insert_eq. eapply repN_mono; [|exact Hsub]. lia.
  - rewrite !lookup_insert_ne by congruence. specialize (Hrel k0).
    destruct (o !! k0) as [v|] eqn:Hv, (m !! k0); try tauto.
    eapply repN_mono; [apply Nat.le_max_l|].
    eapply repN_frame; [|exact Hrel]. intros l' Hr. eapply Hag; eauto.
Qed.

(** The merge on the store and the merge on tree values run together: where
    the value merged into stands for [T] and the leaf for [L], both succeed,
    and the value stands for the merged tree in every store that keeps the
    objects of the path and the new objects as the merge left them, and the
    objects reached from values off the path and from the leaf's fields as
    they were. *)
Lemma insertAt_represents (p : list string) (obj : value) (L : Tree.tree)
      (nL : nat) :
  forall h v T ls n,
    p <> [] -> closed h -> inStore h obj ->
    spine h v p = Some ls -> NoDup ls ->
    repN n h v T -> leafRel nL h obj L ->
    exists h' T',
      insertAt p v obj h = Ok (v, h') /\
      Tree.insertAt p T L = Ok T' /\
      forall h'',
        (forall l', l' < length h' -> l' ∈ ls \/ length h <= l' ->
                    h'' !! l' = h' !! l') ->
        (forall l', beside h ls p obj l' -> h'' !! l' = h !! l') ->
        represents h'' v T'.
Proof.
  induction p as [|k rest IH]; intros h v T ls n Hp Hc Hobj Hs Hnd Hrep Hleaf;
    [congruence|].
  clear Hp.
  destruct (insertAt_merged (k :: rest) obj h v ls ltac:(discriminate) Hs Hnd)
    as (h' & c & Hrun & [Hnew Hcopy Hothers _ _]).
  cbn [spine] in Hs.
  destruct v as [ | | | | | l]; try discriminate.
  destruct (h !! l) as [o|] eqn:Ho; [|discriminate].
  assert (Hl : l < length h) by (eapply lookup_lt_Some; eauto).
  destruct (repN_object _ _ _ _ Hrep) as [m ->].
  destruct (repN_fields _ _ _ _ _ Ho Hrep) as (n' & -> & Hrel).
  assert (Hsib : forall (ls' : list loc) (h'' : store),
             (forall l', beside h (l :: ls') (k :: rest) obj l' ->
                         h'' !! l' = h !! l') ->
             forall (k0 : string) (v : value) (l' : loc),
               k0 <> k -> o !! k0 = Some v -> reach h v l' ->
               h'' !! l' = h !! l').
  { intros ls' h'' Hag k0 v l' Hne Hv Hr. apply Hag. exists v. split; [|exact Hr].
    left. exists 0, l, o, k0. simpl. repeat split; auto. congruence. }
  exists h'. rewrite Hrun.
  destruct rest as [|k2 rest].
  - (* the last segment *)
    injection Hs as <-.
    exists (Tree.TObj (<[k := Tree.objectAssign L]> m)).
    split; [reflexivity|]. split; [reflexivity|].
    intros h'' Hag' Hag.
    rewrite insertAt_last in Hrun. cbn [assign] in Hrun.
    rewrite lookup_app_l, Ho in Hrun by exact Hl. cbn [bind] in Hrun.
    injection Hrun as <-.
    rewrite length_insert, length_app in Hag', Hnew. simpl in Hag', Hnew.
    eapply (represents_node h h'' l o m k (VRef (length h))).
    + rewrite Hag' by (try lia; left; now left).
      apply list_lookup_insert_eq. rewrite length_app. lia.
    + exact Hrel.
    + now apply (Hsib []).
    + exists (S nL). exists (ownProperties h obj). split.
      * rewrite Hag' by (try lia; now right).
        rewrite list_lookup_insert_ne by lia.
        rewrite lookup_app_r by lia. now rewrite Nat.sub_diag.
      * intros k0. specialize (Hleaf k0).
        destruct (ownProperties h obj !! k0) as [v|] eqn:Hv,
                 (Tree.ownProperties L !! k0); try tauto.
        eapply repN_frame; [|exact Hleaf].
        intros l' Hr. apply Hag. exists v. split; [|exact Hr].
        right. now exists k0.
  - destruct (o !! k) as [child|] eqn:Hk.
    + (* through an existing child *)
      destruct (spine h child (k2 :: rest)) as [ls'|] eqn:Hs'; [|discriminate].
      injection Hs as <-. apply NoDup_cons in Hnd as [Hnot Hnd].
      pose proof (Hrel k) as Hchild. rewrite Hk in Hchild.
      destruct (m !! k) as [tchild|] eqn:Hmk; [|destruct Hchild].
      destruct (IH h child tchild ls' n' ltac:(discriminate) Hc Hobj Hs' Hnd
                   Hchild Hleaf) as (h2 & T2 & Hrun2 & Htree2 & Hpost2).
      destruct (insertAt_merged (k2 :: rest) obj h child ls'
                  ltac:(discriminate) Hs' Hnd)
        as (h2' & c2 & Hrun2' & [Hnew2 _ Hothers2 _ _]).
      rewrite Hrun2 in Hrun2'. injection Hrun2' as <-.
      assert (Ho2 : h2 !! l = Some o) by (rewrite Hothers2; auto).
      rewrite insertAt_inner in Hrun. cbn [deref] in Hrun.
      rewrite Ho in Hrun. cbn [bind] in Hrun.
      rewrite Hk, Hrun2 in Hrun. cbn [bind assign] in Hrun.
      rewrite Ho2 in Hrun. cbn [bind] in Hrun. injection Hrun as <-.
      exists (Tree.TObj (<[k := T2]> m)). split; [reflexivity|]. split.
      { rewrite TreeFacts.insertAt_cons. cbn [Tree.fieldsOf bind].
        unfold Tree.below, Tree.childOrEmpty. rewrite Hmk. cbn [default id].
        now rewrite Htree2. }
      intros h'' Hag' Hag. rewrite length_insert in Hag'.
      eapply (represents_node h h'' l o m k child).
      * rewrite Hag' by (try lia; left; now left).
        apply list_lookup_insert_eq. lia.
      * exact Hrel.
      * now apply (Hsib ls').
      * apply Hpost2.
        -- intros l' Hl' Hin. rewrite Hag'; [|exact Hl'|].
           ++ apply list_lookup_insert_ne. intros <-.
              destruct Hin as [Hin|Hin]; [now apply Hnot|lia].
           ++ destruct Hin as [Hin|Hin]; [left; now right|now right].
        -- intros l' Hap. apply Hag. now apply beside_tail.
    + (* through a new object *)
      injection Hs as <-.
      pose proof (Hrel k) as Hnone. rewrite Hk in Hnone.
      destruct (m !! k) as [tchild|] eqn:Hmk; [destruct Hnone|].
      assert (Hs1 : spine (h ++ [∅]) (VRef (length h)) (k2 :: rest)
                    = Some [length h]).
      { cbn [spine]. rewrite lookup_app_r by lia. rewrite Nat.sub_diag.
        cbn [lookup list_lookup]. rewrite lookup_empty.
        now destruct rest. }
      assert (Hc1 : closed (h ++ [∅])) by now apply closed_grow_empty.
      assert (Hobj1 : inStore (h ++ [∅]) obj).
      { destruct obj; simpl in *; auto. rewrite length_app. simpl. lia. }
      assert (Hfield : forall v l', leafField h obj v -> reach h v l' ->
                                    l' < length h).
      { intros v l' Hf Hr.
        apply (reach_closed h v l' Hc); [|exact Hr].
        eapply leafField_inStore; eauto. }
      assert (Hleaf1 : leafRel nL (h ++ [∅]) obj L).
      { eapply leafRel_frame; [| |exact Hleaf].
        - intros v l' Hf Hr. apply lookup_app_l. eauto.
        - now apply ownProperties_grow. }
      assert (Hrep1 : repN 1 (h ++ [∅]) (VRef (length h)) Tree.emptyObject).
      { exists ∅. split.
        - rewrite lookup_app_r by lia. now rewrite Nat.sub_diag.
        - intros k0. now rewrite !lookup_empty. }
      destruct (IH (h ++ [∅]) (VRef (length h)) Tree.emptyObject [length h] 1
                   ltac:(discriminate) Hc1 Hobj1 Hs1 (NoDup_singleton _)
                   Hrep1 Hleaf1) as (h2 & T2 & Hrun2 & Htree2 & Hpost2).
      destruct (insertAt_merged (k2 :: rest) obj (h ++ [∅]) (VRef (length h))
                  [length h] ltac:(discriminate) Hs1 (NoDup_singleton _))
        as (h2' & c2 & Hrun2' & [Hnew2 _ Hothers2 _ _]).
      rewrite Hrun2 in Hrun2'. injection Hrun2' as <-.
      rewrite length_app in Hnew2, Hothers2, Hpost2.
      simpl in Hnew2, Hothers2, Hpost2.
      assert (Hkeep : forall l', l' < length h -> h2 !! l' = h !! l').
      { intros l' Hl'. rewrite Hothers2.
        - now apply lookup_app_l.
        - lia.
        - intros Hin. apply list_elem_of_singleton in Hin. lia. }
      assert (Ho2 : h2 !! l = Some o) by (rewrite Hkeep; auto).
      rewrite insertAt_inner in Hrun. cbn [deref] in Hrun.
      rewrite Ho in Hrun. cbn [bind] in Hrun.
      rewrite Hk in Hrun. cbn [alloc] in Hrun. rewrite Hrun2 in Hrun.
      cbn [bind assign] in Hrun.
      rewrite Ho2 in Hrun. cbn [bind] in Hrun. injection Hrun as <-.
      exists (Tree.TObj (<[k := T2]> m)). split; [reflexivity|]. split.
      { rewrite TreeFacts.insertAt_cons. cbn [Tree.fieldsOf bind].
        unfold Tree.below, Tree.childOrEmpty. rewrite Hmk. cbn [default id].
        now rewrite Htree2. }
      intros h'' Hag' Hag. rewrite length_insert in Hag'.
      eapply (represents_node h h'' l o m k (VRef (length h))).
      * rewrite Hag' by (try lia; left; now left).
        apply list_lookup_insert_eq. lia.
      * exact Hrel.
      * now apply (Hsib []).
      * apply Hpost2.
        -- intros l' Hl' Hin.
           assert (length h <= l').
           { destruct Hin as [Hin|Hin]; [|lia].
             apply list_elem_of_singleton in Hin. lia. }
           rewrite Hag'; [|exact Hl'|now right].
           apply list_lookup_insert_ne. lia.
        -- intros l' (v & [Hoff|Hf] & Hr).
           ++ destruct Hoff as (j & l0 & o0 & k0 & Hj & Ho0 & _ & Hv).
              destruct j as [|j]; [|discriminate]. injection Hj as <-.
              rewrite lookup_app_r in Ho0 by lia.
              rewrite Nat.sub_diag in Ho0. injection Ho0 as <-.
              rewrite lookup_empty in Hv. discriminate.
           ++ destruct Hf as [k0 Hk0].
              rewrite ownProperties_grow in Hk0 by exact Hobj.
              assert (Hfv : leafField h obj v) by now exists k0.
              assert (Hr' : reach h v l').
              { eapply reach_grow; eauto. eapply leafField_inStore; eauto. }
              rewrite lookup_app_l by eauto.
              apply Hag. exists v. split; [now right|exact Hr'].
Qed.

Lemma charFields_related (n : nat) (h : store) (s : string) :
  forall i k,
    match (list_to_map (charFields i s) : gmap string value) !! k,
          (list_to_map (Tree.charFields i s) : gmap string Tree.tree) !! k with
    | Some v, Some t => repN n h v t
    | None, None => True
    | _, _ => False
    end.
Proof.
  induction s as [|a s IH]; intros i k; simpl.
  - now rewrite !lookup_empty.
  - rewrite !lookup_insert. case_decide; [|apply IH].
    destruct n; reflexivity.
Qed.

Lemma represents_leafRel (n : nat) (h : store) (obj : value) (L : Tree.tree) :
  repN n h obj L -> leafRel n h obj L.
Proof.
  intros H k.
  destruct obj as [ | | | | s | l], L as [ | | | | s' | m];
    try (destruct n; simpl in H; tauto);
    try (simpl; now rewrite !lookup_empty).
  - assert (s = s') as <- by (destruct n; exact H).
    apply charFields_related.
  - destruct n as [|n']; [destruct H|].
    destruct H as (o & Ho & Hk).
    cbn [ownProperties Tree.ownProperties]. rewrite Ho. cbn [default id].
    specialize (Hk k). destruct (o !! k), (m !! k); try tauto.
    apply (repN_mono n' (S n')); [lia|exact Hk].
Qed.

(** X14.  The merge in place refines the merge on tree values.  Along a
    path of own names, in a closed store, when the objects along the path
    are distinct and none of them is reached from a value off the path or
    from a field of the leaf (as in a tree read from a file and a leaf held
    apart from it), the merge in place at the value that stands for [T], of
    the leaf that stands for [L] and has no own property [__proto__],
    succeeds, the merge of [L] into [T] succeeds, and the value, which is
    the reference the merge was given, stands for its result. *)
Theorem store_refines_tree (h : store) (r : loc) (p : list string)
        (obj : value) (T L : Tree.tree) (ls : list loc) :
  p <> [] -> ownNames p = true -> ownCopy h obj = true ->
  closed h -> inStore h obj ->
  spine h (VRef r) p = Some ls -> NoDup ls ->
  represents h (VRef r) T -> represents h obj L ->
  (forall l, l ∈ ls -> ~ beside h ls p obj l) ->
  exists h' T',
    recursiveAdd p 0 (VRef r) obj h = Ok (VRef r, h') /\
    Tree.recursiveAdd p 0 T L = Ok T' /\
    represents h' (VRef r) T'.
Proof.
  intros Hp _ _ Hc Hobj Hs Hnd [n HT] [nL HL] Hsep.
  destruct (insertAt_represents p obj L nL h (VRef r) T ls n Hp Hc Hobj Hs Hnd
              HT (represents_leafRel _ _ _ _ HL))
    as (h' & T' & Hrun & Htree & Hpost).
  destruct (insertAt_merged p obj h (VRef r) ls Hp Hs Hnd)
    as (h2 & c & Hrun2 & [_ _ Hothers _ _]).
  rewrite Hrun in Hrun2. injection Hrun2 as <-.
  exists h', T'. rewrite store_recursiveAdd_insertAt, TreeFacts.recursiveAdd_insertAt.
  split; [exact Hrun|]. split; [exact Htree|].
  apply Hpost; [reflexivity|].
  intros l' Hap. apply Hothers.
  - destruct Hap as (v & Hv & Hr).
    apply (reach_closed h v l' Hc); [|exact Hr].
    destruct Hv as [(j & l0 & o & k & _ & Ho & _ & Hk)|Hf].
    + eapply closed_field; eauto.
    + eapply leafField_inStore; eauto.
  - intros Hin. now apply (Hsep l').
Qed.


End AbstractionFacts.

(** * The merge is in place and copies its leaf *)

Module MergeFacts.
Import Store StoreFacts Segments.

(** C7.  On a tree whose objects along the path, a path of own names, are
    distinct, the merge returns the reference it was given; in each object
    along the path every key other than the segment of the path at that
    level holds the value it held, and no other object of the store is
    written.  On tree values: at each level of the path the subtree under
    any other key is unchanged. *)
Theorem recursiveAdd_in_place (h : store) (r : loc) (p : list string)
        (obj : value) (ls : list loc) (t t' leaf : Tree.tree) :
  p <> [] ->
  ownNames p = true ->
  ownCopy h obj = true -> Tree.ownCopy leaf = true ->
  spine h (VRef r) p = Some ls ->
  NoDup ls ->
  Tree.recursiveAdd p 0 t leaf = Ok t' ->
  (exists h',
     recursiveAdd p 0 (VRef r) obj h = Ok (VRef r, h') /\
     (forall j l o, ls !! j = Some l -> h !! l = Some o ->
        exists o', h' !! l = Some o' /\
                   forall k, p !! j <> Some k -> o' !! k = o !! k) /\
     (forall l, l < length h -> l ∉ ls -> h' !! l = h !! l)) /\
  (forall j k, j < length p -> p !! j <> Some k ->
     Tree.descend t' (take j p ++ [k]) = Tree.descend t (take j p ++ [k])).
Proof.
  intros Hp _ _ _ Hs Hnd Ht. split.
  - destruct (insertAt_merged p obj h (VRef r) ls Hp Hs Hnd)
      as (h' & c & Hrun & [_ _ Hothers Hlevels _]).
    exists h'. rewrite store_recursiveAdd_insertAt. auto.
  - intros j k Hj Hk. rewrite TreeFacts.recursiveAdd_insertAt in Ht.
    eapply TreeFacts.insertAt_frame; eauto.
Qed.

Lemma recursiveAdd_in_place_witness :
  (exists h',
     recursiveAdd ["api"; "B"] 0 (VRef 0) (VRef 4) sampleStore = Ok (VRef 0, h') /\
     (forall j l o, [0; 1] !! j = Some l -> sampleStore !! l = Some o ->
        exists o', h' !! l = Some o' /\
                   forall k, ["api"; "B"] !! j <> Some k -> o' !! k = o !! k) /\
     (forall l, l < length sampleStore -> l ∉ [0; 1] ->
                h' !! l = sampleStore !! l)) /\
  (forall j k, j < length ["api"; "B"] -> ["api"; "B"] !! j <> Some k ->
     Tree.descend (Tree.TObj {[ "api" := Tree.TObj {[ "B" := Tree.sampleLeaf ]} ]})
                  (take j ["api"; "B"] ++ [k]) =
     Tree.descend Tree.emptyObject (take j ["api"; "B"] ++ [k])).
Proof.
  apply (recursiveAdd_in_place sampleStore 0 ["api"; "B"] (VRef 4) [0; 1]
           Tree.emptyObject
           (Tree.TObj {[ "api" := Tree.TObj {[ "B" := Tree.sampleLeaf ]} ]})
           Tree.sampleLeaf).
  - discriminate.
  - reflexivity.
  - vm_compute. reflexivity.
  - vm_compute. reflexivity.
  - reflexivity.
  - apply NoDup_cons. split; [|apply NoDup_singleton].
    intros Hin. apply list_elem_of_singleton in Hin. discriminate Hin.
  - vm_compute. reflexivity.
Defined.

(** C8.  What the merge, along a path of own names, stores under the last
    key of the path is a new object, not the leaf object, with the fields
    the leaf had (none of them named [__proto__]); whatever is done to the
    fields of the leaf object afterwards, the stored object keeps those
    fields, and (the leaf being no object of the path) the path still leads
    to it. *)
Theorem recursiveAdd_copies_leaf (h : store) (r : loc) (p : list string)
        (leaf : loc) (fields : object) (ls : list loc) :
  p <> [] ->
  ownNames p = true ->
  spine h (VRef r) p = Some ls ->
  NoDup ls ->
  h !! leaf = Some fields ->
  fields !! "__proto__" = None ->
  exists h' c,
    recursiveAdd p 0 (VRef r) (VRef leaf) h = Ok (VRef r, h') /\
    lookupPath h' (VRef r) p = Some (VRef c) /\
    c <> leaf /\ length h <= c /\
    h' !! c = Some fields /\
    (forall fields', (<[leaf := fields']> h') !! c = Some fields) /\
    (forall fields', leaf ∉ ls ->
       lookupPath (<[leaf := fields']> h') (VRef r) p = Some (VRef c)).
Proof.
  intros Hp _ Hs Hnd Hleaf _.
  assert (Hl : leaf < length h) by (eapply lookup_lt_Some; eauto).
  destruct (insertAt_merged p (VRef leaf) h (VRef r) ls Hp Hs Hnd)
    as (h' & c & Hrun & [Hnew Hcopy _ _ Hpath]).
  assert (Hc : h' !! c = Some fields).
  { rewrite Hcopy by exact Hl. simpl. now rewrite Hleaf. }
  exists h', c. rewrite store_recursiveAdd_insertAt.
  split; [exact Hrun|]. split; [now apply Hpath|].
  split; [lia|]. split; [lia|]. split; [exact Hc|]. split.
  - intros fields'. rewrite list_lookup_insert_ne by lia. exact Hc.
  - intros fields' Hnot. apply Hpath. intros l Hlt Hin.
    apply list_lookup_insert_ne. intros <-.
    destruct Hin as [Hin|Hin]; [now apply Hnot|lia].
Qed.

Lemma recursiveAdd_copies_leaf_witness :
  exists h' c,
    recursiveAdd ["api"; "B"] 0 (VRef 0) (VRef 4) sampleStore = Ok (VRef 0, h') /\
    lookupPath h' (VRef 0) ["api"; "B"] = Some (VRef c) /\
    c <> 4 /\ length sampleStore <= c /\
    h' !! c = Some {[ "__compat" := VRef 5 ]} /\
    (forall fields', (<[4 := fields']> h') !! c = Some {[ "__compat" := VRef 5 ]}) /\
    (forall fields', 4 ∉ [0; 1] ->
       lookupPath (<[4 := fields']> h') (VRef 0) ["api"; "B"] = Some (VRef c)).
Proof.
  apply (recursiveAdd_copies_leaf sampleStore 0 ["api"; "B"] 4
           {[ "__compat" := VRef 5 ]} [0; 1]).
  - discriminate.
  - reflexivity.
  - reflexivity.
  - apply NoDup_cons. split; [|apply NoDup_singleton].
    intros Hin. apply list_elem_of_singleton in Hin. discriminate Hin.
  - reflexivity.
  - vm_compute. reflexivity.
Defined.

End MergeFacts.

(** * Further properties of the path resolver *)

Module ResolverLaws.
Import JsString Resolver ResolverFacts Segments.

(** X1.  A [css], [html], [svg] or [mathml] path of three or more
    segments resolves to its first three segments,
    [<area>/<segment2>/<segment3>.json], whatever follows them; the second
    and third segments being such that [path.join] leaves them as they
    are. *)
Theorem getFilePath_css_family (ns : list string) (area s2 s3 : string)
        (rest : list string) :
  includes ["css"; "html"; "svg"; "mathml"] area = true ->
  plain s2 = true -> lacks "/" s3 = true ->
  getFilePath ns (area :: s2 :: s3 :: rest) =
    Ok (area +:+ "/" +:+ s2 +:+ "/" +:+ s3 +:+ ".json").
Proof.
  intros H _ _. unfold getFilePath, at_. cbn [length nth Nat.leb andb].
  assert (Hapi : (area =? "api")%string = false).
  { destruct (area =? "api")%string eqn:E; [|reflexivity].
    apply String.eqb_eq in E. subst. discriminate H. }
  rewrite Hapi, H. reflexivity.
Qed.

(** X2.  A [webassembly] path of two or more segments resolves to
    [webassembly/<segment2>.json], whatever follows the second segment, a
    segment without a separator. *)
Theorem getFilePath_webassembly (ns : list string) (s2 : string)
        (rest : list string) :
  lacks "/" s2 = true ->
  getFilePath ns ("webassembly" :: s2 :: rest) =
    Ok ("webassembly/" +:+ s2 +:+ ".json").
Proof.
  intros _. unfold getFilePath, at_. cbn [length nth Nat.leb andb].
  change ("webassembly" =? "api")%string with false.
  change (includes ["css"; "html"; "svg"; "mathml"] "webassembly") with false.
  change ("webassembly" =? "javascript")%string with false.
  change ("webassembly" =? "webassembly")%string with true.
  rewrite !andb_false_r. cbn [andb]. reflexivity.
Qed.

Lemma getFilePath_css_family_witness :
  getFilePath [] ["mathml"; "elements"; "mfrac"; "linethickness"] =
    Ok "mathml/elements/mfrac.json".
Proof.
  apply (getFilePath_css_family [] "mathml" "elements" "mfrac"); reflexivity.
Defined.

Lemma getFilePath_webassembly_witness :
  getFilePath [] ["webassembly"; "multiMemory"; "x"] =
    Ok "webassembly/multiMemory.json".
Proof. apply (getFilePath_webassembly [] "multiMemory" ["x"]). reflexivity. Defined.

Lemma length_append (s t : string) :
  String.length (s +:+ t) = String.length s + String.length t.
Proof.
  induction s as [|c s IH]; [reflexivity|].
  change (String.length (String c (s +:+ t)) =
          S (String.length s) + String.length t).
  cbn [String.length]. now rewrite IH.
Qed.

Lemma append_assoc (s t u : string) : (s +:+ t) +:+ u = s +:+ t +:+ u.
Proof.
  induction s as [|c s IH]; [reflexivity|].
  change (String c ((s +:+ t) +:+ u) = String c (s +:+ t +:+ u)).
  now rewrite IH.
Qed.

Lemma append_inj_r (t s1 : string) :
  forall s2, s1 +:+ t = s2 +:+ t -> s1 = s2.
Proof.
  induction s1 as [|c s1 IH]; intros [|c2 s2] H; try reflexivity.
  - apply (f_equal String.length) in H.
    change (String.length t = String.length (String c2 (s2 +:+ t))) in H.
    cbn [String.length] in H. rewrite length_append in H. lia.
  - apply (f_equal String.length) in H.
    change (String.length (String c (s1 +:+ t)) = String.length t) in H.
    cbn [String.length] in H. rewrite length_append in H. lia.
  - change (String c (s1 +:+ t) = String c2 (s2 +:+ t)) in H.
    injection H as -> H. f_equal. now apply IH.
Qed.

Lemma finish_suffix (parts : list string) :
  parts <> [] ->
  exists stem, path_join (addJsonSuffix parts) = stem +:+ ".json".
Proof.
  induction parts as [|x [|y r] IH]; intros H; [congruence|now exists x|].
  destruct IH as [stem Hs]; [discriminate|].
  exists (x +:+ "/" +:+ stem).
  change (path_join (addJsonSuffix (x :: y :: r)))
    with (join "/" (x :: addJsonSuffix (y :: r))).
  assert (Hne : addJsonSuffix (y :: r) <> []) by (destruct r; discriminate).
  unfold path_join in Hs.
  destruct (addJsonSuffix (y :: r)) as [|z zs] eqn:E; [congruence|].
  change (join "/" (x :: z :: zs)) with (x +:+ "/" +:+ join "/" (z :: zs)).
  rewrite Hs. now rewrite !append_assoc.
Qed.

(** Case analysis on the guards and the case tests of the resolver. *)
Ltac resolver_cases :=
  unfold getFilePath, at_; cbn [length nth Nat.leb andb];
  repeat match goal with
         | |- context [bind ?r _] =>
             let E := fresh "E" in destruct r as [[]|] eqn:E; cbn [bind]
         | |- context [if ?g then _ else _] =>
             let E := fresh "E" in destruct g eqn:E
         end.

Lemma startsWithLowerCase_throws (s : string) (e : exn) :
  startsWithLowerCase s = Throw e -> s = "".
Proof. destruct s; [reflexivity|discriminate]. Qed.

Lemma startsWithUpperCase_throws (s : string) (e : exn) :
  startsWithUpperCase s = Throw e -> s = "".
Proof. destruct s; [reflexivity|discriminate]. Qed.

Lemma finish_ok_suffix (parts : list string) (f : string) :
  parts <> [] -> finish parts = Ok f -> exists stem, f = stem +:+ ".json".
Proof.
  intros Hne H. unfold finish in H. injection H as <-.
  now apply finish_suffix.
Qed.

(** X3.  Every path the resolver returns ends in [.json]. *)
Theorem getFilePath_json_suffix (ns : list string) (ident : list string)
        (f : string) :
  getFilePath ns ident = Ok f -> exists stem, f = stem +:+ ".json".
Proof.
  destruct ident as [|a [|b [|c [|d rest]]]]; resolver_cases;
    try discriminate;
    try (intros [= <-]; now exists "javascript/builtins/globals");
    cbn [truncate firstn]; intros H;
    (eapply finish_ok_suffix; [|exact H]); discriminate.
Qed.

(** X4.  Features below a feature go to the file of that feature: when an
    identifier resolves to a file, every identifier that extends it resolves
    to the same file; for a [javascript] identifier, once it has four
    segments. *)
Theorem getFilePath_extension (ns : list string) (ident more : list string)
        (f : string) :
  getFilePath ns ident = Ok f ->
  (nth 0 ident "" = "javascript" -> 4 <= length ident) ->
  getFilePath ns (ident ++ more) = Ok f.
Proof.
  intros H Hjs.
  assert (Hjs' : (nth 0 ident "" =? "javascript")%string = true ->
                 4 <= length ident).
  { intros E. apply Hjs. now apply String.eqb_eq. }
  clear Hjs.
  destruct ident as [|a [|b [|c [|d rest]]]]; cbn [app nth length] in *;
    revert H; unfold getFilePath, at_; cbn [length nth Nat.leb andb].
  - discriminate.
  - discriminate.
  - destruct (a =? "api")%string eqn:Ea; [intros H; exact H|].
    destruct (a =? "webassembly")%string eqn:Ew; [|discriminate].
    apply String.eqb_eq in Ew. subst a.
    destruct more; cbn [length Nat.leb andb]; intros H; exact H.
  - destruct (a =? "api")%string eqn:Ea; [intros H; exact H|].
    destruct (includes ["css"; "html"; "svg"; "mathml"] a) eqn:Ec;
      [intros H; exact H|].
    destruct (a =? "javascript")%string eqn:Ej.
    { specialize (Hjs' eq_refl). lia. }
    cbn [andb].
    destruct (a =? "webassembly")%string; [intros H; exact H|discriminate].
  - destruct (a =? "api")%string eqn:Ea; [intros H; exact H|].
    destruct (includes ["css"; "html"; "svg"; "mathml"] a) eqn:Ec;
      [intros H; exact H|].
    destruct ((a =? "javascript")%string && (b =? "builtins")%string);
      [intros H; exact H|].
    destruct (a =? "webassembly")%string; [intros H; exact H|discriminate].
Qed.

(** X5.  On an identifier without an empty segment the resolver returns a
    path exactly when one of the four area rules applies. *)
Theorem getFilePath_returns_iff (ns : list string) (ident : list string) :
  Forall (fun s => s <> "") ident ->
  (exists f, getFilePath ns ident = Ok f) <-> areaRule ident = true.
Proof.
  intros Hne. split.
  - intros [f H]. revert H.
    destruct ident as [|a [|b [|c [|d rest]]]]; resolver_cases;
      try discriminate; intros _; cbn [areaRule];
      repeat match goal with
             | E : ?x = true |- context [?x] => rewrite E
             end;
      cbn [orb andb]; rewrite ?orb_true_r; reflexivity.
  - intros H.
    assert (Hin : forall s, In s ident -> s <> "")
      by (now apply List.Forall_forall).
    revert H.
    destruct ident as [|a [|b [|c [|d rest]]]]; try discriminate;
      resolver_cases;
      repeat match goal with
             | H : (if ?g then _ else _) = _ |- _ => destruct g; try discriminate H
             end;
      repeat match goal with
             | H : startsWithLowerCase _ = Throw _ |- _ =>
                 apply startsWithLowerCase_throws in H; subst
             | H : startsWithUpperCase _ = Throw _ |- _ =>
                 apply startsWithUpperCase_throws in H; subst
             end;
      try (exfalso; eapply Hin; [|reflexivity]; simpl; tauto);
      try (intros _; unfold finish; eauto; fail);
      cbn [areaRule];
      repeat match goal with
             | E : ?x = false |- context [?x] => rewrite E
             end;
      cbn [orb]; discriminate.
Qed.

Lemma getFilePath_returns_iff_witness :
  (exists f, getFilePath [] ["css"; "properties"; "color"] = Ok f) <->
  areaRule ["css"; "properties"; "color"] = true.
Proof.
  apply (getFilePath_returns_iff [] ["css"; "properties"; "color"]).
  repeat constructor; discriminate.
Defined.

Lemma getFilePath_api_cases (ns : list string) (a : string) (ra : list string)
      (f : string) :
  getFilePath ns ("api" :: a :: ra) = Ok f ->
  (startsWithLowerCase a = Ok true /\ f = "api/_globals/" +:+ a +:+ ".json") \/
  (startsWithLowerCase a = Ok false /\ f = "api/" +:+ a +:+ ".json").
Proof.
  unfold getFilePath, at_. cbn [length nth Nat.leb andb].
  change ("api" =? "api")%string with true. cbn iota.
  destruct (startsWithLowerCase a) as [[]|e]; cbn [bind]; try discriminate;
    unfold finish; intros [= <-]; [left|right]; split; reflexivity.
Qed.

(** X6.  Two [api] identifiers that resolve to the same file have the same
    second segment, when that segment has no separator: a file of [api]
    holds one interface, or one global. *)
Theorem getFilePath_api_injective (ns : list string) (a b : string)
        (ra rb : list string) (f : string) :
  lacks "/" a = true -> lacks "/" b = true ->
  getFilePath ns ("api" :: a :: ra) = Ok f ->
  getFilePath ns ("api" :: b :: rb) = Ok f ->
  a = b.
Proof.
  intros _ _ Ha Hb.
  apply getFilePath_api_cases in Ha as [[Ea ->]|[Ea ->]];
    apply getFilePath_api_cases in Hb as [[Eb Hb]|[Eb Hb]].
  - apply (inj (String.app "api/_globals/")) in Hb.
    now apply append_inj_r in Hb.
  - exfalso. destruct b as [|cb sb]; [discriminate Eb|].
    injection Hb as Hc _. subst cb. discriminate Eb.
  - exfalso. destruct a as [|ca sa]; [discriminate Ea|].
    injection Hb as Hc _. subst ca. discriminate Ea.
  - apply (inj (String.app "api/")) in Hb.
    now apply append_inj_r in Hb.
Qed.
Lemma startsWith_TypeError (s : string) (e : exn) :
  (startsWithLowerCase s = Throw e -> e = TypeError) /\
  (startsWithUpperCase s = Throw e -> e = TypeError).
Proof. destruct s; split; intros H; try discriminate H; now injection H. Qed.

Lemma getFilePath_throws (ns : list string) (ident : list string) (e : exn) :
  getFilePath ns ident = Throw e ->
  e = TypeError \/
  e = Error ("Cannot determine file path from BCD path: " +:+ join "." ident).
Proof.
  unfold getFilePath, finish.
  repeat match goal with
         | |- context [bind ?r _] =>
             let E := fresh "E" in destruct r as [[]|] eqn:E; cbn [bind]
         | |- context [if ?g then _ else _] => destruct g
         end;
    intros H; try discriminate H; injection H as H; subst;
    try (right; reflexivity); left;
    repeat match goal with
           | H : (if ?g then _ else _) = Throw _ |- _ =>
               destruct g; try discriminate H
           end;
    match goal with
    | H : startsWithLowerCase ?s = Throw ?e |- _ =>
        exact (proj1 (startsWith_TypeError s e) H)
    | H : startsWithUpperCase ?s = Throw ?e |- _ =>
        exact (proj2 (startsWith_TypeError s e) H)
    end.
Qed.

(** X7.  The resolver throws in two ways only: a [TypeError], on an
    identifier that meets an area rule and has an empty segment, and the
    [Error] whose message ends with the segments joined by dots, on an
    identifier that meets no area rule. *)
Theorem getFilePath_errors (ns : list string) (ident : list string) (e : exn) :
  getFilePath ns ident = Throw e ->
  (e = TypeError /\ In "" ident /\ areaRule ident = true) \/
  (e = Error ("Cannot determine file path from BCD path: " +:+ join "." ident) /\
   areaRule ident = false).
Proof.
  intros H. destruct (getFilePath_throws ns ident e H) as [-> | ->].
  - left. split; [reflexivity|]. revert H.
    destruct ident as [|a [|b [|c [|d rest]]]]; resolver_cases;
      try discriminate;
      repeat match goal with
             | H : (if ?g then _ else _) = _ |- _ => destruct g; try discriminate H
             end;
      repeat match goal with
             | H : startsWithLowerCase _ = Throw _ |- _ =>
                 apply startsWithLowerCase_throws in H; subst
             | H : startsWithUpperCase _ = Throw _ |- _ =>
                 apply startsWithUpperCase_throws in H; subst
             end;
      intros _; (split; [simpl; tauto|]); cbn [areaRule];
      repeat match goal with
             | E : ?x = true |- context [?x] => rewrite E
             end;
      cbn [orb andb]; rewrite ?orb_true_r; reflexivity.
  - right. split; [reflexivity|]. revert H.
    destruct ident as [|a [|b [|c [|d rest]]]]; try reflexivity;
      resolver_cases; try discriminate;
      repeat match goal with
             | H : (if ?g then _ else _) = Throw _ |- _ =>
                 destruct g; try discriminate H
             end;
      try match goal with
          | H : startsWithLowerCase ?s = Throw ?e |- _ =>
              rewrite (proj1 (startsWith_TypeError s e) H); discriminate
          | H : startsWithUpperCase ?s = Throw ?e |- _ =>
              rewrite (proj2 (startsWith_TypeError s e) H); discriminate
          end;
      intros _; cbn [areaRule];
      repeat match goal with
             | E : ?x = false |- context [?x] => rewrite E
             end;
      cbn [orb andb]; reflexivity.
Qed.

Lemma getFilePath_errors_witness :
  (TypeError = TypeError /\ In "" ["api"; ""; "x"] /\
   areaRule ["api"; ""; "x"] = true) \/
  (TypeError =
     Error ("Cannot determine file path from BCD path: " +:+
            join "." ["api"; ""; "x"]) /\
   areaRule ["api"; ""; "x"] = false).
Proof. apply (getFilePath_errors [] ["api"; ""; "x"]). reflexivity. Defined.

Lemma getFilePath_extension_witness :
  getFilePath [] (["javascript"; "builtins"; "Array"; "from"] ++ ["length"]) =
  Ok "javascript/builtins/Array.json".
Proof.
  apply (getFilePath_extension [] ["javascript"; "builtins"; "Array"; "from"]
           ["length"] "javascript/builtins/Array.json").
  - reflexivity.
  - intros _. simpl. lia.
Defined.

Lemma getFilePath_api_injective_witness :
  getFilePath [] ["api"; "Foo"; "a"] = Ok "api/Foo.json" /\
  getFilePath [] ["api"; "Foo"; "b"; "c"] = Ok "api/Foo.json" /\
  "Foo" = "Foo".
Proof.
  split; [reflexivity|]. split; [reflexivity|].
  apply (getFilePath_api_injective [] "Foo" "Foo" ["a"] ["b"; "c"]
           "api/Foo.json"); reflexivity.
Defined.

Lemma getFilePath_json_suffix_witness :
  exists stem, "api/_globals/fetch.json" = stem +:+ ".json".
Proof.
  apply (getFilePath_json_suffix [] ["api"; "fetch"] "api/_globals/fetch.json").
  reflexivity.
Defined.

End ResolverLaws.

(** * The walk on any document *)

Module WalkLaws.
Import Json JsonFacts.

Lemma some_any (xs : list json) :
  some statementSupports xs = Ok (existsb addedNotRemoved xs) \/
  some statementSupports xs = Throw TypeError.
Proof.
  induction xs as [|x xs IH]; simpl; [now left|].
  destruct x; simpl; try (now right); try exact IH.
  unfold addedNotRemoved. cbn [member].
  destruct (truthy (assoc "version_added" members) &&
            negb (truthy (assoc "version_removed" members))); simpl; auto.
Qed.

Section Any.

Context {World : Type}.
Variable writeFile : list string -> json -> World -> result World.

Lemma forStatements_any (environments : list json) (thisIdent : list string)
      (node : json) (w : World) :
  forStatements writeFile environments thisIdent node w =
    (if existsb environmentCounts environments then writeFile thisIdent node w
     else Ok w) \/
  forStatements writeFile environments thisIdent node w = Throw TypeError.
Proof.
  induction environments as [|e es IH]; simpl; [now left|].
  unfold supported, environmentCounts at 1.
  destruct (some_any (statementList e)) as [-> | ->]; simpl; [|now right].
  destruct (existsb addedNotRemoved (statementList e)); simpl; auto.
Qed.

Lemma examine_any (thisIdent : list string) (node : json) (w : World) :
  examine writeFile thisIdent node w =
    (if nodeSupported node then writeFile thisIdent node w else Ok w) \/
  examine writeFile thisIdent node w = Throw TypeError.
Proof.
  unfold examine, nodeSupported.
  destruct (supportOf node) as [sup|]; [|now left].
  destruct (truthy (Some sup)); [|now left].
  simpl. apply forStatements_any.
Qed.

Lemma forIn_any (identifier : list string) (ms : list (string * json)) :
  Forall (fun m => forall identifier w,
            traverseFeatures writeFile m.2 identifier w =
              writeAll writeFile (supportedOnly (visited m.2 identifier)) w \/
            traverseFeatures writeFile m.2 identifier w = Throw TypeError) ms ->
  forall w,
    forIn writeFile identifier ms w =
      writeAll writeFile (supportedOnly (visitedIn identifier ms)) w \/
    forIn writeFile identifier ms w = Throw TypeError.
Proof.
  induction 1 as [|[i child] ms Hchild _ IH]; intros w; simpl; [now left|].
  unfold supportedOnly in *. rewrite List.filter_app, writeAll_app.
  unfold iteration.
  change (isObject child && negb (i =? "__compat")%string)
    with (visitable (i, child)).
  destruct (visitable (i, child)) eqn:Hv; [|simpl; apply IH].
  simpl in Hchild. cbn [List.filter snd].
  destruct (examine_any (identifier ++ [i]) child w) as [-> | ->];
    [|now right].
  destruct (nodeSupported child); cbn [writeAll bind].
  - destruct (writeFile (identifier ++ [i]) child w) as [w1|e]; cbn [bind];
      [|now left].
    destruct (Hchild (identifier ++ [i]) w1) as [-> | ->]; [|now right].
    destruct (writeAll writeFile _ w1); cbn [bind]; [apply IH|now left].
  - destruct (Hchild (identifier ++ [i]) w) as [-> | ->]; [|now right].
    destruct (writeAll writeFile _ w); cbn [bind]; [apply IH|now left].
Qed.

Lemma traverseFeatures_any (obj : json) :
  forall identifier w,
    traverseFeatures writeFile obj identifier w =
      writeAll writeFile (supportedOnly (visited obj identifier)) w \/
    traverseFeatures writeFile obj identifier w = Throw TypeError.
Proof.
  induction obj as [ | b | n | s | xs IH | ms IH] using json_nested_ind;
    intros identifier w; try (now left).
  - rewrite traverseFeatures_entries, visited_entries.
    apply forIn_any. apply (Forall_itemsFrom _ xs 0) in IH. exact IH.
  - rewrite traverseFeatures_entries, visited_entries.
    apply forIn_any. exact IH.
Qed.

End Any.

(** The statements of a document decide, for every [writeFile] and every
    world at once, between a walk that is the sequence of its writes and a
    walk that never returns. *)
Lemma forStatements_uniform (environments : list json) :
  (forall World (writeFile : list string -> json -> World -> result World)
          thisIdent node w,
     forStatements writeFile environments thisIdent node w =
       if existsb environmentCounts environments
       then writeFile thisIdent node w else Ok w) \/
  (forall World (writeFile : list string -> json -> World -> result World)
          thisIdent node w,
     forStatements writeFile environments thisIdent node w = Throw TypeError).
Proof.
  induction environments as [|e es IH]; [now left|].
  cbn [forStatements existsb]. unfold supported, environmentCounts at 1.
  destruct (some_any (statementList e)) as [E|E]; rewrite E;
    [|right; reflexivity].
  destruct (existsb addedNotRemoved (statementList e)); cbn [bind orb];
    [left; reflexivity|exact IH].
Qed.

Lemma examine_uniform (node : json) :
  (forall World (writeFile : list string -> json -> World -> result World)
          thisIdent w,
     examine writeFile thisIdent node w =
       if nodeSupported node then writeFile thisIdent node w else Ok w) \/
  (forall World (writeFile : list string -> json -> World -> result World)
          thisIdent w,
     examine writeFile thisIdent node w = Throw TypeError).
Proof.
  unfold examine, nodeSupported.
  destruct (supportOf node) as [sup|]; [|now left].
  destruct (truthy (Some sup)); [|now left].
  cbn [andb].
  destruct (forStatements_uniform (values sup)) as [H|H]; [left|right];
    intros; apply H.
Qed.

Lemma forIn_uniform (ms : list (string * json)) :
  Forall (fun m =>
            forall identifier,
              (forall World
                      (writeFile : list string -> json -> World -> result World)
                      w,
                 traverseFeatures writeFile m.2 identifier w =
                   writeAll writeFile (supportedOnly (visited m.2 identifier)) w) \/
              (forall World
                      (writeFile : list string -> json -> World -> result World)
                      w w1,
                 traverseFeatures writeFile m.2 identifier w <> Ok w1)) ms ->
  forall identifier,
    (forall World (writeFile : list string -> json -> World -> result World) w,
       forIn writeFile identifier ms w =
         writeAll writeFile (supportedOnly (visitedIn identifier ms)) w) \/
    (forall World (writeFile : list string -> json -> World -> result World)
            w w1,
       forIn writeFile identifier ms w <> Ok w1).
Proof.
  induction 1 as [|[i child] ms Hchild _ IH]; intros identifier; [now left|].
  cbn [forIn visitedIn]. unfold iteration.
  change (isObject child && negb (i =? "__compat")%string)
    with (visitable (i, child)).
  destruct (visitable (i, child)) eqn:Hv.
  - simpl in Hchild.
    destruct (examine_uniform child) as [He|He];
      [|right; intros World writeFile w w1; rewrite He; discriminate].
    destruct (Hchild (identifier ++ [i])) as [Hc|Hc].
    + destruct (IH identifier) as [Hr|Hr].
      * left. intros World writeFile w. rewrite He.
        unfold supportedOnly in *. cbn [List.filter app snd].
        rewrite List.filter_app.
        destruct (nodeSupported child); cbn [writeAll bind].
        -- destruct (writeFile (identifier ++ [i]) child w) as [w1|e];
             cbn [bind]; [|reflexivity].
           rewrite Hc, writeAll_app. apply bind_ext; [reflexivity|].
           intros w2. apply Hr.
        -- rewrite Hc, writeAll_app. apply bind_ext; [reflexivity|].
           intros w2. apply Hr.
      * right. intros World writeFile w w1. rewrite He.
        destruct (if nodeSupported child
                  then writeFile (identifier ++ [i]) child w else Ok w)
          as [w2|e]; cbn [bind]; [|discriminate].
        destruct (traverseFeatures writeFile child (identifier ++ [i]) w2)
          as [w3|e]; cbn [bind]; [apply Hr|discriminate].
    + right. intros World writeFile w w1. rewrite He.
      destruct (if nodeSupported child
                then writeFile (identifier ++ [i]) child w else Ok w)
        as [w2|e]; cbn [bind]; [|discriminate].
      destruct (traverseFeatures writeFile child (identifier ++ [i]) w2)
        as [w3|e] eqn:E; cbn [bind]; [|discriminate].
      now apply Hc in E.
  - cbn [bind app]. apply IH.
Qed.

Lemma traverseFeatures_uniform (obj : json) :
  forall identifier,
    (forall World (writeFile : list string -> json -> World -> result World) w,
       traverseFeatures writeFile obj identifier w =
         writeAll writeFile (supportedOnly (visited obj identifier)) w) \/
    (forall World (writeFile : list string -> json -> World -> result World)
            w w1,
       traverseFeatures writeFile obj identifier w <> Ok w1).
Proof.
  induction obj as [ | b | n | s | xs IH | ms IH] using json_nested_ind;
    intros identifier; try (now left).
  - destruct (forIn_uniform (entries (JArr xs))
                (Forall_itemsFrom _ xs 0 IH) identifier) as [H|H];
      [left|right]; intros; rewrite traverseFeatures_entries;
      [rewrite visited_entries|]; apply H.
  - destruct (forIn_uniform (entries (JObj ms)) IH identifier) as [H|H];
      [left|right]; intros; rewrite traverseFeatures_entries;
      [rewrite visited_entries|]; apply H.
Qed.

Lemma writeAll_record (calls : list (list string * json)) (w : Log) :
  writeAll record calls w = Ok (w ++ calls).
Proof.
  revert w. induction calls as [|[thisIdent node] calls IH]; intros w; simpl.
  - now rewrite app_nil_r.
  - rewrite IH. now rewrite <- app_assoc.
Qed.

Lemma descends_keys (obj : json) (ks : list string) (n : json) :
  descends obj ks n ->
  ks <> [] /\ ~ In "__compat" ks /\ isObject n = true.
Proof.
  induction 1 as [obj i child Hin Hv | obj i child ks n Hin Hv _ IH];
    apply andb_true_iff in Hv as [Ho Hk]; simpl in Ho, Hk;
    apply negb_true_iff, String.eqb_neq in Hk.
  - split; [discriminate|]. split; [|exact Ho].
    intros [H|[]]. now apply Hk.
  - destruct IH as (_ & Hno & Hobj). split; [discriminate|].
    split; [|exact Hobj]. intros [H|H]; [now apply Hk|now apply Hno].
Qed.

(** X8.  On any document, with statements of any shape, the walk either
    issues exactly the writes of the supported nodes that [visited] lists,
    in that order and until a write throws, or throws a [TypeError]; with
    writes that are only recorded it throws only when a node of the
    document has a [null] statement. *)
Theorem traverseFeatures_or_TypeError {World : Type}
        (writeFile : list string -> json -> World -> result World)
        (obj : json) (identifier : list string) (w : World) (log : Log) :
  (traverseFeatures writeFile obj identifier w =
     writeAll writeFile (supportedOnly (visited obj identifier)) w \/
   traverseFeatures writeFile obj identifier w = Throw TypeError) /\
  (traverseFeatures record obj identifier log =
     Ok (log ++ supportedOnly (visited obj identifier)) \/
   traverseFeatures record obj identifier log = Throw TypeError /\
   ~ typedBelow obj).
Proof.
  split; [apply traverseFeatures_any|].
  destruct (traverseFeatures_any record obj identifier log) as [H|H].
  - left. now rewrite H, writeAll_record.
  - right. split; [exact H|]. intros Ht.
    rewrite (traverseFeatures_writes record obj identifier log Ht),
      writeAll_record in H.
    discriminate H.
Qed.

(** X9.  Whatever the statements of a document are, a walk that returns
    has written only supported nodes of the document, objects or arrays,
    each under the prefix followed by the keys that lead to it: one key at
    least, and none of them [__compat]. *)
Theorem traverseFeatures_log (obj : json) (identifier : list string)
        (log : Log) :
  traverseFeatures record obj identifier [] = Ok log ->
  Forall (fun call =>
            nodeSupported call.2 = true /\ isObject call.2 = true /\
            exists ks, call.1 = identifier ++ ks /\ ks <> [] /\
                       ~ In "__compat" ks /\ descends obj ks call.2) log.
Proof.
  intros H.
  destruct (traverseFeatures_any record obj identifier []) as [E|E];
    rewrite E in H; [|discriminate H].
  rewrite writeAll_record in H. injection H as <-. simpl.
  apply List.Forall_forall. intros [thisIdent n] Hin.
  unfold supportedOnly in Hin. apply List.filter_In in Hin as [Hin Hs].
  apply visited_sound in Hin as (ks & -> & Hd).
  destruct (descends_keys _ _ _ Hd) as (Hne & Hno & Hobj).
  simpl. split; [exact Hs|]. split; [exact Hobj|]. eauto.
Qed.

Lemma traverseFeatures_log_witness :
  Forall (fun call =>
            nodeSupported call.2 = true /\ isObject call.2 = true /\
            exists ks, call.1 = [] ++ ks /\ ks <> [] /\
                       ~ In "__compat" ks /\
                       descends
                         (JObj [("api",
                                 JObj [("A",
                                        featureWith
                                          (JArr [JObj [("version_added", JStr "1")];
                                                 JNull]))])])
                         ks call.2)
         [(["api"; "A"],
           featureWith (JArr [JObj [("version_added", JStr "1")]; JNull]))].
Proof.
  apply (traverseFeatures_log
           (JObj [("api",
                   JObj [("A",
                          featureWith
                            (JArr [JObj [("version_added", JStr "1")];
                                   JNull]))])]) []).
  reflexivity.
Defined.

End WalkLaws.

(** * Lookups after a merge *)

Module TreeLaws.
Import Tree TreeFacts TreeShape Segments.

Lemma insertAt_unrelated (p : list string) (a : tree) :
  forall t t' r,
    insertAt p t a = Ok t' ->
    ~ p `prefix_of` r -> ~ r `prefix_of` p ->
    descend t' r = descend t r.
Proof.
  induction p as [|k rest IH]; intros t t' r H Hpr Hrp;
    [destruct Hpr; apply prefix_nil|].
  destruct r as [|k' r]; [destruct Hrp; apply prefix_nil|].
  rewrite insertAt_cons in H.
  destruct t as [ | | | | | m]; try discriminate. cbn [fieldsOf bind] in H.
  destruct (below rest (childOrEmpty m k) a) as [sub|e] eqn:Hsub;
    [|discriminate].
  injection H as <-. cbn [descend].
  destruct (decide (k = k')) as [<-|Hne].
  - rewrite lookup_insert_eq.
    apply not_prefix_cons in Hpr, Hrp.
    destruct rest as [|k1 rest]; [destruct Hpr; apply prefix_nil|].
    unfold below in Hsub. rewrite (IH _ _ r Hsub Hpr Hrp).
    unfold childOrEmpty. destruct (m !! k) as [c|]; [reflexivity|].
    cbn [default]. apply descend_emptyObject.
    intros ->. apply Hrp, prefix_nil.
  - now rewrite lookup_insert_ne.
Qed.

Lemma insertAt_ancestors (p : list string) (a : tree) (t t' : tree)
      (r : list string) :
  p <> [] -> insertAt p t a = Ok t' ->
  r `prefix_of` p -> r <> p ->
  exists m, descend t' r = Some (TObj m).
Proof.
  intros Hp H [s ->] Hne.
  assert (Hd := insertAt_descend _ a t t' Hp H).
  rewrite descend_app in Hd.
  destruct (descend t' r) as [x|] eqn:Hx; [|discriminate].
  destruct s as [|k s]; [rewrite app_nil_r in Hne; congruence|].
  cbn [descend] in Hd. destruct x; try discriminate. eauto.
Qed.

Lemma insertAt_below (p : list string) (a : tree) (t t' : tree)
      (s : list string) :
  p <> [] -> insertAt p t a = Ok t' ->
  descend t' (p ++ s) = descend (objectAssign a) s.
Proof.
  intros Hp H. rewrite descend_app.
  now rewrite (insertAt_descend p a t t' Hp H).
Qed.

(** X10.  After a merge of [a] at the path [p], a path of own names, into
    [t]: below [p] the tree is the copy of [a], and what [t] had there is
    gone; every path that neither extends [p] nor leads to it holds what it
    held in [t]; and every proper prefix of [p] leads to an object. *)
Theorem recursiveAdd_lookup (t t' : tree) (p : list string) (a : tree) :
  p <> [] ->
  ownNames p = true -> ownCopy a = true ->
  recursiveAdd p 0 t a = Ok t' ->
  (forall s, descend t' (p ++ s) = descend (objectAssign a) s) /\
  (forall r, ~ p `prefix_of` r -> ~ r `prefix_of` p ->
             descend t' r = descend t r) /\
  (forall r, r `prefix_of` p -> r <> p ->
             exists m, descend t' r = Some (TObj m)).
Proof.
  intros Hp _ _ H. rewrite recursiveAdd_insertAt in H.
  split; [|split].
  - intros s. now apply (insertAt_below p a t).
  - intros r. now apply (insertAt_unrelated p a).
  - intros r. now apply (insertAt_ancestors p a t).
Qed.

Lemma recursiveAdd_lookup_witness :
  (forall s,
     descend (TObj {[ "api" := TObj {[ "Foo" := sampleLeaf ]} ]})
             (["api"; "Foo"] ++ s) = descend (objectAssign sampleLeaf) s) /\
  (forall r, ~ ["api"; "Foo"] `prefix_of` r -> ~ r `prefix_of` ["api"; "Foo"] ->
             descend (TObj {[ "api" := TObj {[ "Foo" := sampleLeaf ]} ]}) r =
             descend emptyObject r) /\
  (forall r, r `prefix_of` ["api"; "Foo"] -> r <> ["api"; "Foo"] ->
             exists m,
               descend (TObj {[ "api" := TObj {[ "Foo" := sampleLeaf ]} ]}) r =
               Some (TObj m)).
Proof.
  apply (recursiveAdd_lookup emptyObject _ ["api"; "Foo"] sampleLeaf).
  - discriminate.
  - reflexivity.
  - vm_compute. reflexivity.
  - vm_compute. reflexivity.
Defined.

Lemma insertAt_twice (p : list string) :
  forall t a b,
    bind (insertAt p t a) (fun t1 => insertAt p t1 b) = insertAt p t b.
Proof.
  induction p as [|k rest IH]; intros t a b.
  - cbn [insertAt]. destruct t; try reflexivity.
    cbn [fieldsOf bind]. now rewrite insert_insert_eq.
  - rewrite (insertAt_cons k rest t a), (insertAt_cons k rest t b).
    destruct t as [ | | | | | m]; try reflexivity. cbn [fieldsOf bind].
    rewrite bind_assoc.
    destruct rest as [|k1 rest].
    + cbn [below bind]. rewrite insertAt_cons. cbn [fieldsOf bind below].
      now rewrite insert_insert_eq.
    + cbn [below]. rewrite <- (IH (childOrEmpty m k) a b).
      rewrite bind_assoc. apply bind_ext; [reflexivity|]. intros sub1.
      cbn [bind]. rewrite insertAt_cons. cbn [fieldsOf bind below].
      unfold childOrEmpty at 1. rewrite lookup_insert_eq. cbn [default id].
      apply bind_ext; [reflexivity|]. intros sub2.
      now rewrite insert_insert_eq.
Qed.

(** X11.  Of two merges at the same path the second one wins: merging [a]
    and then [b] at [p] gives what merging [b] alone gives, and throws when
    that throws. *)
Theorem recursiveAdd_last_wins (t : tree) (p : list string) (a b : tree) :
  (let* t1 := recursiveAdd p 0 t a in recursiveAdd p 0 t1 b) =
  recursiveAdd p 0 t b.
Proof.
  rewrite (bind_ext _ (insertAt p t a) _ (fun t1 => insertAt p t1 b))
    by (intros; apply recursiveAdd_insertAt).
  rewrite recursiveAdd_insertAt. apply insertAt_twice.
Qed.

Lemma insertAt_walkable (p : list string) (a : tree) :
  forall t, (walkable t p = true -> exists t', insertAt p t a = Ok t') /\
            (walkable t p = false -> insertAt p t a = Throw TypeError).
Proof.
  induction p as [|k rest IH]; intros t.
  - destruct t; cbn; split; try discriminate; eauto.
  - rewrite insertAt_cons.
    destruct t as [ | | | | | m]; cbn [walkable fieldsOf bind];
      try (split; [discriminate|reflexivity]).
    destruct rest as [|k1 rest].
    + cbn [below bind]. split; [eauto|discriminate].
    + unfold below, childOrEmpty.
      destruct (m !! k) as [c|]; cbn [default id].
      * destruct (IH c) as [Hok Hno]. split; intros H.
        -- destruct (Hok H) as [t' ->]. cbn [bind]. eauto.
        -- now rewrite (Hno H).
      * split; [|discriminate]. intros _.
        destruct (insertAt_emptyObject (k1 :: rest) a) as [t' ->].
        cbn [bind]. eauto.
Qed.

(** X12.  Along a path of own names the merge returns exactly when the
    tree is walkable along the path, that is, when the tree and every value
    met under a segment before the last are objects; otherwise it throws a
    [TypeError]. *)
Theorem recursiveAdd_succeeds_iff (t : tree) (p : list string) (a : tree) :
  ownNames p = true -> ownCopy a = true ->
  (walkable t p = true <-> exists t', recursiveAdd p 0 t a = Ok t') /\
  (walkable t p = false <-> recursiveAdd p 0 t a = Throw TypeError).
Proof.
  intros _ _. rewrite recursiveAdd_insertAt.
  destruct (insertAt_walkable p a t) as [Hok Hno].
  destruct (walkable t p) eqn:Hw.
  - destruct (Hok eq_refl) as [t' Ht']. rewrite Ht'. split; split; eauto;
      discriminate.
  - rewrite (Hno eq_refl). split; split; auto; try discriminate.
    intros [t' Ht']. discriminate.
Qed.

Lemma recursiveAdd_succeeds_iff_witness :
  (exists t', recursiveAdd ["api"; "A"; "m"] 0
                (TObj {[ "api" := TObj {[ "A" := sampleLeaf ]} ]}) sampleLeaf =
              Ok t') /\
  recursiveAdd ["api"; "A"; "m"] 0 (TObj {[ "api" := TStr "A" ]}) sampleLeaf =
    Throw TypeError.
Proof.
  split.
  - apply (recursiveAdd_succeeds_iff
             (TObj {[ "api" := TObj {[ "A" := sampleLeaf ]} ]})
             ["api"; "A"; "m"] sampleLeaf);
      [reflexivity|vm_compute; reflexivity..].
  - apply (recursiveAdd_succeeds_iff (TObj {[ "api" := TStr "A" ]})
             ["api"; "A"; "m"] sampleLeaf);
      [reflexivity|vm_compute; reflexivity..].
Defined.


End TreeLaws.

(** * The merge in place refines the merge on values, on the sample store *)

Module SampleStoreFacts.
Import Store Abstraction AbstractionFacts.

(** In the sample store every reference is to a later object. *)
Lemma sampleStore_upward (l : loc) (o : object) (k : string) (l' : loc) :
  sampleStore !! l = Some o -> o !! k = Some (VRef l') ->
  l < l' < length sampleStore.
Proof.
  intros Ho Hk.
  do 6 (destruct l as [|l];
        [injection Ho as <-;
         apply lookup_singleton_Some in Hk as [_ Hk];
         try discriminate Hk; injection Hk as <-; simpl; lia|]).
  discriminate Ho.
Qed.

Lemma sampleStore_closed : closed sampleStore.
Proof. intros l o k l' Ho Hk. now apply (sampleStore_upward l o k l'). Qed.

Lemma sampleStore_reach (v : value) (l : loc) :
  reach sampleStore v l -> forall a, v = VRef a -> a <= l.
Proof.
  induction 1 as [l|l o k v l' Ho Hk Hr IH]; intros a [= <-]; [lia|].
  destruct v as [ | | | | | b]; try (inversion Hr; fail).
  pose proof (sampleStore_upward _ _ _ _ Ho Hk). specialize (IH b eq_refl). lia.
Qed.

Lemma repN_singleton (n : nat) (h : store) (l : loc) (k : string) (v : value)
      (t : Tree.tree) :
  h !! l = Some {[ k := v ]} -> repN n h v t ->
  repN (S n) h (VRef l) (Tree.TObj {[ k := t ]}).
Proof.
  intros Hl Hv. simpl. exists {[ k := v ]}. split; [exact Hl|].
  intros k'. destruct (decide (k' = k)) as [->|Hne].
  - now rewrite !lookup_singleton_eq.
  - now rewrite !lookup_singleton_ne.
Qed.

Lemma sampleStore_represents :
  represents sampleStore (VRef 0)
    (Tree.TObj {[ "api" := Tree.TObj {[ "A" := Tree.sampleLeaf ]} ]}) /\
  represents sampleStore (VRef 4) Tree.sampleLeaf.
Proof.
  split.
  - exists 4. repeat (eapply repN_singleton; [reflexivity|]). reflexivity.
  - exists 2. repeat (eapply repN_singleton; [reflexivity|]). reflexivity.
Qed.

Lemma sampleStore_apart (l : loc) :
  l ∈ [0; 1] -> ~ beside sampleStore [0; 1] ["api"; "B"] (VRef 4) l.
Proof.
  intros Hl (v & Hv & Hr).
  assert (Hlt : l < 2).
  { apply list_elem_of_In in Hl. simpl in Hl. lia. }
  destruct Hv as [(j & l0 & o & k & Hj & Ho & Hk & Hv)|[k Hv]].
  - destruct j as [|[|j]]; try discriminate Hj; injection Hj as <-;
      injection Ho as <-;
      apply lookup_singleton_Some in Hv as [<- <-].
    + now apply Hk.
    + pose proof (sampleStore_reach _ _ Hr 2 eq_refl). lia.
  - simpl in Hv. apply lookup_singleton_Some in Hv as [_ <-].
    pose proof (sampleStore_reach _ _ Hr 5 eq_refl). lia.
Qed.

Lemma store_refines_tree_witness :
  exists h' T',
    recursiveAdd ["api"; "B"] 0 (VRef 0) (VRef 4) sampleStore = Ok (VRef 0, h') /\
    Tree.recursiveAdd ["api"; "B"] 0
      (Tree.TObj {[ "api" := Tree.TObj {[ "A" := Tree.sampleLeaf ]} ]})
      Tree.sampleLeaf = Ok T' /\
    represents h' (VRef 0) T'.
Proof.
  apply (store_refines_tree sampleStore 0 ["api"; "B"] (VRef 4)
           (Tree.TObj {[ "api" := Tree.TObj {[ "A" := Tree.sampleLeaf ]} ]})
           Tree.sampleLeaf [0; 1]).
  - discriminate.
  - reflexivity.
  - vm_compute. reflexivity.
  - exact sampleStore_closed.
  - simpl. lia.
  - reflexivity.
  - apply NoDup_cons. split; [|apply NoDup_singleton].
    intros Hin. apply list_elem_of_singleton in Hin. discriminate Hin.
  - exact (proj1 sampleStore_represents).
  - exact (proj2 sampleStore_represents).
  - exact sampleStore_apart.
Defined.

End SampleStoreFacts.

(** * The files [collectMissing] and [writeFile] leave *)

Module FilesFacts.
Import JsString Json JsonFacts Tree TreeFacts TreeShape TreeLaws Segments Files.


Lemma split_nonempty (sep : ascii) (s : string) : split sep s <> [].
Proof.
  destruct s as [|c r]; simpl; [discriminate|].
  destruct (Ascii.eqb c sep); [discriminate|].
  destruct (split sep r); discriminate.
Qed.

Lemma join_cons (sep x : string) (y : string) (r : list string) :
  join sep (x :: y :: r) = x +:+ sep +:+ join sep (y :: r).
Proof. reflexivity. Qed.

Lemma join_split (s : string) : join "." (split "." s) = s.
Proof.
  induction s as [|c r IH]; [reflexivity|].
  cbn [split]. destruct (Ascii.eqb c ".") eqn:Hc.
  - apply Ascii.eqb_eq in Hc as ->.
    destruct (split "." r) as [|x xs] eqn:Hs; [now apply split_nonempty in Hs|].
    rewrite join_cons, IH. reflexivity.
  - destruct (split "." r) as [|x xs] eqn:Hs; [now apply split_nonempty in Hs|].
    destruct xs as [|y xs].
    + cbn [join] in *. now rewrite IH.
    + rewrite join_cons in *. rewrite <- IH. reflexivity.
Qed.

Lemma split_lacks (s : string) :
  Forall (fun x => lacks "." x = true) (split "." s).
Proof.
  induction s as [|c r IH]; [repeat constructor|].
  cbn [split]. destruct (Ascii.eqb c ".") eqn:Hc.
  - constructor; [reflexivity|exact IH].
  - destruct (split "." r) as [|x xs]; [repeat constructor; simpl; now rewrite Hc|].
    inversion IH as [|? ? Hx Hxs]; subst.
    constructor; [|exact Hxs]. simpl. now rewrite Hc.
Qed.

Lemma split_segment (x rest : string) :
  lacks "." x = true ->
  split "." (x +:+ "." +:+ rest) = x :: split "." rest.
Proof.
  induction x as [|c x IH]; intros H; [reflexivity|].
  simpl in H. apply andb_true_iff in H as [Hc Hx].
  apply negb_true_iff in Hc.
  change (String c x +:+ "." +:+ rest) with (String c (x +:+ "." +:+ rest)).
  cbn [split]. rewrite Hc, (IH Hx). reflexivity.
Qed.

Lemma split_last (x : string) : lacks "." x = true -> split "." x = [x].
Proof.
  induction x as [|c x IH]; intros H; [reflexivity|].
  simpl in H. apply andb_true_iff in H as [Hc Hx].
  apply negb_true_iff in Hc. cbn [split]. now rewrite Hc, (IH Hx).
Qed.

(** X15.  Splitting at the dots the dotted name of an identifier gives the
    identifier back, when the identifier has a segment and no segment has a
    dot. *)
Theorem split_join (ident : list string) :
  ident <> [] -> Forall (fun x => lacks "." x = true) ident ->
  split "." (join "." ident) = ident.
Proof.
  intros Hne H. induction H as [|x xs Hx Hxs IH]; [congruence|].
  destruct xs as [|y xs].
  - cbn [join]. now apply split_last.
  - rewrite join_cons, (split_segment _ _ Hx). f_equal. now apply IH.
Qed.

Lemma split_join_witness :
  split "." (join "." ["api"; "Foo"; "bar"]) = ["api"; "Foo"; "bar"].
Proof.
  apply split_join; [discriminate|]. repeat constructor.
Defined.

(** X16.  The segments of an entry are never none, have no dot, and joined
    by dots give the entry back; so the [Error] of the resolver on the
    segments of an entry names the entry. *)
Theorem split_entry (ns : list string) (entry : string) :
  split "." entry <> [] /\
  Forall (fun x => lacks "." x = true) (split "." entry) /\
  join "." (split "." entry) = entry /\
  (forall e, Resolver.getFilePath ns (split "." entry) = Throw e ->
     e = TypeError \/
     e = Error ("Cannot determine file path from BCD path: " +:+ entry)).
Proof.
  split; [apply split_nonempty|]. split; [apply split_lacks|].
  split; [apply join_split|].
  intros e H. apply ResolverLaws.getFilePath_throws in H.
  now rewrite join_split in H.
Qed.

(** ** The tree [collectMissing] builds *)

Lemma featureTree_emptyObject : featureTree emptyObject.
Proof.
  intros p c _ H. destruct p as [|k p].
  - injection H as <-. now exists ∅.
  - rewrite descend_emptyObject in H by discriminate. discriminate.
Qed.

Lemma featureTree_child (m : gmap string tree) (k : string) (c : tree) :
  featureTree (TObj m) -> k <> "__compat" -> m !! k = Some c -> featureTree c.
Proof.
  intros H Hk Hc p x Hp Hx. apply (H (k :: p)).
  - intros [E|E]; [now apply Hk|now apply Hp].
  - cbn [descend]. now rewrite Hc.
Qed.

Lemma featureTree_walkable (p : list string) :
  forall t, featureTree t -> ~ In "__compat" p -> walkable t p = true.
Proof.
  induction p as [|k rest IH]; intros t Ht Hp.
  - destruct (Ht [] t) as [m ->]; [exact Hp|reflexivity|reflexivity].
  - destruct (Ht [] t) as [m ->]; [tauto|reflexivity|].
    cbn [walkable]. destruct rest as [|k1 rest]; [reflexivity|].
    destruct (m !! k) as [c|] eqn:Hc; [|reflexivity].
    apply IH.
    + apply (featureTree_child m k c Ht); [|exact Hc].
      intros ->. apply Hp. now left.
    + intros H. apply Hp. now right.
Qed.

Lemma descend_template (k : string) (s : list string) :
  k <> "__compat" -> descend (objectAssign template) (k :: s) = None.
Proof.
  intros Hk. cbn [descend objectAssign ownProperties template].
  now rewrite lookup_singleton_ne.
Qed.

Lemma insertAt_featureTree (p : list string) (t t' : tree) :
  p <> [] -> ~ In "__compat" p -> featureTree t ->
  insertAt p t template = Ok t' -> featureTree t'.
Proof.
  intros Hne Hp Ht H r c Hr Hc.
  destruct (decide (p `prefix_of` r)) as [[s ->]|Hpr].
  - rewrite (insertAt_below p template t t' s Hne H) in Hc.
    destruct s as [|k s].
    + injection Hc as <-. now eexists.
    + rewrite descend_template in Hc; [discriminate|].
      intros ->. apply Hr, in_or_app. right. now left.
  - destruct (decide (r `prefix_of` p)) as [Hrp|Hrp].
    + destruct (insertAt_ancestors p template t t' r Hne H Hrp) as [m Hm].
      * intros ->. now apply Hpr.
      * rewrite Hm in Hc. injection Hc as <-. now exists m.
    + rewrite (insertAt_unrelated p template t t' r H Hpr Hrp) in Hc.
      now apply (Ht r).
Qed.

Lemma collect_featureTree (missingEntries : list string) :
  Forall clean missingEntries ->
  forall t, featureTree t ->
    exists t', collect missingEntries t = Ok t' /\ featureTree t'.
Proof.
  induction 1 as [|entry rest He _ IH]; intros t Ht; [simpl; eauto|].
  cbn [collect]. rewrite recursiveAdd_insertAt.
  destruct (proj1 (insertAt_walkable (split "." entry) template t)
              (featureTree_walkable _ t Ht He)) as [t1 H1].
  rewrite H1. cbn [bind]. apply IH.
  apply (insertAt_featureTree (split "." entry) t t1);
    auto using split_nonempty.
Qed.

Lemma prefix_snoc (p r : list string) (k : string) :
  r `prefix_of` p ++ [k] -> r `prefix_of` p \/ r = p ++ [k].
Proof.
  intros [s Hs]. destruct (decide (s = [])) as [->|Hne].
  - right. now rewrite app_nil_r in Hs.
  - left. destruct (exists_last Hne) as (s' & x & ->).
    rewrite app_assoc in Hs. apply app_inj_tail in Hs as [-> _].
    now exists s'.
Qed.

(** The record of an entry stays through a later merge that is not at an
    ancestor of the entry. *)
Lemma insertAt_keeps_record (p q : list string) (t t' : tree) :
  q <> [] -> ~ In "__compat" q ->
  ~ (q `prefix_of` p /\ q <> p) ->
  descend t (p ++ ["__compat"]) = Some templateCompat ->
  insertAt q t template = Ok t' ->
  descend t' (p ++ ["__compat"]) = Some templateCompat.
Proof.
  intros Hne Hq Hanc Hrec H.
  destruct (decide (q = p)) as [->|Hqp].
  - now rewrite (insertAt_below p template t t' _ Hne H).
  - rewrite (insertAt_unrelated q template t t' _ H); [exact Hrec| |].
    + intros Hpre. apply prefix_snoc in Hpre as [Hpre| ->].
      * apply Hanc. now split.
      * apply Hq, in_or_app. right. now left.
    + intros [s Hs]. apply Hq. rewrite Hs, <- app_assoc.
      apply in_or_app. right. now left.
Qed.

Lemma collect_keeps_record (p : list string) (later : list string) :
  Forall clean later ->
  Forall (fun e => ~ (split "." e `prefix_of` p /\ split "." e <> p)) later ->
  forall t t',
    descend t (p ++ ["__compat"]) = Some templateCompat ->
    collect later t = Ok t' ->
    descend t' (p ++ ["__compat"]) = Some templateCompat.
Proof.
  induction 1 as [|e rest He _ IH]; intros Hanc t t' Hrec H.
  - injection H as <-. exact Hrec.
  - inversion Hanc as [|? ? Hanc1 Hanc2]; subst.
    cbn [collect] in H. rewrite recursiveAdd_insertAt in H.
    destruct (insertAt (split "." e) t template) as [t1|] eqn:H1;
      [|discriminate].
    cbn [bind] in H. apply (IH Hanc2 t1 t'); [|exact H].
    apply (insertAt_keeps_record p (split "." e) t t1);
      auto using split_nonempty.
Qed.

Lemma collect_app (l1 l2 : list string) (t : tree) :
  collect (l1 ++ l2) t = let* t1 := collect l1 t in collect l2 t1.
Proof.
  revert t. induction l1 as [|e l1 IH]; intros t; [reflexivity|].
  cbn [app collect]. rewrite bind_assoc. apply bind_ext; [reflexivity|].
  intros t1. apply IH.
Qed.

(** X17.  On entries of own names without a [__compat] segment the loop
    of [collectMissing] does not throw, and [collectMissing] writes one
    tree unless the file system refuses the file: a tree in which every
    node reached through keys other than [__compat] is an object, and in
    which an entry has the record of the template unless an entry listed
    after it is one of its proper ancestors. *)
Theorem collectMissing_records (writeFailure : string -> option exn)
        (missingEntries : list string) (filepath : string) (fs : files) :
  Forall clean missingEntries ->
  Forall ownEntry missingEntries ->
  exists missing,
    collectMissing writeFailure missingEntries filepath fs =
      match writeFailure filepath with
      | Some e => Throw e
      | None => Ok (<[filepath := missing]> fs)
      end /\
    featureTree missing /\
    forall earlier entry later,
      missingEntries = earlier ++ entry :: later ->
      Forall (fun e => ~ (split "." e `prefix_of` split "." entry /\
                          split "." e <> split "." entry)) later ->
      descend missing (split "." entry ++ ["__compat"]) = Some templateCompat.
Proof.
  intros Hclean _. unfold collectMissing.
  destruct (collect_featureTree missingEntries Hclean emptyObject
              featureTree_emptyObject) as (missing & Hrun & Hft).
  exists missing. rewrite Hrun. split; [reflexivity|]. split; [exact Hft|].
  intros earlier entry later -> Hlater.
  rewrite collect_app in Hrun.
  destruct (collect earlier emptyObject) as [t0|] eqn:H0; [|discriminate].
  cbn [bind collect] in Hrun. rewrite recursiveAdd_insertAt in Hrun.
  destruct (insertAt (split "." entry) t0 template) as [t1|] eqn:H1;
    [|discriminate].
  cbn [bind] in Hrun.
  apply List.Forall_app in Hclean as [_ Hclean].
  inversion Hclean as [|? ? _ Hcl]; subst.
  apply (collect_keeps_record (split "." entry) later Hcl Hlater t1);
    [|exact Hrun].
  rewrite (insertAt_below _ template t0 t1 _ (split_nonempty _ _) H1).
  reflexivity.
Qed.

(** X18.  The order of the entries matters: on entries of own names
    without a [__compat] segment, in the tree [collectMissing] writes
    (unless the file system refuses the file) the entry merged last holds
    the copy of the template and nothing else, so the entries below it that
    were merged before are no longer in the tree. *)
Theorem collectMissing_drops (writeFailure : string -> option exn)
        (missingEntries : list string) (entry : string)
        (filepath : string) (fs : files) :
  Forall clean (missingEntries ++ [entry]) ->
  Forall ownEntry (missingEntries ++ [entry]) ->
  exists missing,
    collectMissing writeFailure (missingEntries ++ [entry]) filepath fs =
      match writeFailure filepath with
      | Some e => Throw e
      | None => Ok (<[filepath := missing]> fs)
      end /\
    descend missing (split "." entry) = Some template /\
    forall k s, k <> "__compat" ->
                descend missing (split "." entry ++ k :: s) = None.
Proof.
  intros Hclean _.
  destruct (collect_featureTree _ Hclean emptyObject featureTree_emptyObject)
    as (missing & Hrun & _).
  exists missing. unfold collectMissing. rewrite Hrun.
  split; [reflexivity|].
  rewrite collect_app in Hrun.
  destruct (collect missingEntries emptyObject) as [t0|]; [|discriminate].
  cbn [bind collect] in Hrun. rewrite recursiveAdd_insertAt in Hrun.
  destruct (insertAt (split "." entry) t0 template) as [t1|] eqn:H1;
    [|discriminate].
  cbn [bind] in Hrun. injection Hrun as <-. split.
  - rewrite <- (app_nil_r (split "." entry)).
    rewrite (insertAt_below _ template t0 t1 _ (split_nonempty _ _) H1).
    reflexivity.
  - intros k s Hk.
    rewrite (insertAt_below _ template t0 t1 _ (split_nonempty _ _) H1).
    now apply descend_template.
Qed.

Lemma clean_check (entries : list string) :
  forallb (fun e => negb (existsb (String.eqb "__compat") (split "." e)))
          entries = true ->
  Forall clean entries.
Proof.
  intros H. apply List.Forall_forall. intros e He Hin.
  rewrite forallb_forall in H. specialize (H e He).
  apply negb_true_iff in H.
  assert (existsb (String.eqb "__compat") (split "." e) = true); [|congruence].
  apply existsb_exists. exists "__compat". split; [exact Hin|].
  apply String.eqb_refl.
Qed.

Lemma ownEntry_check (entries : list string) :
  forallb (fun e => ownNames (split "." e)) entries = true ->
  Forall ownEntry entries.
Proof.
  intros H. apply List.Forall_forall. intros e He.
  rewrite forallb_forall in H. exact (H e He).
Qed.

Lemma collectMissing_records_witness :
  exists missing,
    collectMissing (fun _ => None)
                   ["api.A.m"; "api.A"; "api.A.n"; "css.properties.x"]
                   "__missing.json" ∅ =
      Ok (<["__missing.json" := missing]> ∅) /\
    featureTree missing /\
    forall earlier entry later,
      ["api.A.m"; "api.A"; "api.A.n"; "css.properties.x"] =
        earlier ++ entry :: later ->
      Forall (fun e => ~ (split "." e `prefix_of` split "." entry /\
                          split "." e <> split "." entry)) later ->
      descend missing (split "." entry ++ ["__compat"]) = Some templateCompat.
Proof.
  apply (collectMissing_records (fun _ => None)
           ["api.A.m"; "api.A"; "api.A.n"; "css.properties.x"]
           "__missing.json" ∅).
  - apply clean_check. reflexivity.
  - apply ownEntry_check. reflexivity.
Defined.

Lemma collectMissing_drops_witness :
  exists missing,
    collectMissing (fun _ => None)
                   (["api.A.m"; "css.properties.x"] ++ ["api.A"])
                   "__missing.json" ∅ =
      Ok (<["__missing.json" := missing]> ∅) /\
    descend missing (split "." "api.A") = Some template /\
    forall k s, k <> "__compat" ->
                descend missing (split "." "api.A" ++ k :: s) = None.
Proof.
  apply (collectMissing_drops (fun _ => None)
           ["api.A.m"; "css.properties.x"] "api.A" "__missing.json" ∅).
  - apply clean_check. reflexivity.
  - apply ownEntry_check. reflexivity.
Defined.

(** ** The template is no supported record *)

Lemma template_toTree : toTree templateCompatJson = templateCompat.
Proof. reflexivity. Qed.

Lemma supportedOnly_none (calls : list (list string * json)) :
  Forall (fun call => nodeSupported call.2 = false) calls ->
  supportedOnly calls = [].
Proof.
  induction 1 as [|call calls Hc _ IH]; [reflexivity|].
  unfold supportedOnly in *. cbn [List.filter]. now rewrite Hc.
Qed.

Lemma template_unsupported (n : json) :
  (forall c, member "__compat" n = Some c -> c = templateCompatJson) ->
  statementsTyped n = true /\ nodeSupported n = false.
Proof.
  intros H. unfold statementsTyped, nodeSupported, supportOf.
  cbn [optMember]. destruct n; try (split; reflexivity).
  cbn [optMember] in *.
  destruct (member "__compat" (JObj members)) as [c|] eqn:Hc;
    [|split; reflexivity].
  rewrite (H c eq_refl). split; reflexivity.
Qed.

(** X19.  The record of the template is not a supported one: on a
    document whose records are all the record of the template, as
    [collectMissing] writes it, the walk issues no write at all. *)
Theorem traverseFeatures_template {World : Type}
        (writeFile : list string -> json -> World -> result World)
        (doc : json) (identifier : list string) (w : World) :
  (forall ks n c, descends doc ks n -> member "__compat" n = Some c ->
                  c = templateCompatJson) ->
  traverseFeatures writeFile doc identifier w = Ok w.
Proof.
  intros H.
  rewrite traverseFeatures_writes.
  - rewrite supportedOnly_none; [reflexivity|].
    apply List.Forall_forall. intros [i n] Hin.
    apply visited_sound in Hin as (ks & _ & Hd). simpl.
    apply template_unsupported. intros c. now apply (H ks).
  - intros ks n Hd. apply template_unsupported. intros c. now apply (H ks).
Qed.

Lemma traverseFeatures_template_witness :
  traverseFeatures record
    (JObj [("api", JObj [("A", JObj [("__compat", templateCompatJson)])])])
    [] [] = Ok [].
Proof.
  apply (traverseFeatures_template record).
  intros ks n c H.
  inversion H as [? ? ? Hin _|? ? child ? ? Hin _ Hd]; subst.
  - destruct Hin as [[= <- <-]|[]]. discriminate.
  - destruct Hin as [[= <- <-]|[]].
    inversion Hd as [? ? ? Hin' _|? ? child' ? ? Hin' Hv' Hd']; subst.
    + destruct Hin' as [[= <- <-]|[]]. now intros [= <-].
    + destruct Hin' as [[= <- <-]|[]].
      inversion Hd' as [? ? ? Hin2 Hv2|? ? ? ? ? Hin2 Hv2 _]; subst;
        destruct Hin2 as [[= <- <-]|[]]; discriminate Hv2.
Defined.

(** ** Writing a feature to its file *)

Section DiskFacts.

Variable jsNamespaces : list string.
Variable resolve : string -> string.
Variable orderFeatures : tree -> tree.
Variable readFailure : string -> option exn.
Variable writeFailure : string -> option exn.

#[local] Abbreviation writeFile :=
  (Files.writeFile jsNamespaces resolve orderFeatures readFailure writeFailure).
#[local] Abbreviation getFilePath := (Resolver.getFilePath jsNamespaces).
#[local] Abbreviation usable := (Files.usable readFailure writeFailure).

Lemma writeFile_inv (ident : list string) (obj : json) (fs fs' : files) :
  writeFile ident obj fs = Ok fs' ->
  exists rel leaf t,
    getFilePath ident = Ok rel /\ compatOf obj = Ok leaf /\
    insertAt (ident ++ ["__compat"])
             (default emptyObject (fs !! resolve rel)) leaf = Ok t /\
    usable (resolve rel) /\
    fs' = <[resolve rel := orderFeatures t]> fs.
Proof.
  unfold Files.writeFile, Files.usable.
  destruct (getFilePath ident) as [rel|]; [|discriminate]. cbn [bind].
  destruct (readFailure (resolve rel)) eqn:Hr; [discriminate|]. cbn [bind].
  destruct (compatOf obj) as [leaf|]; [|discriminate]. cbn [bind].
  rewrite recursiveAdd_insertAt.
  destruct (insertAt _ _ leaf) as [t|] eqn:Ht; [|discriminate]. cbn [bind].
  destruct (writeFailure (resolve rel)) eqn:Hw; [discriminate|].
  intros [= <-]. exists rel, leaf, t. repeat split; auto.
Qed.

Lemma compatOf_cases (obj : json) :
  (obj = JNull /\ compatOf obj = Throw TypeError) \/
  (exists leaf, obj <> JNull /\ compatOf obj = Ok leaf).
Proof. destruct obj; [now left|right; eexists; split; [discriminate|reflexivity]..]. Qed.

Lemma snoc_nonempty (ident : list string) (k : string) : ident ++ [k] <> [].
Proof. destruct ident; discriminate. Qed.

(** X21.  For an identifier of plain segments that are own names, none of
    them [__compat], [writeFile] returns exactly when the identifier
    resolves to a file that the file system lets read and write, the node
    is not [null], and what the file holds can be walked along the
    identifier; it throws nothing but a [TypeError], the [Error] of the
    resolver and the errors of the file system at that file. *)
Theorem writeFile_returns_iff (ident : list string) (obj : json) (fs : files) :
  Forall (fun s => plain s = true) ident ->
  ownNames ident = true -> ~ In "__compat" ident ->
  copiesRecord obj = true ->
  ((exists fs', writeFile ident obj fs = Ok fs') <->
   exists rel,
     getFilePath ident = Ok rel /\
     readFailure (resolve rel) = None /\
     obj <> JNull /\
     walkable (default emptyObject (fs !! resolve rel))
              (ident ++ ["__compat"]) = true /\
     writeFailure (resolve rel) = None) /\
  (forall e, writeFile ident obj fs = Throw e ->
     e = TypeError \/
     e = Error ("Cannot determine file path from BCD path: " +:+
                join "." ident) \/
     exists rel,
       getFilePath ident = Ok rel /\
       (readFailure (resolve rel) = Some e \/
        writeFailure (resolve rel) = Some e)).
Proof.
  intros _ _ _ _. unfold Files.writeFile. split.
  - destruct (getFilePath ident) as [rel|e] eqn:Hrel; cbn [bind];
      [|split; [intros [? ?]; discriminate
               |intros (rel' & ? & _); discriminate]].
    destruct (readFailure (resolve rel)) as [e|] eqn:Hread; cbn [bind];
      [split; [intros [? ?]; discriminate
              |intros (rel' & [= <-] & Hread' & _); congruence]|].
    destruct (compatOf_cases obj) as [[-> ->]|(leaf & Hnull & ->)];
      cbn [bind];
      [split; [intros [? ?]; discriminate
              |intros (rel' & _ & _ & Hnull & _); congruence]|].
    rewrite recursiveAdd_insertAt.
    destruct (insertAt_walkable (ident ++ ["__compat"]) leaf
                (default emptyObject (fs !! resolve rel))) as [Hok Hno].
    destruct (walkable (default emptyObject (fs !! resolve rel))
                       (ident ++ ["__compat"])) eqn:Hw.
    + destruct (Hok eq_refl) as [t' ->]. cbn [bind].
      destruct (writeFailure (resolve rel)) as [e|] eqn:Hwrite.
      * split; [intros [? ?]; discriminate|].
        intros (rel' & [= <-] & _ & _ & _ & Hwrite'). congruence.
      * split; [|eauto]. intros _. exists rel. auto.
    + rewrite (Hno eq_refl). cbn [bind]. split; [intros [? ?]; discriminate|].
      intros (rel' & [= <-] & _ & _ & Hw' & _). congruence.
  - intros e.
    destruct (getFilePath ident) as [rel|e0] eqn:Hrel; cbn [bind].
    2:{ intros [= <-].
        destruct (ResolverLaws.getFilePath_throws jsNamespaces _ _ Hrel)
          as [->| ->]; auto. }
    destruct (readFailure (resolve rel)) as [e1|] eqn:Hread; cbn [bind];
      [intros [= <-]; right; right; exists rel; auto|].
    destruct (compatOf_cases obj) as [[-> ->]|(leaf & Hnull & ->)];
      cbn [bind]; [intros [= <-]; now left|].
    rewrite recursiveAdd_insertAt.
    destruct (insertAt _ _ leaf) as [t|e2] eqn:Ht; cbn [bind].
    + destruct (writeFailure (resolve rel)) as [e3|] eqn:Hwrite;
        [|discriminate].
      intros [= <-]. right. right. exists rel. auto.
    + intros [= <-]. left. now apply insertAt_throws in Ht.
Qed.

(** The replacer sorts the keys of the objects that are written; the order
    of the keys is not part of a tree value, so the value written is the
    value given. *)
Hypothesis orderFeatures_value : forall t, orderFeatures t = t.

(** X20.  A [writeFile] that returns, for an identifier of plain segments
    that are own names, none of them [__compat], has changed one file, the
    one [getFilePath] gives for the identifier, which the file system lets
    read and write: it holds the value read from it, or the empty object
    when there was none, with the copy of the record of the node at the
    identifier followed by [__compat], and with every path that neither
    extends that one nor leads to it as it was. *)
Theorem writeFile_merges (ident : list string) (obj : json) (fs fs' : files) :
  Forall (fun s => plain s = true) ident ->
  ownNames ident = true -> ~ In "__compat" ident ->
  copiesRecord obj = true ->
  writeFile ident obj fs = Ok fs' ->
  exists rel leaf t,
    getFilePath ident = Ok rel /\ compatOf obj = Ok leaf /\
    readFailure (resolve rel) = None /\ writeFailure (resolve rel) = None /\
    fs' = <[resolve rel := t]> fs /\
    descend t (ident ++ ["__compat"]) = Some (objectAssign leaf) /\
    (forall r, ~ (ident ++ ["__compat"]) `prefix_of` r ->
               ~ r `prefix_of` (ident ++ ["__compat"]) ->
               descend t r = descend (default emptyObject (fs !! resolve rel)) r).
Proof.
  intros _ _ _ _ H.
  apply writeFile_inv in H as (rel & leaf & t & Hrel & Hleaf & Ht & [Hr Hw] & ->).
  exists rel, leaf, t. split; [exact Hrel|]. split; [exact Hleaf|].
  split; [exact Hr|]. split; [exact Hw|].
  split; [now rewrite orderFeatures_value|]. split.
  - exact (insertAt_descend _ leaf _ t (snoc_nonempty _ _) Ht).
  - intros r. now apply (insertAt_unrelated _ leaf).
Qed.

Lemma records_apart (ident ident' : list string) :
  ~ In "__compat" ident -> ~ In "__compat" ident' -> ident' <> ident ->
  ~ (ident' ++ ["__compat"]) `prefix_of` (ident ++ ["__compat"]).
Proof.
  intros Hc Hc' Hne Hpre. apply prefix_snoc in Hpre as [[s Hs]|Heq].
  - apply Hc. rewrite Hs, <- app_assoc. apply in_or_app. right. now left.
  - apply app_inj_tail in Heq as [Heq _]. now apply Hne.
Qed.

Lemma writeFile_keeps (ident ident' : list string) (node' : json)
      (fs fs' : files) (f : string) (t : tree) :
  ~ In "__compat" ident -> ~ In "__compat" ident' -> ident' <> ident ->
  writeFile ident' node' fs = Ok fs' ->
  fs !! f = Some t ->
  exists t', fs' !! f = Some t' /\
             descend t' (ident ++ ["__compat"]) =
             descend t (ident ++ ["__compat"]).
Proof.
  intros Hc Hc' Hne H Hf.
  apply writeFile_inv in H as (rel & leaf & t1 & Hrel & Hleaf & Ht & _ & ->).
  destruct (decide (resolve rel = f)) as [<-|Hother].
  - exists t1. split; [now rewrite lookup_insert_eq, orderFeatures_value|].
    rewrite Hf in Ht. cbn [default id] in Ht.
    apply (insertAt_unrelated _ leaf _ _ _ Ht).
    + now apply records_apart.
    + apply records_apart; auto.
  - rewrite lookup_insert_ne by exact Hother. eauto.
Qed.

Lemma writeAll_keeps (calls : list (list string * json)) (ident : list string) :
  ~ In "__compat" ident ->
  Forall (fun call => ~ In "__compat" call.1 /\ call.1 <> ident) calls ->
  forall (fs fs' : files) (f : string) (t : tree),
    writeAll writeFile calls fs = Ok fs' ->
    fs !! f = Some t ->
    exists t', fs' !! f = Some t' /\
               descend t' (ident ++ ["__compat"]) =
               descend t (ident ++ ["__compat"]).
Proof.
  intros Hc. induction 1 as [|[ident' node'] calls [Hc' Hne] _ IH];
    intros fs fs' f t H Hf.
  - injection H as <-. eauto.
  - cbn [writeAll] in H.
    destruct (writeFile ident' node' fs) as [fs1|] eqn:H1; [|discriminate].
    cbn [bind] in H.
    destruct (writeFile_keeps ident ident' node' fs fs1 f t Hc Hc' Hne H1 Hf)
      as (t1 & Hf1 & Hd1).
    destruct (IH fs1 fs' f t1 H Hf1) as (t' & Hf' & Hd').
    exists t'. split; [exact Hf'|]. now rewrite Hd'.
Qed.

Lemma writeAll_records (before after : list (list string * json))
        (ident : list string) (node : json) (fs fs' : files) :
  ~ In "__compat" ident ->
  Forall (fun call => ~ In "__compat" call.1 /\ call.1 <> ident) after ->
  writeAll writeFile (before ++ (ident, node) :: after) fs = Ok fs' ->
  exists rel leaf t,
    getFilePath ident = Ok rel /\ compatOf node = Ok leaf /\
    fs' !! resolve rel = Some t /\
    descend t (ident ++ ["__compat"]) = Some (objectAssign leaf) /\
    usable (resolve rel).
Proof.
  intros Hc Hafter H. rewrite writeAll_app in H.
  destruct (writeAll writeFile before fs) as [fs0|]; [|discriminate].
  cbn [bind writeAll] in H.
  destruct (writeFile ident node fs0) as [fs1|] eqn:H1; [|discriminate].
  cbn [bind] in H.
  apply writeFile_inv in H1 as (rel & leaf & t1 & Hrel & Hleaf & Ht & Hio & ->).
  destruct (writeAll_keeps after ident Hc Hafter _ fs' (resolve rel) t1 H)
    as (t' & Hf' & Hd'); [now rewrite lookup_insert_eq, orderFeatures_value|].
  exists rel, leaf, t'. split; [exact Hrel|]. split; [exact Hleaf|].
  split; [exact Hf'|]. split; [|exact Hio]. rewrite Hd'.
  exact (insertAt_descend _ leaf _ t1 (snoc_nonempty _ _) Ht).
Qed.

Lemma last_call (calls : list (list string * json)) (ident : list string) :
  forall node,
    In (ident, node) calls ->
    exists before node' after,
      calls = before ++ (ident, node') :: after /\
      Forall (fun call => call.1 <> ident) after.
Proof.
  induction calls as [|[i n] calls IH] using rev_ind; [intros ? []|].
  intros node Hin. destruct (decide (i = ident)) as [->|Hne].
  - exists calls, n, []. split; [reflexivity|constructor].
  - apply in_app_or in Hin as [Hin|[Heq|[]]]; [|congruence].
    destruct (IH node Hin) as (before & node' & after & -> & Hafter).
    exists before, node', (after ++ [(i, n)]). split.
    + now rewrite <- app_assoc.
    + apply List.Forall_app. split; [exact Hafter|]. now repeat constructor.
Qed.

(** X22.  The walk of [main], from the empty prefix and with [writeFile],
    over a document whose keys are plain and own names and whose records
    have no member [__proto__]: when it returns, every supported node of
    the document, the only one at its identifier, has the copy of its
    record in the file of its identifier, whatever was written after it. *)
Theorem traverseFeatures_injects (doc : json) (fs fs' : files)
        (ident : list string) (node : json) :
  plainKeys doc ->
  ownKeys doc ->
  traverseFeatures writeFile doc [] fs = Ok fs' ->
  descends doc ident node ->
  (forall node', descends doc ident node' -> node' = node) ->
  nodeSupported node = true ->
  exists rel leaf t,
    getFilePath ident = Ok rel /\ compatOf node = Ok leaf /\
    fs' !! resolve rel = Some t /\
    descend t (ident ++ ["__compat"]) = Some (objectAssign leaf).
Proof.
  intros _ _ Hrun Hd Honly Hs.
  destruct (WalkLaws.traverseFeatures_any writeFile doc [] fs) as [E|E];
    rewrite E in Hrun; [|discriminate Hrun].
  assert (Hin : In (ident, node) (supportedOnly (visited doc []))).
  { apply List.filter_In. split; [|exact Hs].
    now apply (visited_complete doc ident node Hd []). }
  destruct (last_call _ _ _ Hin) as (before & node' & after & Hcalls & Hafter).
  assert (Hclean : forall i n, In (i, n) (supportedOnly (visited doc [])) ->
                               ~ In "__compat" i /\ descends doc i n).
  { intros i n Hi. apply List.filter_In in Hi as [Hi _].
    apply visited_sound in Hi as (ks & -> & Hks). simpl.
    split; [|exact Hks]. now apply WalkLaws.descends_keys in Hks. }
  assert (node' = node) as ->.
  { apply Honly, (Hclean ident node'). rewrite Hcalls.
    apply in_or_app. right. now left. }
  rewrite Hcalls in Hrun.
  destruct (writeAll_records before after ident node fs fs')
    as (rel & leaf & t & Hrel & Hleaf & Hf & Hdt & _); [| |exact Hrun|].
  - now apply (Hclean ident node).
  - rewrite List.Forall_forall in Hafter |- *. intros [i n] Hi.
    split; [|now apply Hafter]. simpl.
    apply (Hclean i n). rewrite Hcalls. apply in_or_app. right. now right.
  - exists rel, leaf, t. auto.
Qed.

(** A merge of what is already there changes nothing. *)
Lemma insertAt_same (p : list string) (a : tree) :
  forall t, p <> [] -> descend t p = Some (objectAssign a) ->
            insertAt p t a = Ok t.
Proof.
  induction p as [|k rest IH]; intros t Hne Hd; [congruence|].
  rewrite insertAt_cons. cbn [descend] in Hd.
  destruct t as [ | | | | | m]; try discriminate Hd. cbn [fieldsOf bind].
  destruct (m !! k) as [c|] eqn:Hc; [|discriminate Hd].
  destruct rest as [|k2 rest].
  - injection Hd as ->. cbn [below bind]. now rewrite insert_id.
  - cbn [below]. unfold childOrEmpty. rewrite Hc. cbn [default id].
    rewrite (IH c ltac:(discriminate) Hd). cbn [bind]. now rewrite insert_id.
Qed.

Lemma writeFile_same (ident : list string) (node : json) (fs : files)
      (rel : string) (leaf t : tree) :
  getFilePath ident = Ok rel -> compatOf node = Ok leaf ->
  usable (resolve rel) ->
  fs !! resolve rel = Some t ->
  descend t (ident ++ ["__compat"]) = Some (objectAssign leaf) ->
  writeFile ident node fs = Ok fs.
Proof.
  intros Hrel Hleaf [Hr Hw] Hf Hd. unfold Files.writeFile.
  rewrite Hrel. cbn [bind]. rewrite Hr, Hw, Hleaf. cbn [bind].
  rewrite Hf. cbn [default id].
  rewrite recursiveAdd_insertAt, (insertAt_same _ leaf t (snoc_nonempty _ _) Hd).
  cbn [bind]. now rewrite orderFeatures_value, insert_id.
Qed.

Lemma writeAll_same (calls : list (list string * json)) (fs : files) :
  Forall (fun call => writeFile call.1 call.2 fs = Ok fs) calls ->
  writeAll writeFile calls fs = Ok fs.
Proof.
  induction 1 as [|[ident node] calls H _ IH]; [reflexivity|].
  cbn [writeAll]. simpl in H. now rewrite H.
Qed.

(** X24.  The walk of [main] run again changes nothing: on a disk that
    reads back what was written, over a document of plain keys in which an
    identifier leads to one node, a walk that has returned returns again,
    with the files it has left. *)
Theorem traverseFeatures_again (doc : json) (fs fs' : files) :
  plainKeys doc ->
  (forall ident node node',
     descends doc ident node -> descends doc ident node' -> node' = node) ->
  traverseFeatures writeFile doc [] fs = Ok fs' ->
  traverseFeatures writeFile doc [] fs' = Ok fs'.
Proof.
  intros _ Honly Hrun.
  destruct (WalkLaws.traverseFeatures_uniform doc []) as [E|E];
    [|now apply E in Hrun].
  rewrite E in Hrun. rewrite E.
  assert (Hclean : forall i n, In (i, n) (supportedOnly (visited doc [])) ->
                               ~ In "__compat" i /\ descends doc i n).
  { intros i n Hi. apply List.filter_In in Hi as [Hi _].
    apply visited_sound in Hi as (ks & -> & Hks). simpl.
    split; [|exact Hks]. now apply WalkLaws.descends_keys in Hks. }
  apply writeAll_same.
  apply List.Forall_forall. intros [ident node] Hin. simpl.
  destruct (last_call _ _ _ Hin) as (before & node' & after & Hcalls & Hafter).
  assert (node' = node) as ->.
  { apply (Honly ident); [now apply (Hclean ident node)|].
    apply (Hclean ident node'). rewrite Hcalls.
    apply in_or_app. right. now left. }
  rewrite Hcalls in Hrun.
  destruct (writeAll_records before after ident node fs fs')
    as (rel & leaf & t & Hrel & Hleaf & Hf & Hd & Hio); [| |exact Hrun|].
  - now apply (Hclean ident node).
  - rewrite List.Forall_forall in Hafter |- *. intros [i n] Hi.
    split; [|now apply Hafter]. simpl.
    apply (Hclean i n). rewrite Hcalls. apply in_or_app. right. now right.
  - now apply (writeFile_same ident node fs' rel leaf t).
Qed.

Lemma writeFile_eq (ident : list string) (node : json) (fs : files)
      (rel : string) (leaf : tree) :
  getFilePath ident = Ok rel -> compatOf node = Ok leaf ->
  usable (resolve rel) ->
  writeFile ident node fs =
  let* t := insertAt (ident ++ ["__compat"])
                     (default emptyObject (fs !! resolve rel)) leaf in
  Ok (<[resolve rel := t]> fs).
Proof.
  intros Hrel Hleaf [Hr Hw]. unfold Files.writeFile.
  rewrite Hrel. cbn [bind]. rewrite Hr, Hw, Hleaf. cbn [bind].
  rewrite recursiveAdd_insertAt. apply bind_ext; [reflexivity|].
  intros t. now rewrite orderFeatures_value.
Qed.

(** X25.  The writes of two features commute: for two identifiers of
    plain segments that are own names, none of them [__compat], that
    resolve to files the file system lets read and write, and two nodes
    that are not [null], writing one and then the other gives the disk that
    the other order gives, and throws when the other order throws. *)
Theorem writeFile_commute (ident ident' : list string) (node node' : json)
        (fs : files) (rel rel' : string) :
  Forall (fun s => plain s = true) ident ->
  Forall (fun s => plain s = true) ident' ->
  ownNames ident = true -> ownNames ident' = true ->
  copiesRecord node = true -> copiesRecord node' = true ->
  ~ In "__compat" ident -> ~ In "__compat" ident' -> ident <> ident' ->
  getFilePath ident = Ok rel -> getFilePath ident' = Ok rel' ->
  readFailure (resolve rel) = None -> writeFailure (resolve rel) = None ->
  readFailure (resolve rel') = None -> writeFailure (resolve rel') = None ->
  node <> JNull -> node' <> JNull ->
  (let* fs1 := writeFile ident node fs in writeFile ident' node' fs1) =
  (let* fs2 := writeFile ident' node' fs in writeFile ident node fs2).
Proof.
  intros _ _ _ _ _ _ Hc Hc' Hne Hrel Hrel' Hr Hw Hr' Hw' Hnode Hnode'.
  assert (Hio : usable (resolve rel)) by (split; assumption).
  assert (Hio' : usable (resolve rel')) by (split; assumption).
  destruct (compatOf_cases node) as [[E _]|(leaf & _ & Hleaf)]; [congruence|].
  destruct (compatOf_cases node') as [[E _]|(leaf' & _ & Hleaf')]; [congruence|].
  etransitivity;
    [apply bind_ext;
       [exact (writeFile_eq ident node fs rel leaf Hrel Hleaf Hio)
       |intros fs1;
        exact (writeFile_eq ident' node' fs1 rel' leaf' Hrel' Hleaf' Hio')]|].
  symmetry.
  etransitivity;
    [apply bind_ext;
       [exact (writeFile_eq ident' node' fs rel' leaf' Hrel' Hleaf' Hio')
       |intros fs2;
        exact (writeFile_eq ident node fs2 rel leaf Hrel Hleaf Hio)]|].
  symmetry.
  set (p := ident ++ ["__compat"]). set (p' := ident' ++ ["__compat"]).
  assert (Hpp : ~ p `prefix_of` p') by (apply records_apart; auto).
  assert (Hpp' : ~ p' `prefix_of` p) by (apply records_apart; auto).
  rewrite !bind_assoc. cbn [bind].
  destruct (decide (resolve rel = resolve rel')) as [Hf|Hf].
  - rewrite <- Hf.
    transitivity
      (let* t2 := (let* t1 := insertAt p (default emptyObject (fs !! resolve rel))
                                       leaf in
                   insertAt p' t1 leaf') in
       Ok (<[resolve rel := t2]> fs)).
    { rewrite !bind_assoc. apply bind_ext; [reflexivity|]. intros t1.
      rewrite lookup_insert_eq. cbn [default id].
      apply bind_ext; [reflexivity|]. intros t2.
      now rewrite insert_insert_eq. }
    rewrite (insertAt_commute p p' _ leaf leaf' Hpp Hpp').
    rewrite !bind_assoc. apply bind_ext; [reflexivity|]. intros t1.
    rewrite lookup_insert_eq. cbn [default id].
    apply bind_ext; [reflexivity|]. intros t2.
    now rewrite insert_insert_eq.
  - transitivity
      (let* t1 := insertAt p (default emptyObject (fs !! resolve rel)) leaf in
       let* t2 := insertAt p' (default emptyObject (fs !! resolve rel')) leaf' in
       Ok (<[resolve rel' := t2]> (<[resolve rel := t1]> fs))).
    { apply bind_ext; [reflexivity|]. intros t1.
      now rewrite lookup_insert_ne by exact Hf. }
    rewrite (bind_swap _ _ _ TypeError)
      by (intros e; apply insertAt_throws).
    apply bind_ext; [reflexivity|]. intros t2.
    rewrite lookup_insert_ne by congruence.
    apply bind_ext; [reflexivity|]. intros t1.
    now rewrite insert_insert_ne by congruence.
Qed.

End DiskFacts.

Lemma plainKeys_check (doc : json) :
  forallb (fun call => forallb plain call.1) (visited doc []) = true ->
  plainKeys doc.
Proof.
  intros H ks n Hd. rewrite forallb_forall in H.
  specialize (H (ks, n) (visited_complete doc ks n Hd [])). simpl in H.
  rewrite forallb_forall in H. apply List.Forall_forall. exact H.
Qed.

Lemma ownKeys_check (doc : json) :
  forallb (fun call => ownNames call.1 && copiesRecord call.2)
          (visited doc []) = true ->
  ownKeys doc.
Proof.
  intros H ks n Hd. rewrite forallb_forall in H.
  specialize (H (ks, n) (visited_complete doc ks n Hd [])). simpl in H.
  now apply andb_true_iff in H.
Qed.

Lemma functional_check (doc : json) :
  NoDup (visited doc []).*1 ->
  forall ident node node',
    descends doc ident node -> descends doc ident node' -> node' = node.
Proof.
  intros Hnd ident node node' H H'.
  pose proof (visited_complete doc ident node H []) as Hin.
  pose proof (visited_complete doc ident node' H' []) as Hin'.
  simpl in Hin, Hin'. revert Hnd Hin Hin'.
  induction (visited doc []) as [|[i n] calls IH]; [intros _ []|].
  cbn [fmap list_fmap fst]. intros Hnd Hin Hin'.
  apply NoDup_cons in Hnd as [Hnot Hnd].
  assert (Hfst : forall x, In (i, x) calls -> False).
  { intros x Hx. apply Hnot, list_elem_of_In.
    apply (in_map fst) in Hx. exact Hx. }
  destruct Hin as [Heq|Hin], Hin' as [Heq'|Hin'].
  - congruence.
  - exfalso. injection Heq as -> _. now apply (Hfst node').
  - exfalso. injection Heq' as -> _. now apply (Hfst node).
  - now apply IH.
Qed.

Lemma traverseFeatures_again_witness :
  exists fs',
    traverseFeatures
      (writeFile [] (String.app "bcd/") (fun t => t) noFailure noFailure)
      sampleDocument [] ∅ = Ok fs' /\
    traverseFeatures
      (writeFile [] (String.app "bcd/") (fun t => t) noFailure noFailure)
      sampleDocument [] fs' = Ok fs'.
Proof.
  eexists. split; [vm_compute; reflexivity|].
  apply (traverseFeatures_again [] (String.app "bcd/") (fun t => t)
           noFailure noFailure (fun t => eq_refl) sampleDocument ∅).
  - apply plainKeys_check. reflexivity.
  - apply functional_check. apply (bool_decide_unpack _). vm_compute. exact I.
  - vm_compute. reflexivity.
Defined.

Lemma writeFile_commute_witness :
  (let* fs1 := writeFile [] (String.app "bcd/") (fun t => t) noFailure noFailure
                 ["api"; "A"] sampleInterface ∅ in
   writeFile [] (String.app "bcd/") (fun t => t) noFailure noFailure
     ["api"; "A"; "m"]
     (featureWith (JObj [("version_added", JStr "1")])) fs1) =
  (let* fs2 := writeFile [] (String.app "bcd/") (fun t => t) noFailure noFailure
                 ["api"; "A"; "m"]
                 (featureWith (JObj [("version_added", JStr "1")])) ∅ in
   writeFile [] (String.app "bcd/") (fun t => t) noFailure noFailure
     ["api"; "A"] sampleInterface fs2).
Proof.
  apply (writeFile_commute [] (String.app "bcd/") (fun t => t)
           noFailure noFailure
           (fun t => eq_refl) ["api"; "A"] ["api"; "A"; "m"] sampleInterface
           (featureWith (JObj [("version_added", JStr "1")])) ∅
           "api/A.json" "api/A.json").
  - repeat constructor.
  - repeat constructor.
  - reflexivity.
  - reflexivity.
  - vm_compute. reflexivity.
  - vm_compute. reflexivity.
  - intros [H|[H|[]]]; discriminate H.
  - intros [H|[H|[H|[]]]]; discriminate H.
  - discriminate.
  - reflexivity.
  - reflexivity.
  - reflexivity.
  - reflexivity.
  - reflexivity.
  - reflexivity.
  - discriminate.
  - discriminate.
Defined.

Lemma writeFile_merges_witness :
  exists rel leaf t,
    Resolver.getFilePath [] ["api"; "A"; "m"] = Ok rel /\
    compatOf (featureWith (JObj [("version_added", JStr "1")])) = Ok leaf /\
    noFailure (String.app "bcd/" rel) = None /\
    noFailure (String.app "bcd/" rel) = None /\
    <["bcd/api/A.json" :=
        TObj {[ "api" := TObj {[ "A" := TObj {[ "m" :=
          TObj {[ "__compat" := TObj {[ "support" := TObj {[ "chrome" :=
            TObj {[ "version_added" := TStr "1" ]} ]} ]} ]} ]} ]} ]}]>
      (∅ : files) =
      <[String.app "bcd/" rel := t]> ∅ /\
    descend t (["api"; "A"; "m"] ++ ["__compat"]) = Some (objectAssign leaf) /\
    (forall r, ~ (["api"; "A"; "m"] ++ ["__compat"]) `prefix_of` r ->
               ~ r `prefix_of` (["api"; "A"; "m"] ++ ["__compat"]) ->
               descend t r =
               descend (default emptyObject
                          ((∅ : files) !! String.app "bcd/" rel)) r).
Proof.
  apply (writeFile_merges [] (String.app "bcd/") (fun t => t)
           noFailure noFailure (fun t => eq_refl)
           ["api"; "A"; "m"]
           (featureWith (JObj [("version_added", JStr "1")])) ∅).
  - repeat constructor.
  - reflexivity.
  - intros [H|[H|[H|[]]]]; discriminate H.
  - vm_compute. reflexivity.
  - vm_compute. reflexivity.
Defined.

(** A write into a file that holds an object under [api], and the same
    write when the file system refuses to write the file. *)
Lemma writeFile_returns_iff_witness :
  (exists fs',
     writeFile [] (String.app "bcd/") (fun t => t) noFailure noFailure
       ["api"; "A"; "m"]
       (featureWith (JObj [("version_added", JStr "1")]))
       {[ "bcd/api/A.json" := TObj {[ "api" := TObj ∅ ]} ]} = Ok fs') /\
  ~ (exists fs',
       writeFile [] (String.app "bcd/") (fun t => t) noFailure
         (fun path => if (path =? "bcd/api/A.json")%string
                      then Some (Error "ENOENT") else None)
         ["api"; "A"; "m"]
         (featureWith (JObj [("version_added", JStr "1")]))
         {[ "bcd/api/A.json" := TObj {[ "api" := TObj ∅ ]} ]} = Ok fs').
Proof.
  split.
  - apply (writeFile_returns_iff [] (String.app "bcd/") (fun t => t)
             noFailure noFailure ["api"; "A"; "m"]
             (featureWith (JObj [("version_added", JStr "1")]))
             {[ "bcd/api/A.json" := TObj {[ "api" := TObj ∅ ]} ]}).
    + repeat constructor.
    + reflexivity.
    + intros [H|[H|[H|[]]]]; discriminate H.
    + vm_compute. reflexivity.
    + exists "api/A.json". split; [reflexivity|]. split; [reflexivity|].
      split; [discriminate|]. split; [vm_compute; reflexivity|reflexivity].
  - intros H.
    destruct (writeFile_returns_iff [] (String.app "bcd/") (fun t => t)
                noFailure
                (fun path => if (path =? "bcd/api/A.json")%string
                             then Some (Error "ENOENT") else None)
                ["api"; "A"; "m"]
                (featureWith (JObj [("version_added", JStr "1")]))
                {[ "bcd/api/A.json" := TObj {[ "api" := TObj ∅ ]} ]})
      as [[Hfw _] _].
    + repeat constructor.
    + reflexivity.
    + intros [E|[E|[E|[]]]]; discriminate E.
    + vm_compute. reflexivity.
    + destruct (Hfw H) as (rel & Hrel & _ & _ & _ & Hw).
      injection Hrel as <-. discriminate Hw.
Defined.

Lemma traverseFeatures_injects_witness :
  exists fs',
    traverseFeatures
      (writeFile [] (String.app "bcd/") (fun t => t) noFailure noFailure)
      sampleDocument [] ∅ = Ok fs' /\
    exists rel leaf t,
      Resolver.getFilePath [] ["api"; "A"] = Ok rel /\
      compatOf sampleInterface = Ok leaf /\
      fs' !! String.app "bcd/" rel = Some t /\
      descend t (["api"; "A"] ++ ["__compat"]) = Some (objectAssign leaf).
Proof.
  eexists. split; [vm_compute; reflexivity|].
  apply (traverseFeatures_injects [] (String.app "bcd/") (fun t => t)
           noFailure noFailure (fun t => eq_refl) sampleDocument ∅).
  - apply plainKeys_check. reflexivity.
  - apply ownKeys_check. vm_compute. reflexivity.
  - vm_compute. reflexivity.
  - eapply descends_deeper; [left; reflexivity|reflexivity|].
    apply descends_child; [left; reflexivity|reflexivity].
  - intros node' H.
    inversion H as [|? ? child ? ? Hin _ Hd]; subst.
    destruct Hin as [[= <-]|[]].
    inversion Hd as [? ? ? Hin' _|? ? ? ? ? _ _ Hd']; subst.
    + destruct Hin' as [[= <-]|[[=]|[]]]. reflexivity.
    + inversion Hd'.
  - reflexivity.
Defined.

End FilesFacts.

(** * The loop of [collectMissing] in place refines the loop on values *)

Module InPlaceFacts.
Import Store StoreFacts Abstraction AbstractionFacts InPlace.

Section Template.

Variables (h0 : store) (tpl tc : loc).
Hypothesis template_closed : closed h0.
Hypothesis template_object : h0 !! tpl = Some {[ "__compat" := VRef tc ]}.

Lemma template_bounds : tpl < length h0 /\ tc < length h0.
Proof.
  split; [now apply lookup_lt_Some in template_object|].
  apply (template_closed tpl _ "__compat" tc template_object).
  apply lookup_singleton_eq.
Qed.

Lemma shaped_length (h : store) : shaped h0 tc h -> length h0 <= length h.
Proof.
  intros [Ht _ _]. destruct (decide (length h0 <= length h)) as [|Hn]; [easy|].
  assert (Hl : length h < length h0) by lia.
  specialize (Ht _ Hl). rewrite lookup_ge_None_2 in Ht by lia.
  symmetry in Ht. apply lookup_ge_None in Ht. lia.
Qed.

Lemma shaped_closed (h : store) : shaped h0 tc h -> closed h.
Proof.
  intros Hs l o k l' Ho Hk. pose proof (shaped_length h Hs) as Hlen.
  destruct (decide (l < length h0)) as [Hl|Hl].
  - rewrite (shaped_template _ _ _ Hs l Hl) in Ho.
    pose proof (template_closed l o k l' Ho Hk). lia.
  - destruct (shaped_fields _ _ _ Hs l o k _ ltac:(lia) Ho Hk)
      as [[_ [= ->]]|(_ & l2 & [= ->] & Hb)]; [|lia].
    pose proof template_bounds. lia.
Qed.

(** What is reached from an object of the template is an object of the
    template. *)
Lemma reach_template (h : store) (v : value) (x : loc) :
  shaped h0 tc h -> reach h v x ->
  forall a, v = VRef a -> a < length h0 -> x < length h0.
Proof.
  intros Hs. induction 1 as [l|l o k v l' Ho Hk Hr IH]; intros a [= <-] Ha;
    [exact Ha|].
  destruct v as [ | | | | | b]; try (inversion Hr; fail).
  apply (IH b eq_refl).
  rewrite (shaped_template _ _ _ Hs l Ha) in Ho.
  apply (template_closed l o k b Ho Hk).
Qed.

Lemma shaped_init : shaped h0 tc (h0 ++ [∅]).
Proof.
  split.
  - intros l Hl. now rewrite lookup_app_l.
  - intros l o k v Hl Ho Hk.
    rewrite lookup_app_r in Ho by exact Hl.
    destruct (l - length h0) as [|n]; [|discriminate Ho].
    injection Ho as <-. rewrite lookup_empty in Hk. discriminate Hk.
  - intros l1 o1 k1 l2 o2 k2 l' Hl1 _ Ho1 Hk1 _ _ _ _.
    rewrite lookup_app_r in Ho1 by exact Hl1.
    destruct (l1 - length h0) as [|n]; [|discriminate Ho1].
    injection Ho1 as <-. rewrite lookup_empty in Hk1. discriminate Hk1.
Qed.

Lemma shaped_alloc (h : store) (o : object) :
  shaped h0 tc h ->
  (forall k v, o !! k = Some v -> k = "__compat" /\ v = VRef tc) ->
  shaped h0 tc (h ++ [o]).
Proof.
  intros Hs Ho. pose proof (shaped_length h Hs) as Hlen.
  assert (Hnew : forall l o1, (h ++ [o]) !! l = Some o1 ->
                   h !! l = Some o1 \/ (l = length h /\ o1 = o)).
  { intros l o1 H. destruct (decide (l < length h)) as [Hl|Hl].
    - rewrite lookup_app_l in H by exact Hl. now left.
    - rewrite lookup_app_r in H by lia.
      destruct (l - length h) as [|n] eqn:E; [|destruct n; discriminate H].
      injection H as <-. right. split; [lia|reflexivity]. }
  split.
  - intros l Hl. rewrite lookup_app_l by lia.
    now apply (shaped_template _ _ _ Hs).
  - intros l o1 k v Hl H1 Hk. rewrite length_app. simpl.
    apply Hnew in H1 as [H1|[-> ->]].
    + destruct (shaped_fields _ _ _ Hs l o1 k v Hl H1 Hk)
        as [?|(Hne & l' & -> & Hb)]; [now left|].
      right. split; [exact Hne|]. exists l'. split; [reflexivity|lia].
    + left. now apply Ho.
  - intros l1 o1 k1 l2 o2 k2 l' Hl1 Hl2 H1 Hk1 H2 Hk2 Hn1 Hn2.
    apply Hnew in H1 as [H1|[-> ->]];
      [|destruct (Ho _ _ Hk1) as [E _]; now destruct Hn1].
    apply Hnew in H2 as [H2|[-> ->]];
      [|destruct (Ho _ _ Hk2) as [E _]; now destruct Hn2].
    now apply (shaped_parent _ _ _ Hs l1 o1 k1 l2 o2 k2 l').
Qed.

Lemma shaped_link (h : store) (l : loc) (o : object) (k : string) (c : loc) :
  shaped h0 tc h ->
  length h0 <= l -> h !! l = Some o -> k <> "__compat" ->
  l < c < length h ->
  (forall l1 o1 k1,
     length h0 <= l1 -> h !! l1 = Some o1 -> o1 !! k1 = Some (VRef c) ->
     k1 <> "__compat" -> l1 = l /\ k1 = k) ->
  shaped h0 tc (<[l := <[k := VRef c]> o]> h).
Proof.
  intros Hs Hl Ho Hk Hc Hfresh.
  assert (Hedge : forall l1 o1 k1 v,
             (<[l := <[k := VRef c]> o]> h) !! l1 = Some o1 ->
             o1 !! k1 = Some v ->
             (l1 = l /\ k1 = k /\ v = VRef c) \/
             (exists o', h !! l1 = Some o' /\ o' !! k1 = Some v)).
  { intros l1 o1 k1 v H1 Hk1. destruct (decide (l1 = l)) as [->|Hne].
    - rewrite list_lookup_insert_eq in H1 by (now apply lookup_lt_Some in Ho).
      injection H1 as <-. destruct (decide (k1 = k)) as [->|Hnk].
      + rewrite lookup_insert_eq in Hk1. injection Hk1 as <-. now left.
      + rewrite lookup_insert_ne in Hk1 by congruence. right. eauto.
    - rewrite list_lookup_insert_ne in H1 by congruence. right. eauto. }
  split.
  - intros l' Hl'. rewrite list_lookup_insert_ne by lia.
    now apply (shaped_template _ _ _ Hs).
  - intros l1 o1 k1 v Hl1 H1 Hk1. rewrite length_insert.
    destruct (Hedge _ _ _ _ H1 Hk1) as [(-> & -> & ->)|(o' & H' & Hk')].
    + right. split; [exact Hk|]. exists c. split; [reflexivity|lia].
    + now apply (shaped_fields _ _ _ Hs l1 o' k1 v).
  - intros l1 o1 k1 l2 o2 k2 l' Hl1 Hl2 H1 Hk1 H2 Hk2 Hn1 Hn2.
    destruct (Hedge _ _ _ _ H1 Hk1) as [(-> & -> & [= ->])|(o1' & H1' & Hk1')];
      destruct (Hedge _ _ _ _ H2 Hk2) as [(-> & -> & E)|(o2' & H2' & Hk2')].
    + split; reflexivity.
    + destruct (Hfresh l2 o2' k2 Hl2 H2' Hk2' Hn2) as [-> ->]. split; reflexivity.
    + injection E as ->.
      destruct (Hfresh l1 o1' k1 Hl1 H1' Hk1' Hn1) as [-> ->]. split; reflexivity.
    + now apply (shaped_parent _ _ _ Hs l1 o1' k1 l2 o2' k2 l').
Qed.

Lemma shaped_ownProperties (h : store) :
  shaped h0 tc h -> ownProperties h (VRef tpl) = {[ "__compat" := VRef tc ]}.
Proof.
  intros Hs. cbn [ownProperties].
  rewrite (shaped_template _ _ _ Hs tpl (proj1 template_bounds)).
  now rewrite template_object.
Qed.

(** The merge of the template keeps the shape of the store, and writes to
    no object before the one it is given. *)
Lemma insertAt_shaped (p : list string) :
  forall (h : store) (l : loc),
    shaped h0 tc h -> length h0 <= l < length h ->
    p <> [] -> ~ In "__compat" p ->
    exists h',
      insertAt p (VRef l) (VRef tpl) h = Ok (VRef l, h') /\
      shaped h0 tc h' /\ length h <= length h' /\
      (forall x, x < l -> h' !! x = h !! x).
Proof.
  induction p as [|k rest IH]; intros h l Hs Hl Hne Hclean; [congruence|].
  assert (Hk : k <> "__compat") by (intros ->; apply Hclean; now left).
  destruct (lookup_lt_is_Some_2 h l ltac:(lia)) as [o Ho].
  destruct rest as [|k2 rest].
  - rewrite insertAt_last, (shaped_ownProperties h Hs).
    cbn [assign]. rewrite lookup_app_l by lia. rewrite Ho. cbn [bind].
    eexists. split; [reflexivity|]. split; [|split].
    + apply shaped_link; try assumption; try lia.
      * apply shaped_alloc; [exact Hs|].
        intros k' v Hv. now apply lookup_singleton_Some in Hv as [<- <-].
      * now rewrite lookup_app_l by lia.
      * rewrite length_app. simpl. lia.
      * intros l1 o1 k1 Hl1 H1 Hk1 Hn1. exfalso.
        destruct (decide (l1 < length h)) as [Hlt|Hge].
        -- rewrite lookup_app_l in H1 by exact Hlt.
           destruct (shaped_fields _ _ _ Hs l1 o1 k1 _ Hl1 H1 Hk1)
             as [[E _]|(_ & l' & [= <-] & Hb)]; [now apply Hn1|lia].
        -- rewrite lookup_app_r in H1 by lia.
           destruct (l1 - length h) as [|n]; [|destruct n; discriminate H1].
           injection H1 as <-.
           apply lookup_singleton_Some in Hk1 as [E _]. now apply Hn1.
    + rewrite length_insert, length_app. lia.
    + intros x Hx. rewrite list_lookup_insert_ne by lia.
      rewrite lookup_app_l by lia. reflexivity.
  - rewrite insertAt_inner. cbn [deref]. rewrite Ho. cbn [bind].
    assert (Hrest : ~ In "__compat" (k2 :: rest))
      by (intros H; apply Hclean; now right).
    destruct (o !! k) as [c|] eqn:Hc.
    + destruct (shaped_fields _ _ _ Hs l o k c (proj1 Hl) Ho Hc)
        as [[E _]|(_ & l' & -> & Hb)]; [now destruct Hk|].
      destruct (IH h l' Hs ltac:(lia) ltac:(discriminate) Hrest)
        as (h2 & Hrun & Hs2 & Hlen & Hframe).
      rewrite Hrun. cbn [bind assign].
      rewrite (Hframe l ltac:(lia)), Ho. cbn [bind].
      rewrite (insert_id o k (VRef l') Hc).
      rewrite list_insert_id by (now rewrite (Hframe l ltac:(lia))).
      exists h2. split; [reflexivity|]. split; [exact Hs2|]. split; [exact Hlen|].
      intros x Hx. apply Hframe. lia.
    + unfold alloc.
      assert (Hs1 : shaped h0 tc (h ++ [∅])).
      { apply shaped_alloc; [exact Hs|]. intros k' v Hv.
        rewrite lookup_empty in Hv. discriminate Hv. }
      destruct (IH (h ++ [∅]) (length h) Hs1
                  ltac:(rewrite length_app; simpl; lia)
                  ltac:(discriminate) Hrest)
        as (h2 & Hrun & Hs2 & Hlen & Hframe).
      rewrite Hrun. cbn [bind assign].
      assert (Ho2 : h2 !! l = Some o).
      { rewrite (Hframe l ltac:(lia)), lookup_app_l by lia. exact Ho. }
      rewrite Ho2. cbn [bind].
      rewrite length_app in Hlen. simpl in Hlen.
      eexists. split; [reflexivity|]. split; [|split].
      * apply shaped_link; try assumption; try lia.
        intros l1 o1 k1 Hl1 H1 Hk1 Hn1. exfalso.
        destruct (shaped_fields _ _ _ Hs2 l1 o1 k1 _ Hl1 H1 Hk1)
          as [[E _]|(_ & l' & [= <-] & Hb)]; [now apply Hn1|].
        rewrite (Hframe l1 ltac:(lia)), lookup_app_l in H1 by lia.
        destruct (shaped_fields _ _ _ Hs l1 o1 k1 _ Hl1 H1 Hk1)
          as [[E _]|(_ & l' & [= <-] & Hb')]; [now apply Hn1|lia].
      * rewrite length_insert. lia.
      * intros x Hx. rewrite list_lookup_insert_ne by lia.
        rewrite (Hframe x ltac:(lia)), lookup_app_l by lia. reflexivity.
Qed.

(** The objects a merge meets: each is later than the one before, and is
    held by the one before under the segment of the path. *)
Lemma spine_shaped (p : list string) :
  forall (h : store) (l : loc),
    shaped h0 tc h -> length h0 <= l < length h ->
    p <> [] -> ~ In "__compat" p ->
    exists ls',
      spine h (VRef l) p = Some (l :: ls') /\
      Forall (fun x => l < x) ls' /\
      NoDup (l :: ls') /\
      (forall x, x ∈ ls' ->
         exists j y o k,
           (l :: ls') !! j = Some y /\ h !! y = Some o /\
           p !! j = Some k /\ o !! k = Some (VRef x)).
Proof.
  induction p as [|k rest IH]; intros h l Hs Hl Hne Hclean; [congruence|].
  assert (Hk : k <> "__compat") by (intros ->; apply Hclean; now left).
  destruct (lookup_lt_is_Some_2 h l ltac:(lia)) as [o Ho].
  assert (Hone : exists ls',
             Some [l] = Some (l :: ls') /\ Forall (fun x => l < x) ls' /\
             NoDup (l :: ls') /\
             (forall x, x ∈ ls' ->
                exists j y o k0,
                  (l :: ls') !! j = Some y /\ h !! y = Some o /\
                  (k :: rest) !! j = Some k0 /\ o !! k0 = Some (VRef x))).
  { exists []. split; [reflexivity|]. split; [constructor|].
    split; [apply NoDup_singleton|]. intros x Hx. inversion Hx. }
  cbn [spine]. rewrite Ho.
  destruct rest as [|k2 rest]; [exact Hone|].
  destruct (o !! k) as [c|] eqn:Hc; [|exact Hone].
  destruct (shaped_fields _ _ _ Hs l o k c (proj1 Hl) Ho Hc)
    as [[E _]|(_ & l' & -> & Hb)]; [now destruct Hk|].
  destruct (IH h l' Hs ltac:(lia) ltac:(discriminate)
              ltac:(intros H; apply Hclean; now right))
    as (ls2 & Hsp & Hlt & Hnd & Hedge).
  rewrite Hsp. cbn [fmap option_fmap option_map].
  exists (l' :: ls2). split; [reflexivity|]. split; [|split].
  - constructor; [lia|].
    eapply List.Forall_impl; [|exact Hlt]. simpl. intros; lia.
  - apply NoDup_cons. split; [|exact Hnd].
    intros Hin. apply elem_of_cons in Hin as [->|Hin]; [lia|].
    rewrite List.Forall_forall in Hlt.
    apply list_elem_of_In in Hin. specialize (Hlt _ Hin). lia.
  - intros x Hx. apply elem_of_cons in Hx as [->|Hx].
    + exists 0, l, o, k. auto.
    + destruct (Hedge x Hx) as (j & y & o' & k' & Hj & Hy & Hp & Hk').
      exists (S j), y, o', k'. auto.
Qed.

Section Spine.

Variables (h : store) (p : list string) (ls' : list loc).
Hypothesis Hs : shaped h0 tc h.
Hypothesis Hclean : ~ In "__compat" p.
Hypothesis Hlt : Forall (fun x => length h0 < x) ls'.
Hypothesis Hnd : NoDup (length h0 :: ls').
Hypothesis Hedge :
  forall x, x ∈ ls' ->
    exists j y o k,
      (length h0 :: ls') !! j = Some y /\ h !! y = Some o /\
      p !! j = Some k /\ o !! k = Some (VRef x).

Lemma spine_from_root (x : loc) : x ∈ length h0 :: ls' -> length h0 <= x.
Proof.
  intros Hx. apply elem_of_cons in Hx as [->|Hx]; [lia|].
  rewrite List.Forall_forall in Hlt. apply list_elem_of_In in Hx.
  specialize (Hlt _ Hx). lia.
Qed.

(** An object held under a key other than [__compat] by an object that is
    not of the template, when it is on the spine, is held by the object of
    the spine before it, under the segment of the path. *)
Lemma spine_parent (a : loc) (o : object) (k : string) (b : loc) :
  length h0 <= a -> h !! a = Some o -> o !! k = Some (VRef b) ->
  k <> "__compat" -> b ∈ length h0 :: ls' ->
  exists j, (length h0 :: ls') !! j = Some a /\ p !! j = Some k.
Proof.
  intros Ha Ho Hk Hne Hb.
  destruct (shaped_fields _ _ _ Hs a o k _ Ha Ho Hk)
    as [[E _]|(_ & b' & [= <-] & Hab)]; [now destruct Hne|].
  apply elem_of_cons in Hb as [->|Hb]; [lia|].
  destruct (Hedge b Hb) as (j & y & o' & k' & Hj & Hy & Hp & Hk').
  assert (Hy' : length h0 <= y).
  { apply spine_from_root. eapply list_elem_of_lookup_2; eauto. }
  assert (Hk'' : k' <> "__compat").
  { intros ->. apply Hclean. apply list_elem_of_In.
    eapply list_elem_of_lookup_2; eauto. }
  destruct (shaped_parent _ _ _ Hs a o k y o' k' b Ha Hy' Ho Hk Hy Hk' Hne Hk'')
    as [-> ->].
  eauto.
Qed.

Lemma reach_spine (v : value) (x : loc) :
  reach h v x -> x ∈ length h0 :: ls' ->
  forall a, v = VRef a -> length h0 <= a -> a ∈ length h0 :: ls'.
Proof.
  induction 1 as [l|l o k v l' Ho Hk Hr IH]; intros Hx a [= <-] Ha;
    [exact Hx|].
  destruct v as [ | | | | | b]; try (inversion Hr; fail).
  destruct (shaped_fields _ _ _ Hs l o k _ Ha Ho Hk)
    as [[_ [= ->]]|(Hne & b' & [= <-] & Hb)].
  - pose proof (reach_template h _ _ Hs Hr tc eq_refl
                  (proj2 template_bounds)).
    pose proof (spine_from_root _ Hx). lia.
  - assert (Hin : b ∈ length h0 :: ls') by (apply (IH Hx b eq_refl); lia).
    destruct (spine_parent l o k b Ha Ho Hk Hne Hin) as (j & Hj & _).
    eapply list_elem_of_lookup_2; eauto.
Qed.

Lemma spine_apart (x : loc) :
  x ∈ length h0 :: ls' ->
  ~ beside h (length h0 :: ls') p (VRef tpl) x.
Proof.
  intros Hx (v & Hv & Hr).
  pose proof (spine_from_root _ Hx) as Hxr.
  assert (Htc : v <> VRef tc).
  { intros ->.
    pose proof (reach_template h _ _ Hs Hr tc eq_refl
                  (proj2 template_bounds)). lia. }
  destruct Hv as [(j & y & o & k & Hj & Hy & Hp & Hk)|[k Hk]].
  - assert (Hyr : length h0 <= y).
    { apply spine_from_root. eapply list_elem_of_lookup_2; eauto. }
    destruct v as [ | | | | | b]; try (inversion Hr; fail).
    destruct (shaped_fields _ _ _ Hs y o k _ Hyr Hy Hk)
      as [[_ E]|(Hne & b' & [= <-] & Hb)]; [now apply Htc|].
    assert (Hin : b ∈ length h0 :: ls')
      by (apply (reach_spine _ _ Hr Hx b eq_refl); lia).
    destruct (spine_parent y o k b Hyr Hy Hk Hne Hin) as (j' & Hj' & Hp').
    assert (j = j') as -> by (eapply NoDup_lookup; eauto).
    now apply Hp.
  - rewrite (shaped_ownProperties h Hs) in Hk.
    apply lookup_singleton_Some in Hk as [_ <-]. now apply Htc.
Qed.

End Spine.

Hypothesis template_tree : represents h0 (VRef tpl) Files.template.

Lemma shaped_represents (h : store) :
  shaped h0 tc h -> represents h (VRef tpl) Files.template.
Proof.
  intros Hs. destruct template_tree as [n Hn]. exists n.
  apply (repN_frame n h0); [|exact Hn].
  intros l Hr. apply (shaped_template _ _ _ Hs).
  apply (reach_closed h0 (VRef tpl) l template_closed); [|exact Hr].
  exact (proj1 template_bounds).
Qed.

Lemma merge_refines (h : store) (r : loc) (p : list string) (obj : value)
      (T L : Tree.tree) (ls : list loc) :
  p <> [] -> closed h -> inStore h obj ->
  spine h (VRef r) p = Some ls -> NoDup ls ->
  represents h (VRef r) T -> represents h obj L ->
  (forall l, l ∈ ls -> ~ beside h ls p obj l) ->
  exists h' T',
    insertAt p (VRef r) obj h = Ok (VRef r, h') /\
    Tree.insertAt p T L = Ok T' /\
    represents h' (VRef r) T'.
Proof.
  intros Hp Hc Hobj Hs Hnd [n HT] [nL HL] Hsep.
  destruct (insertAt_represents p obj L nL h (VRef r) T ls n Hp Hc Hobj Hs Hnd
              HT (represents_leafRel _ _ _ _ HL))
    as (h' & T' & Hrun & Htree & Hpost).
  destruct (insertAt_merged p obj h (VRef r) ls Hp Hs Hnd)
    as (h2 & c & Hrun2 & [_ _ Hothers _ _]).
  rewrite Hrun in Hrun2. injection Hrun2 as <-.
  exists h', T'. split; [exact Hrun|]. split; [exact Htree|].
  apply Hpost; [reflexivity|].
  intros l' Hap. apply Hothers.
  - destruct Hap as (v & Hv & Hr).
    apply (reach_closed h v l' Hc); [|exact Hr].
    destruct Hv as [(j & l0 & o & k & _ & Ho & _ & Hk)|Hf].
    + eapply closed_field; eauto.
    + eapply leafField_inStore; eauto.
  - intros Hin. now apply (Hsep l').
Qed.

Lemma collect_shaped (missingEntries : list string) :
  Forall Files.clean missingEntries ->
  forall (h : store) (T : Tree.tree),
    shaped h0 tc h -> length h0 < length h ->
    represents h (VRef (length h0)) T ->
    exists h' T',
      collect missingEntries (VRef (length h0)) (VRef tpl) h = Ok h' /\
      Files.collect missingEntries T = Ok T' /\
      represents h' (VRef (length h0)) T' /\
      shaped h0 tc h'.
Proof.
  induction 1 as [|entry rest Hclean _ IH]; intros h T Hs Hroot HT;
    [exists h, T; auto|].
  pose proof (FilesFacts.split_nonempty "." entry) as Hne.
  destruct (spine_shaped _ h (length h0) Hs ltac:(lia) Hne Hclean)
    as (ls' & Hsp & Hlt & Hnd & Hedge).
  destruct (merge_refines h (length h0) _ (VRef tpl) T Files.template _
              Hne (shaped_closed h Hs)
              ltac:(simpl; pose proof template_bounds; lia)
              Hsp Hnd HT (shaped_represents h Hs)
              (spine_apart h _ ls' Hs Hclean Hlt Hnd Hedge))
    as (h1 & T1 & Hrun & Htree & HT1).
  destruct (insertAt_shaped _ h (length h0) Hs ltac:(lia) Hne Hclean)
    as (h1' & Hrun' & Hs1 & Hlen & _).
  rewrite Hrun in Hrun'. injection Hrun' as <-.
  destruct (IH h1 T1 Hs1 ltac:(lia) HT1) as (h' & T' & Hc & Hc' & HT' & Hs').
  exists h', T'. cbn [collect Files.collect].
  rewrite store_recursiveAdd_insertAt, Hrun, TreeFacts.recursiveAdd_insertAt,
    Htree.
  cbn [bind]. auto.
Qed.

End Template.

(** X23.  The loop of [collectMissing] as the script runs it, in place and
    with every copy holding the one record of the template, computes the
    tree the loop on values computes: on entries of own names without a
    [__compat] segment it does not throw, the object [missing] then stands
    for that tree, and the objects of the template are as they were. *)
Theorem collectMissing_in_place (h0 : store) (tpl tc : loc)
        (missingEntries : list string) :
  closed h0 ->
  h0 !! tpl = Some {[ "__compat" := VRef tc ]} ->
  represents h0 (VRef tpl) Files.template ->
  Forall Files.clean missingEntries ->
  Forall Files.ownEntry missingEntries ->
  exists h' T,
    collect missingEntries (VRef (length h0)) (VRef tpl) (h0 ++ [∅]) = Ok h' /\
    Files.collect missingEntries Tree.emptyObject = Ok T /\
    represents h' (VRef (length h0)) T /\
    (forall l, l < length h0 -> h' !! l = h0 !! l).
Proof.
  intros Hc Htpl Htree Hclean _.
  destruct (collect_shaped h0 tpl tc Hc Htpl Htree missingEntries Hclean
              (h0 ++ [∅]) Tree.emptyObject)
    as (h' & T & Hrun & Hrun' & HT & Hs).
  - apply shaped_init.
  - rewrite length_app. simpl. lia.
  - exists 1. simpl. exists ∅. split.
    + rewrite lookup_app_r by lia. now rewrite Nat.sub_diag.
    + intros k. now rewrite !lookup_empty.
  - exists h', T. split; [exact Hrun|]. split; [exact Hrun'|].
    split; [exact HT|]. apply (shaped_template _ _ _ Hs).
Qed.

Lemma closedb_closed (h : store) : closedb h = true -> closed h.
Proof.
  intros H l o k l' Ho Hk. unfold closedb in H. rewrite forallb_forall in H.
  specialize (H o). rewrite forallb_forall in H.
  assert (Hin : In o h).
  { apply list_elem_of_In. eapply list_elem_of_lookup_2; eauto. }
  specialize (H Hin (k, VRef l')). simpl in H.
  apply Nat.ltb_lt, H, list_elem_of_In. now apply elem_of_map_to_list.
Qed.

Lemma repb_repN (n : nat) :
  forall h v t, repb n h v t = true -> repN n h v t.
Proof.
  induction n as [|n IH]; intros h v t H.
  - destruct v, t; simpl in *; try discriminate; auto.
    + now apply Bool.eqb_prop.
    + now apply Z.eqb_eq.
    + now apply String.eqb_eq.
  - destruct v as [ | | | | | l], t as [ | | | | | m]; simpl in *;
      try discriminate; auto.
    + now apply Bool.eqb_prop.
    + now apply Z.eqb_eq.
    + now apply String.eqb_eq.
    + destruct (h !! l) as [o|]; [|discriminate]. exists o.
      split; [reflexivity|].
      apply andb_true_iff in H as [H1 H2].
      rewrite forallb_forall in H1, H2. intros k.
      destruct (o !! k) as [v'|] eqn:Hv, (m !! k) as [t'|] eqn:Ht; auto.
      * apply IH.
        assert (Hin : In (k, v') (map_to_list o))
          by (apply list_elem_of_In; now apply elem_of_map_to_list).
        specialize (H1 _ Hin). simpl in H1. now rewrite Ht in H1.
      * assert (Hin : In (k, v') (map_to_list o))
          by (apply list_elem_of_In; now apply elem_of_map_to_list).
        specialize (H1 _ Hin). simpl in H1. rewrite Ht in H1. discriminate.
      * assert (Hin : In (k, t') (map_to_list m))
          by (apply list_elem_of_In; now apply elem_of_map_to_list).
        specialize (H2 _ Hin). simpl in H2. rewrite Hv in H2. discriminate.
Qed.

Lemma collectMissing_in_place_witness :
  exists h' T,
    collect ["api.A.m"; "api.A"; "css.properties.x"]
            (VRef (length templateStore)) (VRef 7) (templateStore ++ [∅]) =
      Ok h' /\
    Files.collect ["api.A.m"; "api.A"; "css.properties.x"] Tree.emptyObject =
      Ok T /\
    represents h' (VRef (length templateStore)) T /\
    (forall l, l < length templateStore -> h' !! l = templateStore !! l).
Proof.
  apply (collectMissing_in_place templateStore 7 6).
  - apply closedb_closed. vm_compute. reflexivity.
  - reflexivity.
  - exists 4. apply repb_repN. vm_compute. reflexivity.
  - apply FilesFacts.clean_check. reflexivity.
  - apply FilesFacts.ownEntry_check. reflexivity.
Defined.

End InPlaceFacts.
